(** * neurotic: a perceptron playground

    A shallow embedding of [neurotic.py]: three kinds of draggable objects
    (Switch, Perceptron, Light), the list of connections between them, the
    pointer-event handlers, the connection finalisation of the main loop and
    the two evaluation passes run once per frame.

    Python objects are referred to by identity; here an object is referred to
    by its position in [all_objects], which never changes length.  A Python
    exception is a [Raise] in the [result] monad. *)

From Stdlib Require Import ZArith List Bool Lia PrimFloat FloatOps SpecFloat FloatAxioms.
From stdpp Require Import base tactics option list relations.

Local Open Scope Z_scope.

(** ** Exceptions *)

Inductive exn : Type :=
| IndexError
| AttributeError
| OverflowError
| ValueError
| ZeroDivisionError.

Inductive result (A : Type) : Type :=
| Ok (a : A)
| Raise (e : exn).

Arguments Ok {A} a.
Arguments Raise {A} e.

Definition bind {A B : Type} (m : result A) (k : A -> result B) : result B :=
  match m with
  | Ok a => k a
  | Raise e => Raise e
  end.

Notation "x <- m ;; k" := (bind m (fun x => k))
  (at level 100, m at next level, right associativity).

(** [for x in l: ...] with a body that may raise, collecting the values. *)
Fixpoint mapM {A B : Type} (f : A -> result B) (l : list A) : result (list B) :=
  match l with
  | [] => Ok []
  | a :: l' => b <- f a ;; bs <- mapM f l' ;; Ok (b :: bs)
  end.

(** [l[i]] for [0 <= i]: IndexError beyond the end. *)
Definition getitem {A : Type} (l : list A) (i : nat) : result A :=
  match l !! i with
  | Some a => Ok a
  | None => Raise IndexError
  end.

(** [l.pop()]: the list without its last element, and that element. *)
Definition pop {A : Type} (l : list A) : result (list A * A) :=
  match last l with
  | Some a => Ok (removelast l, a)
  | None => Raise IndexError
  end.

(** ** Python numbers

    Weights, the bias and the weighted sum are floats (IEEE binary64), as
    [random.uniform] returns them; output values, counts and coordinates
    are ints.  pygame keeps the four numbers of a Rect in C ints of 32
    bits: it builds or moves no Rect beyond them, and the coordinates it
    derives wrap around.  Here a Rect is over [Z]: the embedding is the
    program as long as every number of every Rect stays a C int
    ([rect_fits] below), and what is stated of a constructor is stated for
    positions on the canvas ([on_canvas]), where it does. *)

Definition SF_of_int (z : Z) : spec_float :=
  match z with
  | Z0 => S754_zero false
  | Zpos p => S754_finite false p 0
  | Zneg p => S754_finite true p 0
  end.

(** The conversion of an int operand in mixed arithmetic: round to nearest,
    OverflowError when the int is too large for a float. *)
Definition float_of_int (z : Z) : result float :=
  let f := SF2Prim (binary_normalize prec emax z 0 false) in
  if is_infinity f then Raise OverflowError else Ok f.

(** [int(f)]: truncation towards zero. *)
Definition int_of_float (f : float) : result Z :=
  match Prim2SF f with
  | S754_zero _ => Ok 0
  | S754_finite s m e =>
      let a := if 0 <=? e then Z.pos m * 2 ^ e else Z.pos m / 2 ^ (- e) in
      Ok (if s then - a else a)
  | S754_infinity _ => Raise OverflowError
  | S754_nan => Raise ValueError
  end.

(** [a / b] on two ints: the correctly rounded quotient. *)
Definition int_truediv (a b : Z) : result float :=
  if b =? 0 then Raise ZeroDivisionError
  else
    let f := SF2Prim (SFdiv prec emax (SF_of_int a) (SF_of_int b)) in
    if is_infinity f then Raise OverflowError else Ok f.

(** [f * i] with a float [f] and an int [i]. *)
Definition float_mul_int (f : float) (i : Z) : result float :=
  g <- float_of_int i ;; Ok (f * g)%float.

(** [sum(xs)] over floats: starts from the int [0] and adds from the left. *)
Definition py_sum (xs : list float) : float :=
  fold_left PrimFloat.add xs 0%float.

(** ** pygame.Rect and pointer events *)

Definition pos : Type := Z * Z.

Record Rect : Type := mkRect {
  rect_x : Z;
  rect_y : Z;
  rect_w : Z;
  rect_h : Z
}.

(** The range of a C int. *)
Definition int_min : Z := -2147483648.
Definition int_max : Z := 2147483647.
Definition c_int (z : Z) : Prop := int_min <= z <= int_max.

(** The numbers of [r] and the coordinates of its far edges are C ints:
    pygame holds such a Rect, and computes [r.right], [r.bottom] and
    [r.centery] without wrapping around. *)
Definition rect_fits (r : Rect) : Prop :=
  c_int (rect_x r) /\ c_int (rect_y r) /\ c_int (rect_w r) /\ c_int (rect_h r)
  /\ c_int (rect_x r + rect_w r) /\ c_int (rect_y r + rect_h r).

(** The positions at which the objects of the program can be built and
    moved with every Rect in that range: at most [2 ^ 30] from the origin
    each way. *)
Definition on_canvas (x y : Z) : Prop :=
  - 2 ^ 30 <= x <= 2 ^ 30 /\ - 2 ^ 30 <= y <= 2 ^ 30.

Definition rect_left (r : Rect) : Z := rect_x r.
Definition rect_top (r : Rect) : Z := rect_y r.
(** [r.right] and [r.centery], for a Rect that fits: pygame adds in C ints. *)
Definition rect_right (r : Rect) : Z := rect_x r + rect_w r.
Definition rect_centery (r : Rect) : Z := rect_y r + Z.quot (rect_h r) 2.

(** [r.collidepoint(p)]: the left and top edges are inside, the right and
    bottom edges are not. *)
Definition collidepoint (r : Rect) (p : pos) : bool :=
  (rect_x r <=? fst p) && (fst p <? rect_x r + rect_w r) &&
  (rect_y r <=? snd p) && (snd p <? rect_y r + rect_h r).

(** Truth value of a Rect: false when its width or height is zero. *)
Definition rect_bool (r : Rect) : bool :=
  negb (rect_w r =? 0) && negb (rect_h r =? 0).

(** [r.topright = (x, y)], [r.topleft = (x, y)] and the assignment of
    [r.x] and [r.y]: the rectangle moves.  pygame raises TypeError for a
    number that is no C int; the positions here are those that are. *)
Definition set_topright (r : Rect) (p : pos) : Rect :=
  mkRect (fst p - rect_w r) (snd p) (rect_w r) (rect_h r).
Definition set_topleft (r : Rect) (p : pos) : Rect :=
  mkRect (fst p) (snd p) (rect_w r) (rect_h r).
Definition set_xy (r : Rect) (x y : Z) : Rect :=
  mkRect x y (rect_w r) (rect_h r).

Inductive event : Type :=
| QUIT
| MOUSEBUTTONDOWN (button : Z) (p : pos)
| MOUSEBUTTONUP (button : Z) (p : pos)
| MOUSEMOTION (p : pos)
| OTHER.

(** ** Objects

    [id(self)] is the position of the object in [all_objects]; colours and
    the other attributes only read by [draw] are left out. *)

Record DraggableObject : Type := mkDraggable {
  rect : Rect;
  is_dragging : bool;
  drag_offset_x : Z;
  drag_offset_y : Z
}.

(** [DraggableObject.__init__], for a Rect that fits: [pygame.Rect(x, y,
    width, height)] raises TypeError for a number that is no C int. *)
Definition DraggableObject_init (x y width height : Z) : DraggableObject :=
  mkDraggable (mkRect x y width height) false 0 0.

(** [self.is_dragging = True] with the two offsets, at a click on [p]. *)
Definition start_drag (d : DraggableObject) (p : pos) : DraggableObject :=
  mkDraggable (rect d) true (rect_x (rect d) - fst p) (rect_y (rect d) - snd p).

Definition stop_drag (d : DraggableObject) : DraggableObject :=
  mkDraggable (rect d) false (drag_offset_x d) (drag_offset_y d).

(** [self.rect.x = event.pos[0] + self.drag_offset_x], and the same for y. *)
Definition drag_to (d : DraggableObject) (p : pos) : DraggableObject :=
  mkDraggable (set_xy (rect d) (fst p + drag_offset_x d) (snd p + drag_offset_y d))
    (is_dragging d) (drag_offset_x d) (drag_offset_y d).

Definition step_function (x : float) : Z :=
  if (0 <=? x)%float then 1 else 0.

Definition input_node_radius : Z := 5.
Definition output_node_radius : Z := 6.
Definition button_size : Z := 15.
Definition max_inputs : nat := 8.
Definition min_inputs : nat := 1.

(** The rectangle around a node at [p] with radius [r]. *)
Definition node_rect (p : pos) (r : Z) : Rect :=
  mkRect (fst p - r) (snd p - r) (r * 2) (r * 2).

Record Perceptron : Type := mkPerceptron {
  p_base : DraggableObject;
  p_num_inputs : nat;
  p_weights : list float;
  p_bias : float;
  p_output_value : Z;
  p_input_values : list Z;
  p_input_connections : list (option nat);
  p_plus_button_rect : Rect;
  p_minus_button_rect : Rect;
  p_input_nodes_pos : list pos;
  p_output_node_pos : pos;
  p_input_node_rects : list Rect;
  p_output_node_rect : Rect
}.

Record Switch : Type := mkSwitch {
  s_base : DraggableObject;
  s_output_value : Z;
  s_toggle_rect : Rect;
  s_output_node_pos : pos;
  s_output_node_rect : Rect
}.

Record Light : Type := mkLight {
  l_base : DraggableObject;
  l_input_value : Z;
  l_num_inputs : nat;
  l_input_connections : list (option nat);
  l_input_nodes_pos : list pos;
  l_input_node_rects : list Rect
}.

Inductive Obj : Type :=
| OSwitch (s : Switch)
| OPerceptron (p : Perceptron)
| OLight (l : Light).

Definition obj_base (o : Obj) : DraggableObject :=
  match o with
  | OSwitch s => s_base s
  | OPerceptron p => p_base p
  | OLight l => l_base l
  end.

(** One entry of [connections]. *)
Record Connection : Type := mkConnection {
  source_obj : nat;
  target_obj : nat;
  target_input_idx : nat
}.

Record GlobalState : Type := mkGlobalState {
  is_drawing_connection : bool;
  connection_start_obj : option nat;
  connection_start_pos : option pos
}.

(** *** Perceptron *)

(** [Perceptron._update_node_positions]: the input nodes are spread over the
    height of the body, the output node sits on the right edge, the two
    buttons in the top right corner. *)
Definition p_update_node_positions (p : Perceptron) : result Perceptron :=
  let r := rect (p_base p) in
  input_spacing <- int_truediv (rect_h r) (Z.of_nat (p_num_inputs p) + 1) ;;
  input_nodes_pos <-
    mapM (fun i : nat =>
            f <- float_mul_int input_spacing (Z.of_nat i + 1) ;;
            k <- int_of_float f ;;
            Ok (rect_left r - input_node_radius, rect_top r + k))
         (seq 0 (p_num_inputs p)) ;;
  let output_node_pos := (rect_right r + output_node_radius, rect_centery r) in
  let button_margin := 3 in
  let plus :=
    set_topright (p_plus_button_rect p)
      (rect_right r - button_margin, rect_top r + button_margin) in
  let minus :=
    set_topright (p_minus_button_rect p)
      (rect_left plus - button_margin, rect_top r + button_margin) in
  Ok (mkPerceptron (p_base p) (p_num_inputs p) (p_weights p) (p_bias p)
        (p_output_value p) (p_input_values p) (p_input_connections p)
        plus minus input_nodes_pos output_node_pos
        (map (fun q => node_rect q input_node_radius) input_nodes_pos)
        (node_rect output_node_pos output_node_radius)).

(** [Perceptron.__init__].  [rnd] is the sequence of numbers that
    [random.uniform(-1, 1)] returns, in the order of the calls. *)
Definition Perceptron_init (x y num_inputs : Z) (weights : option (list float))
    (bias : option float) (rnd : nat -> float) : result Perceptron :=
  let base := DraggableObject_init x y 60 80 in
  let n := Z.to_nat (Z.max 1 num_inputs) in
  ws <- match weights with
        | None => Ok (map rnd (seq 0 n))
        | Some ws =>
            if Nat.eqb (length ws) n then Ok ws else Raise ValueError
        end ;;
  let b := match bias with
           | None => rnd (match weights with None => n | Some _ => 0%nat end)
           | Some b => b
           end in
  p_update_node_positions
    (mkPerceptron base n ws b 0 (repeat 0 n) (repeat None n)
       (mkRect 0 0 button_size button_size)
       (mkRect 0 0 button_size button_size)
       [] (0, 0) [] (mkRect 0 0 0 0)).

(** [Perceptron.get_input_node_rect] *)
Definition p_get_input_node_rect (p : Perceptron) (index : nat) : option Rect :=
  p_input_node_rects p !! index.

(** *** Switch *)

Definition s_update_node_positions (s : Switch) : Switch :=
  let r := rect (s_base s) in
  let output_node_pos := (rect_right r + output_node_radius, rect_centery r) in
  let toggle_margin := 8 in
  mkSwitch (s_base s) (s_output_value s)
    (set_topleft (s_toggle_rect s) (rect_left r + toggle_margin, rect_top r + toggle_margin))
    output_node_pos
    (node_rect output_node_pos output_node_radius).

Definition Switch_init (x y : Z) : Switch :=
  let base := DraggableObject_init x y 40 40 in
  let r := rect base in
  let toggle_margin := 8 in
  s_update_node_positions
    (mkSwitch base 0
       (mkRect (rect_left r + toggle_margin) (rect_top r + toggle_margin)
          (rect_w r - 2 * toggle_margin) (rect_h r - 2 * toggle_margin))
       (0, 0) (mkRect 0 0 0 0)).

(** *** Light *)

Definition l_update_node_positions (l : Light) : Light :=
  let r := rect (l_base l) in
  let input_nodes_pos := [(rect_left r - input_node_radius, rect_centery r)] in
  mkLight (l_base l) (l_input_value l) (l_num_inputs l) (l_input_connections l)
    input_nodes_pos
    (map (fun q => node_rect q input_node_radius) input_nodes_pos).

Definition Light_init (x y : Z) : Light :=
  let radius := 20 in
  let base := DraggableObject_init (x - radius) (y - radius) (radius * 2) (radius * 2) in
  l_update_node_positions (mkLight base 0 1 (repeat None 1) [] []).

(** [Light.get_input_node_rect]: only index 0 is valid. *)
Definition l_get_input_node_rect (l : Light) (index : nat) : option Rect :=
  match index, l_input_node_rects l with
  | O, r :: _ => Some r
  | _, _ => None
  end.

(** ** The list of connections *)

(** [conn['target_obj'] == t and conn['target_input_idx'] == i] *)
Definition conn_targets (t i : nat) (c : Connection) : bool :=
  Nat.eqb (target_obj c) t && Nat.eqb (target_input_idx c) i.

(** The loop [for idx in range(len(l) - 1, -1, -1)] that pops the first
    element it finds with [f] and stops: the last such element of [l] goes.
    [None] when no element has [f]. *)
Fixpoint pop_last_match {A : Type} (f : A -> bool) (l : list A) : option (list A) :=
  match l with
  | [] => None
  | c :: l' =>
      match pop_last_match f l' with
      | Some l'' => Some (c :: l'')
      | None => if f c then Some l' else None
      end
  end.

Definition remove_connection (t i : nat) (conns : list Connection) : list Connection :=
  default conns (pop_last_match (conn_targets t i) conns).

(** The loop [for idx, conn in enumerate(connections)] that stops at the
    first entry for input [i] of [t]. *)
Fixpoint existing_conn_idx (t i : nat) (conns : list Connection) : option nat :=
  match conns with
  | [] => None
  | c :: conns' =>
      if conn_targets t i c then Some 0%nat
      else S <$> existing_conn_idx t i conns'
  end.

(** [connections[idx]['source_obj'] = s] *)
Definition set_source (s : nat) (c : Connection) : Connection :=
  mkConnection s (target_obj c) (target_input_idx c).

(** "Add/Update global list" *)
Definition update_connections (s t i : nat) (conns : list Connection) : list Connection :=
  match existing_conn_idx t i conns with
  | Some idx => alter (set_source s) idx conns
  | None => conns ++ [mkConnection s t i]
  end.

(** The index of the first rectangle of [rects] that contains [pt]:
    [for i, rect in enumerate(rects): if rect.collidepoint(pt): ...] *)
Fixpoint first_hit (rects : list Rect) (pt : pos) : option nat :=
  match rects with
  | [] => None
  | r :: rects' =>
      if collidepoint r pt then Some 0%nat else S <$> first_hit rects' pt
  end.

(** ** Event handlers

    A handler returns whether it handled the event, with the object, the
    connection-drawing state and the connections as it leaves them. *)

Definition Handled (A : Type) : Type :=
  result (bool * A * GlobalState * list Connection).

Definition p_set_base (p : Perceptron) (b : DraggableObject) : Perceptron :=
  mkPerceptron b (p_num_inputs p) (p_weights p) (p_bias p) (p_output_value p)
    (p_input_values p) (p_input_connections p) (p_plus_button_rect p)
    (p_minus_button_rect p) (p_input_nodes_pos p) (p_output_node_pos p)
    (p_input_node_rects p) (p_output_node_rect p).

Definition p_set_input_connections (p : Perceptron) (ics : list (option nat)) : Perceptron :=
  mkPerceptron (p_base p) (p_num_inputs p) (p_weights p) (p_bias p) (p_output_value p)
    (p_input_values p) ics (p_plus_button_rect p)
    (p_minus_button_rect p) (p_input_nodes_pos p) (p_output_node_pos p)
    (p_input_node_rects p) (p_output_node_rect p).

(** The four lists and the count of inputs, set together. *)
Definition p_set_inputs (p : Perceptron) (n : nat) (ws : list float)
    (ivs : list Z) (ics : list (option nat)) : Perceptron :=
  mkPerceptron (p_base p) n ws (p_bias p) (p_output_value p)
    ivs ics (p_plus_button_rect p)
    (p_minus_button_rect p) (p_input_nodes_pos p) (p_output_node_pos p)
    (p_input_node_rects p) (p_output_node_rect p).

(** The body of the '+' button branch below the limit; [u] is the number
    that [random.uniform(-1, 1)] returns. *)
Definition increment_inputs (u : float) (p : Perceptron) : result Perceptron :=
  p_update_node_positions
    (p_set_inputs p (p_num_inputs p + 1) (p_weights p ++ [u])
       (p_input_values p ++ [0]) (p_input_connections p ++ [None])).

(** The body of the '-' button branch above the limit. *)
Definition decrement_inputs (self : nat) (p : Perceptron) (conns : list Connection)
  : result (Perceptron * list Connection) :=
  let n := (p_num_inputs p - 1)%nat in
  wp <- pop (p_weights p) ;;
  cp <- pop (p_input_connections p) ;;
  vp <- pop (p_input_values p) ;;
  let removed_connection_source := snd cp in
  let conns' :=
    match removed_connection_source with
    | Some _ => remove_connection self n conns
    | None => conns
    end in
  p' <- p_update_node_positions (p_set_inputs p n (fst wp) (fst vp) (fst cp)) ;;
  Ok (p', conns').

Definition start_connection (self : nat) (p : pos) : GlobalState :=
  mkGlobalState true (Some self) (Some p).

Definition Perceptron_handle_event (self : nat) (u : float) (p : Perceptron)
    (ev : event) (gs : GlobalState) (conns : list Connection) : Handled Perceptron :=
  match ev with
  | MOUSEBUTTONDOWN button pt =>
      if (button =? 1) && collidepoint (p_plus_button_rect p) pt then
        if (p_num_inputs p <? max_inputs)%nat then
          p' <- increment_inputs u p ;; Ok (true, p', gs, conns)
        else Ok (true, p, gs, conns)
      else if (button =? 1) && collidepoint (p_minus_button_rect p) pt then
        if (min_inputs <? p_num_inputs p)%nat then
          r <- decrement_inputs self p conns ;; Ok (true, fst r, gs, snd r)
        else Ok (true, p, gs, conns)
      else if button =? 3 then
        match first_hit (p_input_node_rects p) pt with
        | Some i =>
            src <- getitem (p_input_connections p) i ;;
            match src with
            | Some _ =>
                Ok (true,
                    p_set_input_connections p (<[i := None]> (p_input_connections p)),
                    gs, remove_connection self i conns)
            | None => Ok (true, p, gs, conns)
            end
        | None => Ok (false, p, gs, conns)
        end
      else if button =? 1 then
        if collidepoint (p_output_node_rect p) pt then
          Ok (true, p, start_connection self (p_output_node_pos p), conns)
        else if negb (is_drawing_connection gs)
                && bool_decide (is_Some (first_hit (p_input_node_rects p) pt)) then
          Ok (true, p, gs, conns)
        else if collidepoint (rect (p_base p)) pt then
          Ok (true, p_set_base p (start_drag (p_base p) pt), gs, conns)
        else Ok (false, p, gs, conns)
      else Ok (false, p, gs, conns)
  | MOUSEBUTTONUP button _ =>
      if is_dragging (p_base p) && (button =? 1) then
        Ok (true, p_set_base p (stop_drag (p_base p)), gs, conns)
      else Ok (false, p, gs, conns)
  | MOUSEMOTION pt =>
      if is_dragging (p_base p) then
        p' <- p_update_node_positions (p_set_base p (drag_to (p_base p) pt)) ;;
        Ok (true, p', gs, conns)
      else Ok (false, p, gs, conns)
  | _ => Ok (false, p, gs, conns)
  end.

Definition s_set_base (s : Switch) (b : DraggableObject) : Switch :=
  mkSwitch b (s_output_value s) (s_toggle_rect s) (s_output_node_pos s)
    (s_output_node_rect s).

Definition s_toggle (s : Switch) : Switch :=
  mkSwitch (s_base s) (1 - s_output_value s) (s_toggle_rect s)
    (s_output_node_pos s) (s_output_node_rect s).

Definition Switch_handle_event (self : nat) (s : Switch)
    (ev : event) (gs : GlobalState) (conns : list Connection) : Handled Switch :=
  match ev with
  | MOUSEBUTTONDOWN button pt =>
      if collidepoint (s_output_node_rect s) pt then
        if button =? 1 then
          Ok (true, s, start_connection self (s_output_node_pos s), conns)
        else Ok (false, s, gs, conns)
      else if button =? 1 then
        if collidepoint (s_toggle_rect s) pt then
          if negb (is_drawing_connection gs) then Ok (true, s_toggle s, gs, conns)
          else Ok (false, s, gs, conns)
        else if collidepoint (rect (s_base s)) pt then
          Ok (true, s_set_base s (start_drag (s_base s) pt), gs, conns)
        else Ok (false, s, gs, conns)
      else if button =? 3 then
        if collidepoint (rect (s_base s)) pt then Ok (true, s, gs, conns)
        else Ok (false, s, gs, conns)
      else Ok (false, s, gs, conns)
  | MOUSEBUTTONUP button _ =>
      if (button =? 1) && is_dragging (s_base s) then
        Ok (true, s_set_base s (stop_drag (s_base s)), gs, conns)
      else Ok (false, s, gs, conns)
  | MOUSEMOTION pt =>
      if is_dragging (s_base s) then
        Ok (true, s_update_node_positions (s_set_base s (drag_to (s_base s) pt)),
            gs, conns)
      else Ok (false, s, gs, conns)
  | _ => Ok (false, s, gs, conns)
  end.

(** [DraggableObject.handle_event] on an object of a subclass [A];
    [update_node_positions] is the subclass's [_update_node_positions] when
    it has one. *)
Definition DraggableObject_handle_event {A : Type}
    (get : A -> DraggableObject) (set : A -> DraggableObject -> A)
    (update_node_positions : option (A -> A)) (self : A) (ev : event) : bool * A :=
  match ev with
  | MOUSEBUTTONDOWN _ pt =>
      if collidepoint (rect (get self)) pt then
        (true, set self (start_drag (get self) pt))
      else (false, self)
  | MOUSEBUTTONUP _ _ =>
      if is_dragging (get self) then (true, set self (stop_drag (get self)))
      else (false, self)
  | MOUSEMOTION pt =>
      if is_dragging (get self) then
        let self' := set self (drag_to (get self) pt) in
        (true, match update_node_positions with
               | Some f => f self'
               | None => self'
               end)
      else (false, self)
  | _ => (false, self)
  end.

Definition l_set_base (l : Light) (b : DraggableObject) : Light :=
  mkLight b (l_input_value l) (l_num_inputs l) (l_input_connections l)
    (l_input_nodes_pos l) (l_input_node_rects l).

Definition l_set_input_connections (l : Light) (ics : list (option nat)) : Light :=
  mkLight (l_base l) (l_input_value l) (l_num_inputs l) ics
    (l_input_nodes_pos l) (l_input_node_rects l).

Definition Light_handle_event (self : nat) (l : Light)
    (ev : event) (gs : GlobalState) (conns : list Connection) : Handled Light :=
  let dh := DraggableObject_handle_event l_base l_set_base
              (Some l_update_node_positions) l ev in
  if fst dh then Ok (true, snd dh, gs, conns)
  else
    let l := snd dh in
    match ev with
    | MOUSEBUTTONDOWN button pt =>
        match l_get_input_node_rect l 0 with
        | Some node =>
            if rect_bool node && collidepoint node pt then
              if button =? 3 then
                src <- getitem (l_input_connections l) 0 ;;
                match src with
                | Some _ =>
                    Ok (true,
                        l_set_input_connections l (<[0%nat := None]> (l_input_connections l)),
                        gs, remove_connection self 0 conns)
                | None => Ok (true, l, gs, conns)
                end
              else if button =? 1 then
                if negb (is_drawing_connection gs) then Ok (true, l, gs, conns)
                else Ok (false, l, gs, conns)
              else Ok (false, l, gs, conns)
            else Ok (false, l, gs, conns)
        | None => Ok (false, l, gs, conns)
        end
    | _ => Ok (false, l, gs, conns)
    end.

(** [obj.handle_event(event, global_connection_state, connections)] *)
Definition handle_event (self : nat) (u : float) (o : Obj)
    (ev : event) (gs : GlobalState) (conns : list Connection) : Handled Obj :=
  match o with
  | OSwitch s =>
      r <- Switch_handle_event self s ev gs conns ;;
      Ok (fst (fst (fst r)), OSwitch (snd (fst (fst r))), snd (fst r), snd r)
  | OPerceptron p =>
      r <- Perceptron_handle_event self u p ev gs conns ;;
      Ok (fst (fst (fst r)), OPerceptron (snd (fst (fst r))), snd (fst r), snd r)
  | OLight l =>
      r <- Light_handle_event self l ev gs conns ;;
      Ok (fst (fst (fst r)), OLight (snd (fst (fst r))), snd (fst r), snd r)
  end.

(** ** The main loop *)

Record World : Type := mkWorld {
  running : bool;
  all_objects : list Obj;
  connections : list Connection;
  global_connection_state : GlobalState
}.

(** [getattr(obj, 'num_inputs', 0)] *)
Definition obj_num_inputs (o : Obj) : nat :=
  match o with
  | OSwitch _ => 0%nat
  | OPerceptron p => p_num_inputs p
  | OLight l => l_num_inputs l
  end.

Definition get_input_node_rect (o : Obj) (i : nat) : option Rect :=
  match o with
  | OSwitch _ => None
  | OPerceptron p => p_get_input_node_rect p i
  | OLight l => l_get_input_node_rect l i
  end.

(** [input_rect and input_rect.collidepoint(event.pos)] for input [i]. *)
Definition input_hit (o : Obj) (pt : pos) (i : nat) : bool :=
  match get_input_node_rect o i with
  | Some r => rect_bool r && collidepoint r pt
  | None => false
  end.

(** The inner loop of the search for a target: the first input of [o]
    whose node contains [pt].  Only a Perceptron or a Light is searched. *)
Definition hit_input (o : Obj) (pt : pos) : option nat :=
  match o with
  | OSwitch _ => None
  | _ => find (input_hit o pt) (seq 0 (obj_num_inputs o))
  end.

(** The outer loop: the first object of the list with such an input. *)
Fixpoint find_target (objs : list Obj) (pt : pos) : option (nat * nat) :=
  match objs with
  | [] => None
  | o :: objs' =>
      match hit_input o pt with
      | Some i => Some (0%nat, i)
      | None => prod_map S id <$> find_target objs' pt
      end
  end.

Definition obj_input_connections (o : Obj) : list (option nat) :=
  match o with
  | OSwitch _ => []
  | OPerceptron p => p_input_connections p
  | OLight l => l_input_connections l
  end.

(** [target_obj.input_connections[i] = start_obj], when the target has the
    list and [i] is inside it. *)
Definition set_input_connection (o : Obj) (i s : nat) : Obj :=
  match o with
  | OSwitch _ => o
  | OPerceptron p =>
      if (i <? length (p_input_connections p))%nat then
        OPerceptron (p_set_input_connections p (<[i := Some s]> (p_input_connections p)))
      else o
  | OLight l =>
      if (i <? length (l_input_connections l))%nat then
        OLight (l_set_input_connections l (<[i := Some s]> (l_input_connections l)))
      else o
  end.

Definition reset_state : GlobalState := mkGlobalState false None None.

(** The branch of the loop for a MOUSEBUTTONUP while a connection is being
    drawn.  The message printed on success reads [start_obj.id]. *)
Definition finalize_connection (w : World) (pt : pos) : result World :=
  let start_obj := connection_start_obj (global_connection_state w) in
  match find_target (all_objects w) pt with
  | Some (t, i) =>
      match start_obj with
      | Some s =>
          Ok (mkWorld (running w)
                (alter (fun o => set_input_connection o i s) t (all_objects w))
                (update_connections s t i (connections w))
                reset_state)
      | None => Raise AttributeError
      end
  | None =>
      Ok (mkWorld (running w) (all_objects w) (connections w) reset_state)
  end.

(** [for obj in reversed(all_objects)]: the objects below position [k] are
    offered the event from the last one down, until one handles it.  The
    loop starts at the length of the list, so every position has its
    object. *)
Fixpoint dispatch (k : nat) (u : float) (ev : event) (w : World) : result World :=
  match k with
  | O => Ok w
  | S k' =>
      match all_objects w !! k' with
      | Some o =>
          r <- handle_event k' u o ev (global_connection_state w) (connections w) ;;
          let w' := mkWorld (running w) (<[k' := snd (fst (fst r))]> (all_objects w))
                      (snd r) (snd (fst r)) in
          if fst (fst (fst r)) then Ok w' else dispatch k' u ev w'
      | None => dispatch k' u ev w
      end
  end.

(** The body of [for event in events]. *)
Definition process_event (u : float) (ev : event) (w : World) : result World :=
  let w := match ev with
           | QUIT => mkWorld false (all_objects w) (connections w)
                       (global_connection_state w)
           | _ => w
           end in
  match ev with
  | MOUSEBUTTONUP _ pt =>
      if is_drawing_connection (global_connection_state w) then
        finalize_connection w pt
      else dispatch (length (all_objects w)) u ev w
  | _ => dispatch (length (all_objects w)) u ev w
  end.

(** ** Evaluation *)

(** [getattr(source_obj, 'output_value', 0)]; a Light has no such attribute.
    A position outside the list stands for no Python object and is read
    like one without the attribute. *)
Definition getattr_output_value (objs : list Obj) (s : nat) : Z :=
  match objs !! s with
  | Some (OSwitch sw) => s_output_value sw
  | Some (OPerceptron p) => p_output_value p
  | _ => 0
  end.

(** [source_obj.output_value if source_obj else 0] *)
Definition read_source (objs : list Obj) (src : option nat) : Z :=
  match src with
  | Some s => getattr_output_value objs s
  | None => 0
  end.

(** [Perceptron.calculate_output] *)
Definition calculate_output (objs : list Obj) (p : Perceptron) : result Perceptron :=
  current_inputs <-
    mapM (fun i : nat =>
            if (i <? length (p_input_connections p))%nat then
              src <- getitem (p_input_connections p) i ;;
              Ok (read_source objs src)
            else Ok 0)
         (seq 0 (p_num_inputs p)) ;;
  let ws :=
    if negb (Nat.eqb (length (p_weights p)) (length current_inputs)) then
      take (length current_inputs) (p_weights p)
        ++ repeat 0%float (length current_inputs - length (p_weights p))
    else p_weights p in
  products <- mapM (fun wi => float_mul_int (fst wi) (snd wi))
                (zip ws current_inputs) ;;
  let weighted_sum := (py_sum products + p_bias p)%float in
  Ok (mkPerceptron (p_base p) (p_num_inputs p) ws (p_bias p)
        (step_function weighted_sum) current_inputs (p_input_connections p)
        (p_plus_button_rect p) (p_minus_button_rect p) (p_input_nodes_pos p)
        (p_output_node_pos p) (p_input_node_rects p) (p_output_node_rect p)).

(** [Light.update_state] *)
Definition update_state (objs : list Obj) (l : Light) : result Light :=
  src <- getitem (l_input_connections l) 0 ;;
  Ok (mkLight (l_base l) (read_source objs src) (l_num_inputs l)
        (l_input_connections l) (l_input_nodes_pos l) (l_input_node_rects l)).

(** One turn of [for obj in all_objects: if isinstance(obj, Perceptron):
    obj.calculate_output()], for the object at position [i]. *)
Definition calculate_at (objs : list Obj) (i : nat) : result (list Obj) :=
  match objs !! i with
  | Some (OPerceptron p) =>
      p' <- calculate_output objs p ;; Ok (<[i := OPerceptron p']> objs)
  | _ => Ok objs
  end.

Definition update_at (objs : list Obj) (i : nat) : result (list Obj) :=
  match objs !! i with
  | Some (OLight l) =>
      l' <- update_state objs l ;; Ok (<[i := OLight l']> objs)
  | _ => Ok objs
  end.

(** A loop over the positions [is], each turn working on the list the
    turns before it left. *)
Fixpoint pass (f : list Obj -> nat -> result (list Obj)) (idxs : list nat)
    (objs : list Obj) : result (list Obj) :=
  match idxs with
  | [] => Ok objs
  | i :: idxs' => objs' <- f objs i ;; pass f idxs' objs'
  end.

Definition perceptron_pass (objs : list Obj) : result (list Obj) :=
  pass calculate_at (seq 0 (length objs)) objs.

Definition light_pass (objs : list Obj) : result (list Obj) :=
  pass update_at (seq 0 (length objs)) objs.

(** "Update State": the Perceptrons, then the Lights. *)
Definition tick (w : World) : result World :=
  objs1 <- perceptron_pass (all_objects w) ;;
  objs2 <- light_pass objs1 ;;
  Ok (mkWorld (running w) objs2 (connections w) (global_connection_state w)).

(** The events of one frame; each comes with the number [random.uniform]
    would return while it is handled. *)
Fixpoint process_events (evs : list (float * event)) (w : World) : result World :=
  match evs with
  | [] => Ok w
  | (u, ev) :: evs' => w' <- process_event u ev w ;; process_events evs' w'
  end.

(** One turn of [while running]. *)
Definition frame (evs : list (float * event)) (w : World) : result World :=
  w' <- process_events evs w ;; tick w'.

(** "Create Objects": two switches, a Perceptron with two inputs and one with
    one, two lights.  [rnd1] and [rnd2] are the random numbers drawn by the
    two Perceptron constructors. *)
Definition initial_world (rnd1 rnd2 : nat -> float) : result World :=
  perceptron1 <- Perceptron_init 200 100 2 None None rnd1 ;;
  perceptron2 <- Perceptron_init 400 200 1 None None rnd2 ;;
  Ok (mkWorld true
        [OSwitch (Switch_init 50 50); OSwitch (Switch_init 50 150);
         OPerceptron perceptron1; OPerceptron perceptron2;
         OLight (Light_init 600 100); OLight (Light_init 600 250)]
        [] reset_state).


(** ** Drawing the connections *)

(** [getattr(source, 'output_node_pos', None)]; a Light has no such
    attribute. *)
Definition getattr_output_node_pos (objs : list Obj) (s : nat) : option pos :=
  match objs !! s with
  | Some (OSwitch sw) => Some (s_output_node_pos sw)
  | Some (OPerceptron p) => Some (p_output_node_pos p)
  | _ => None
  end.

(** [getattr(target, 'input_nodes_pos', None)]; a Switch has no such
    attribute. *)
Definition getattr_input_nodes_pos (objs : list Obj) (t : nat) : option (list pos) :=
  match objs !! t with
  | Some (OPerceptron p) => Some (p_input_nodes_pos p)
  | Some (OLight l) => Some (l_input_nodes_pos l)
  | _ => None
  end.

(** The body of [for conn in connections]: the two ends of the line drawn
    for [c], or [None] when the loop draws nothing for it.  An index is
    never negative here, and a position, a pair, is always true. *)
Definition connection_line (objs : list Obj) (c : Connection) : option (pos * pos) :=
  let start_pos := getattr_output_node_pos objs (source_obj c) in
  let end_pos :=
    match getattr_input_nodes_pos objs (target_obj c) with
    | Some target_input_nodes =>
        if negb (Nat.eqb (length target_input_nodes) 0)
           && (target_input_idx c <? length target_input_nodes)%nat
        then target_input_nodes !! target_input_idx c
        else None
    | None => None
    end in
  match start_pos, end_pos with
  | Some a, Some b => Some (a, b)
  | _, _ => None
  end.

(** The blue lines of one frame, in the order they are drawn. *)
Definition connection_lines (w : World) : list (pos * pos) :=
  omap (connection_line (all_objects w)) (connections w).

(** The yellow line from the start of a connection being drawn to the
    pointer at [mouse_pos]. *)
Definition temporary_line (w : World) (mouse_pos : pos) : option (pos * pos) :=
  if is_drawing_connection (global_connection_state w) then
    match connection_start_pos (global_connection_state w) with
    | Some start_pos => Some (start_pos, mouse_pos)
    | None => None
    end
  else None.
(** * Specification

    The notions the properties below are stated with. *)

(** The distances of the input nodes from the top of the body. *)
Definition input_node_offsets (h : Z) (n : nat) : result (list Z) :=
  input_spacing <- int_truediv h (Z.of_nat n + 1) ;;
  mapM (fun i : nat =>
          f <- float_mul_int input_spacing (Z.of_nat i + 1) ;; int_of_float f)
       (seq 0 n).

(** The Perceptron [p] with its nodes and buttons placed, the input nodes
    at the distances [ks] from the top. *)
Definition p_geometry_of (p : Perceptron) (ks : list Z) : Perceptron :=
  let r := rect (p_base p) in
  let nodes := map (fun k => (rect_left r - input_node_radius, rect_top r + k)) ks in
  let output_node_pos := (rect_right r + output_node_radius, rect_centery r) in
  let plus := set_topright (p_plus_button_rect p) (rect_right r - 3, rect_top r + 3) in
  let minus := set_topright (p_minus_button_rect p) (rect_left plus - 3, rect_top r + 3) in
  mkPerceptron (p_base p) (p_num_inputs p) (p_weights p) (p_bias p)
    (p_output_value p) (p_input_values p) (p_input_connections p)
    plus minus nodes output_node_pos
    (map (fun q => node_rect q input_node_radius) nodes)
    (node_rect output_node_pos output_node_radius).

(** A Perceptron as the playground has them: between 1 and [max_inputs]
    inputs, every list as long as the count, the body 80 high as the
    constructor makes it, an output value of 0 or 1. *)
Record p_ok (p : Perceptron) : Prop := mk_p_ok {
  p_ok_min : (1 <= p_num_inputs p)%nat;
  p_ok_max : (p_num_inputs p <= 8)%nat;
  p_ok_weights : length (p_weights p) = p_num_inputs p;
  p_ok_values : length (p_input_values p) = p_num_inputs p;
  p_ok_connections : length (p_input_connections p) = p_num_inputs p;
  p_ok_rects : length (p_input_node_rects p) = p_num_inputs p;
  p_ok_height : rect_h (rect (p_base p)) = 80;
  p_ok_output : p_output_value p = 0 \/ p_output_value p = 1
}.

(** A Light has its one input, a Switch is off or on. *)
Record l_ok (l : Light) : Prop := mk_l_ok {
  l_ok_num : l_num_inputs l = 1%nat;
  l_ok_connections : length (l_input_connections l) = 1%nat;
  l_ok_rects : length (l_input_node_rects l) = 1%nat
}.

Definition s_ok (s : Switch) : Prop :=
  s_output_value s = 0 \/ s_output_value s = 1.

Definition obj_ok (o : Obj) : Prop :=
  match o with
  | OSwitch s => s_ok s
  | OPerceptron p => p_ok p
  | OLight l => l_ok l
  end.

(** The input port an entry of [connections] ends at. *)
Definition conn_key (c : Connection) : nat * nat :=
  (target_obj c, target_input_idx c).

(** The source held by input [i] of the object at position [t], if any. *)
Definition slot (objs : list Obj) (t i : nat) : option nat :=
  match objs !! t with
  | Some o =>
      match obj_input_connections o !! i with
      | Some src => src
      | None => None
      end
  | None => None
  end.

(** The connections and the input slots of the objects say the same, and no
    input port has two entries. *)
Record registry_ok (objs : list Obj) (conns : list Connection) : Prop := mk_registry_ok {
  registry_nodup : NoDup (conn_key <$> conns);
  registry_slots : forall c, c ∈ conns ->
      slot objs (target_obj c) (target_input_idx c) = Some (source_obj c);
  slots_registry : forall t i s, slot objs t i = Some s ->
      mkConnection s t i ∈ conns
}.

Record world_ok (w : World) : Prop := mk_world_ok {
  objects_ok : Forall obj_ok (all_objects w);
  connections_ok : registry_ok (all_objects w) (connections w);
  drawing_source :
    is_drawing_connection (global_connection_state w) = true ->
    is_Some (connection_start_obj (global_connection_state w))
}.

(** The states of the program: the scene it starts with, then events and
    evaluation passes in any order. *)
Inductive reachable (rnd1 rnd2 : nat -> float) : World -> Prop :=
| reach_init (w : World) :
    initial_world rnd1 rnd2 = Ok w -> reachable rnd1 rnd2 w
| reach_event (u : float) (ev : event) (w w' : World) :
    reachable rnd1 rnd2 w -> process_event u ev w = Ok w' -> reachable rnd1 rnd2 w'
| reach_tick (w w' : World) :
    reachable rnd1 rnd2 w -> tick w = Ok w' -> reachable rnd1 rnd2 w'.

(** What a handler may do to the input slots of its object and to the
    connections: nothing, clear an occupied slot and pop its entry, add an
    empty slot at the end, or drop the last slot and pop its entry. *)
Inductive slots_effect (self : nat) (ics : list (option nat)) (conns : list Connection)
  : list (option nat) -> list Connection -> Prop :=
| effect_none : slots_effect self ics conns ics conns
| effect_clear (i s : nat) :
    ics !! i = Some (Some s) ->
    slots_effect self ics conns (<[i := None]> ics) (remove_connection self i conns)
| effect_append : slots_effect self ics conns (ics ++ [None]) conns
| effect_drop (ics' : list (option nat)) (src : option nat) :
    ics = ics' ++ [src] ->
    slots_effect self ics conns ics'
      (match src with
       | Some _ => remove_connection self (length ics') conns
       | None => conns
       end).

(** What a handler leaves behind: an object of the playground, one of the
    effects above on slots and connections, and the connection-drawing state
    either untouched or started from the handler's own object. *)
Definition handler_post (self : nat) (o : Obj) (gs : GlobalState)
    (conns : list Connection) (r : bool * Obj * GlobalState * list Connection) : Prop :=
  obj_ok (snd (fst (fst r)))
  /\ slots_effect self (obj_input_connections o) conns
       (obj_input_connections (snd (fst (fst r)))) (snd r)
  /\ (snd (fst r) = gs \/ exists p, snd (fst r) = start_connection self p).

(** The value a Perceptron reads at input [i]: the output value of the
    source in the slot, 0 for an empty slot. *)
Definition input_value_at (objs : list Obj) (p : Perceptron) (i : nat) : Z :=
  match p_input_connections p !! i with
  | Some src => read_source objs src
  | None => 0
  end.

Definition gather_inputs (objs : list Obj) (p : Perceptron) : list Z :=
  map (input_value_at objs p) (seq 0 (p_num_inputs p)).

(** An int as a float, for the ints that have one. *)
Definition Z_to_float (z : Z) : float :=
  SF2Prim (binary_normalize prec emax z 0 false).

(** The weighted sum as the specification words it:
    [sum(weights[i] * input_values[i]) + bias], added from the left. *)
Definition spec_weighted_sum (ws : list float) (xs : list Z) (b : float) : float :=
  (fold_left (fun acc wx => acc + fst wx * Z_to_float (snd wx)) (zip ws xs) 0 + b)%float.

(** Every output value in the list is 0 or 1. *)
Definition outputs_are_bits (objs : list Obj) : Prop :=
  forall s, getattr_output_value objs s = 0 \/ getattr_output_value objs s = 1.

(** The weights after the repair of a mismatch. *)
Definition repaired_weights (ws : list float) (n : nat) : list float :=
  if negb (Nat.eqb (length ws) n) then take n ws ++ repeat 0%float (n - length ws)
  else ws.

(** The Perceptron after one evaluation, as the specification words it. *)
Definition evaluated (objs : list Obj) (p : Perceptron) : Perceptron :=
  let xs := gather_inputs objs p in
  let ws := repaired_weights (p_weights p) (p_num_inputs p) in
  mkPerceptron (p_base p) (p_num_inputs p) ws (p_bias p)
    (step_function (spec_weighted_sum ws xs (p_bias p))) xs (p_input_connections p)
    (p_plus_button_rect p) (p_minus_button_rect p) (p_input_nodes_pos p)
    (p_output_node_pos p) (p_input_node_rects p) (p_output_node_rect p).

(** A pass that works on one object at a time, leaves the slots alone and
    keeps the objects in shape. *)
Definition pass_inv (objs0 objs : list Obj) : Prop :=
  Forall obj_ok objs
  /\ length objs = length objs0
  /\ forall t, obj_input_connections <$> objs !! t = obj_input_connections <$> objs0 !! t.


(** A left click on the '+' button of [p]; a left click on its '-' button
    (and not on the '+' button, which is looked at first). *)
Definition on_plus (p : Perceptron) (ev : event) : Prop :=
  exists pt, ev = MOUSEBUTTONDOWN 1 pt /\ collidepoint (p_plus_button_rect p) pt = true.

Definition on_minus (p : Perceptron) (ev : event) : Prop :=
  exists pt, ev = MOUSEBUTTONDOWN 1 pt
             /\ collidepoint (p_plus_button_rect p) pt = false
             /\ collidepoint (p_minus_button_rect p) pt = true.

(** One increment or decrement of the inputs of the Perceptron at position
    [self], as its handler carries it out. *)
Inductive resize (self : nat)
  : Perceptron * list Connection -> Perceptron * list Connection -> Prop :=
| resize_click (p p' : Perceptron) (conns conns' : list Connection)
    (u : float) (ev : event) (gs gs' : GlobalState) (h : bool) :
    on_plus p ev \/ on_minus p ev ->
    Perceptron_handle_event self u p ev gs conns = Ok (h, p', gs', conns') ->
    resize self (p, conns) (p', conns').

(** The rectangles around the input nodes of an object. *)
Definition input_node_rects (o : Obj) : list Rect :=
  match o with
  | OSwitch _ => []
  | OPerceptron p => p_input_node_rects p
  | OLight l => l_input_node_rects l
  end.

(** [pt] is inside the node of no input of any object. *)
Definition no_input_port_at (objs : list Obj) (pt : pos) : Prop :=
  forall o r, o ∈ objs -> r ∈ input_node_rects o -> collidepoint r pt = false.

(** The dragging flag of an object, and how many objects have it set. *)
Definition dragging (o : Obj) : bool := is_dragging (obj_base o).

Definition dragging_count (objs : list Obj) : nat :=
  length (List.filter dragging objs).

Definition is_pointer_down (ev : event) : bool :=
  match ev with
  | MOUSEBUTTONDOWN _ _ => true
  | _ => false
  end.

(** The states reached when no pointer-down arrives while an object is
    being dragged. *)
Inductive reachable_one_at_a_time (rnd1 rnd2 : nat -> float) : World -> Prop :=
| one_init (w : World) :
    initial_world rnd1 rnd2 = Ok w -> reachable_one_at_a_time rnd1 rnd2 w
| one_event (u : float) (ev : event) (w w' : World) :
    reachable_one_at_a_time rnd1 rnd2 w ->
    (is_pointer_down ev = true -> dragging_count (all_objects w) = 0%nat) ->
    process_event u ev w = Ok w' ->
    reachable_one_at_a_time rnd1 rnd2 w'
| one_tick (w w' : World) :
    reachable_one_at_a_time rnd1 rnd2 w -> tick w = Ok w' ->
    reachable_one_at_a_time rnd1 rnd2 w'.

(** A chain Switch -> P -> Q of two Perceptrons with one input, weight 1 and
    bias -0.5, which repeat their input.  In [chain_P_first] the entity list
    is Switch, P, Q; in [chain_Q_first] it is Switch, Q, P.  The wires are
    drawn with the pointer, then one evaluation settles the outputs. *)
Definition repeater (x y : Z) : result Perceptron :=
  Perceptron_init x y 1 (Some [1%float]) (Some (-0.5)%float) (fun _ => 0%float).

Definition chain_P_first : result World :=
  P <- repeater 200 100 ;;
  Q <- repeater 400 200 ;;
  frame [(0%float, MOUSEBUTTONDOWN 1 (96, 70)); (0%float, MOUSEBUTTONUP 1 (195, 140));
         (0%float, MOUSEBUTTONDOWN 1 (266, 140)); (0%float, MOUSEBUTTONUP 1 (395, 240))]
    (mkWorld true [OSwitch (Switch_init 50 50); OPerceptron P; OPerceptron Q]
       [] reset_state).

Definition chain_Q_first : result World :=
  Q <- repeater 400 200 ;;
  P <- repeater 200 100 ;;
  frame [(0%float, MOUSEBUTTONDOWN 1 (96, 70)); (0%float, MOUSEBUTTONUP 1 (195, 140));
         (0%float, MOUSEBUTTONDOWN 1 (266, 140)); (0%float, MOUSEBUTTONUP 1 (395, 240))]
    (mkWorld true [OSwitch (Switch_init 50 50); OPerceptron Q; OPerceptron P]
       [] reset_state).

(** A click in the toggle area of the switch. *)
Definition flip_switch : event := MOUSEBUTTONDOWN 1 (60, 60).

(** The output values of the objects at the positions [idxs]. *)
Definition outputs_at (w : World) (idxs : list nat) : list Z :=
  map (getattr_output_value (all_objects w)) idxs.

(** The Light pass changes Lights only. *)
Definition lights_only (objs objs' : list Obj) : Prop :=
  forall t, objs' !! t = objs !! t
            \/ exists l l', objs !! t = Some (OLight l) /\ objs' !! t = Some (OLight l').


(** The nodes and buttons of an object are where its
    [_update_node_positions] puts them: calling it again changes nothing. *)
Definition fresh (o : Obj) : Prop :=
  match o with
  | OSwitch s => s_update_node_positions s = s
  | OPerceptron p => p_update_node_positions p = Ok p
  | OLight l => l_update_node_positions l = l
  end.

(** The sizes the constructors give: a switch is 40 by 40 with a toggle
    area of 24 by 24, a Perceptron 60 by 80 with buttons of 15 by 15, a
    light 40 by 40. *)
Definition has_size (r : Rect) (w h : Z) : Prop := rect_w r = w /\ rect_h r = h.

Definition sized (o : Obj) : Prop :=
  match o with
  | OSwitch s => has_size (rect (s_base s)) 40 40 /\ has_size (s_toggle_rect s) 24 24
  | OPerceptron p =>
      has_size (rect (p_base p)) 60 80
      /\ has_size (p_plus_button_rect p) 15 15
      /\ has_size (p_minus_button_rect p) 15 15
  | OLight l => has_size (rect (l_base l)) 40 40
  end.

(** [r1] lies inside [r2]; [r1] and [r2] have no point in common. *)
Definition rect_inside (r1 r2 : Rect) : Prop :=
  forall pt, collidepoint r1 pt = true -> collidepoint r2 pt = true.

Definition rect_disjoint (r1 r2 : Rect) : Prop :=
  forall pt, collidepoint r1 pt = true -> collidepoint r2 pt = false.

(** What [_update_node_positions] reads of a Perceptron. *)
Definition same_placing (p q : Perceptron) : Prop :=
  rect (p_base p) = rect (p_base q)
  /\ p_num_inputs p = p_num_inputs q
  /\ p_plus_button_rect p = p_plus_button_rect q
  /\ p_minus_button_rect p = p_minus_button_rect q
  /\ p_input_nodes_pos p = p_input_nodes_pos q
  /\ p_output_node_pos p = p_output_node_pos q
  /\ p_input_node_rects p = p_input_node_rects q
  /\ p_output_node_rect p = p_output_node_rect q.


(** An object with its nodes in place and its sizes. *)
Definition placed (o : Obj) : Prop := fresh o /\ sized o.

(** The object [o] with the body [b], everything else as it was. *)
Definition obj_set_base (o : Obj) (b : DraggableObject) : Obj :=
  match o with
  | OSwitch s => OSwitch (s_set_base s b)
  | OPerceptron p => OPerceptron (p_set_base p b)
  | OLight l => OLight (l_set_base l b)
  end.

(** The rectangle [r] shifted by [(dx, dy)]. *)
Definition moved (r : Rect) (dx dy : Z) : Rect :=
  mkRect (rect_x r + dx) (rect_y r + dy) (rect_w r) (rect_h r).

(** Two objects of one kind that hold the same values: what they hold
    besides the place of the body and of the nodes and buttons. *)
Definition same_data (o o' : Obj) : Prop :=
  match o, o' with
  | OSwitch s, OSwitch s' => s_output_value s = s_output_value s'
  | OPerceptron p, OPerceptron p' =>
      p_num_inputs p = p_num_inputs p'
      /\ p_weights p = p_weights p'
      /\ p_bias p = p_bias p'
      /\ p_output_value p = p_output_value p'
      /\ p_input_values p = p_input_values p'
      /\ p_input_connections p = p_input_connections p'
  | OLight l, OLight l' =>
      l_input_value l = l_input_value l'
      /\ l_num_inputs l = l_num_inputs l'
      /\ l_input_connections l = l_input_connections l'
  | _, _ => False
  end.

(** The pointer-downs that take hold of an object: the left button on the
    body of a switch off its toggle area, the left button on the body of a
    Perceptron off its two buttons, any button on the body of a light. *)
Definition grabs (o : Obj) (button : Z) (pt : pos) : bool :=
  match o with
  | OSwitch s =>
      (button =? 1) && collidepoint (rect (s_base s)) pt
      && negb (collidepoint (s_toggle_rect s) pt)
  | OPerceptron p =>
      (button =? 1) && collidepoint (rect (p_base p)) pt
      && negb (collidepoint (p_plus_button_rect p) pt)
      && negb (collidepoint (p_minus_button_rect p) pt)
  | OLight l => collidepoint (rect (l_base l)) pt
  end.

(** The three kinds of objects. *)
Inductive kind : Type := KSwitch | KPerceptron | KLight.

Definition obj_kind (o : Obj) : kind :=
  match o with
  | OSwitch _ => KSwitch
  | OPerceptron _ => KPerceptron
  | OLight _ => KLight
  end.

(** The object at position [s] has an output node: it is a switch or a
    Perceptron. *)
Definition is_source (objs : list Obj) (s : nat) : bool :=
  match (obj_kind <$> objs) !! s with
  | Some KSwitch | Some KPerceptron => true
  | _ => false
  end.

(** The scene keeps its six objects in their places, and every connection,
    also the one being drawn, starts at an object with an output node. *)
Record wired (w : World) : Prop := mk_wired {
  wired_kinds :
    obj_kind <$> all_objects w
    = [KSwitch; KSwitch; KPerceptron; KPerceptron; KLight; KLight];
  wired_sources :
    forall c, c ∈ connections w -> is_source (all_objects w) (source_obj c) = true;
  wired_start :
    forall s, connection_start_obj (global_connection_state w) = Some s ->
              is_source (all_objects w) s = true
}.

(** The object [o] with the input slots [ics], everything else as it was;
    a switch has no slots. *)
Definition obj_set_input_connections (o : Obj) (ics : list (option nat)) : Obj :=
  match o with
  | OSwitch _ => o
  | OPerceptron p => OPerceptron (p_set_input_connections p ics)
  | OLight l => OLight (l_set_input_connections l ics)
  end.

(** [o'] is [o] but for the values that the evaluation writes: the output
    value and the input values of a Perceptron, the input value of a light.
    A switch is as it was. *)
Definition values_only (o o' : Obj) : Prop :=
  match o, o' with
  | OSwitch s, OSwitch s' => s' = s
  | OPerceptron p, OPerceptron p' =>
      p' = mkPerceptron (p_base p) (p_num_inputs p) (p_weights p) (p_bias p)
             (p_output_value p') (p_input_values p') (p_input_connections p)
             (p_plus_button_rect p) (p_minus_button_rect p) (p_input_nodes_pos p)
             (p_output_node_pos p) (p_input_node_rects p) (p_output_node_rect p)
  | OLight l, OLight l' =>
      l' = mkLight (l_base l) (l_input_value l') (l_num_inputs l)
             (l_input_connections l) (l_input_nodes_pos l) (l_input_node_rects l)
  | _, _ => False
  end.

(** Every object of [objs] is still at its position in [objs'], changed in
    those values at most. *)
Definition frame_kept (objs objs' : list Obj) : Prop :=
  length objs' = length objs
  /\ forall t o, objs !! t = Some o -> exists o', objs' !! t = Some o' /\ values_only o o'.

(** The connection-drawing state is whole: nothing is being drawn and it
    holds nothing, or a connection is being drawn and it holds the start
    object and the start position. *)
Definition drawing_whole (gs : GlobalState) : Prop :=
  gs = reset_state \/ exists s q, gs = mkGlobalState true (Some s) (Some q).

(** ** Floats

    [fexp64] is the exponent that binary64 gives a number with so many
    digits above the binary point; a float is [tame] up to [b] when it is
    valid, zero or finite, and its exponent is at most [b]. *)
Definition fexp64 (e : Z) : Z := Z.max (e - 53) (-1074).

Definition tame (b : Z) (x : spec_float) : Prop :=
  valid_binary x = true
  /\ match x with
     | S754_zero _ => True
     | S754_finite _ _ e => e <= b
     | _ => False
     end.

(** ** The object on top

    The nodes of an object: the places outside its body where it takes a
    pointer-down (the toggle area of a switch and the buttons of a Perceptron
    lie inside the body). *)
Definition obj_node_rects (o : Obj) : list Rect :=
  match o with
  | OSwitch s => [s_output_node_rect s]
  | OPerceptron p => p_output_node_rect p :: p_input_node_rects p
  | OLight l => l_input_node_rects l
  end.

(** [pt] is on the body or on a node of [o]. *)
Definition touches (o : Obj) (pt : pos) : bool :=
  collidepoint (rect (obj_base o)) pt
  || existsb (fun r => collidepoint r pt) (obj_node_rects o).

(** No object after position [t] in the list is touched at [pt]: the loop
    offers an event to the objects from the last one down, so that the
    object at [t] is on top at [pt]. *)
Definition clear_above (objs : list Obj) (t : nat) (pt : pos) : Prop :=
  forall j o, (t < j)%nat -> objs !! j = Some o -> touches o pt = false.

(** No object after position [t] in the list is being dragged. *)
Definition none_dragged_above (objs : list Obj) (t : nat) : Prop :=
  forall j o, (t < j)%nat -> objs !! j = Some o -> dragging o = false.

(** The world [w] with the object [o] at position [t], the connections
    [conns] and the drawing state [gs]. *)
Definition world_with (w : World) (t : nat) (o : Obj) (conns : list Connection)
    (gs : GlobalState) : World :=
  mkWorld (running w) (<[t := o]> (all_objects w)) conns gs.

(** The world [w] with the object [o] at position [t] and nothing else
    changed. *)
Definition world_at (w : World) (t : nat) (o : Obj) : World :=
  world_with w t o (connections w) (global_connection_state w).

(** The Rects that an object holds: its body, then its buttons and the
    Rects of its nodes. *)
Definition obj_rects (o : Obj) : list Rect :=
  match o with
  | OSwitch s => [rect (s_base s); s_toggle_rect s; s_output_node_rect s]
  | OPerceptron p =>
      rect (p_base p) :: p_plus_button_rect p :: p_minus_button_rect p
      :: p_output_node_rect p :: p_input_node_rects p
  | OLight l => rect (l_base l) :: l_input_node_rects l
  end.
(** * Properties *)

(** ** The error monad *)

Lemma bind_Ok {A B : Type} (m : result A) (k : A -> result B) (b : B) :
  bind m k = Ok b <-> exists a, m = Ok a /\ k a = Ok b.
Proof.
  destruct m as [a|e]; simpl; split.
  - intros H. exists a. auto.
  - intros (a' & Ha & Hk). inversion Ha. subst. exact Hk.
  - discriminate.
  - intros (a' & Ha & _). discriminate.
Qed.

(** Split every successful [bind] among the hypotheses. *)
Ltac inv_ok :=
  repeat match goal with
    | H : bind _ _ = Ok _ |- _ =>
        let a := fresh "a" in
        let Ha := fresh "Ha" in
        apply bind_Ok in H; destruct H as (a & Ha & H)
    | H : Ok _ = Ok _ |- _ => inversion H; clear H; subst
    | H : Raise _ = Ok _ |- _ => discriminate H
    end.

Lemma mapM_post {A B C : Type} (g : A -> result B) (h : B -> C) (l : list A) :
  mapM (fun a => b <- g a ;; Ok (h b)) l = (bs <- mapM g l ;; Ok (map h bs)).
Proof.
  induction l as [|x l IH]; simpl; [reflexivity|].
  destruct (g x) as [b|e]; simpl; [|reflexivity].
  rewrite IH. destruct (mapM g l); reflexivity.
Qed.

(** ** Node positions of a Perceptron of the playground

    The body of a Perceptron is 80 high and it has at most [max_inputs]
    inputs; there the float arithmetic of [_update_node_positions] raises
    nothing. *)

Lemma input_node_offsets_80 (n : nat) :
  (1 <= n <= 8)%nat ->
  exists ks, input_node_offsets 80 n = Ok ks /\ length ks = n.
Proof.
  intros [H1 H8].
  do 9 (destruct n as [|n]; [first [lia | eexists; split; [vm_compute; reflexivity | reflexivity]]|]).
  lia.
Qed.

Lemma bind_assoc {A B C : Type} (m : result A) (f : A -> result B) (g : B -> result C) :
  bind (bind m f) g = bind m (fun a => bind (f a) g).
Proof. destruct m; reflexivity. Qed.

Lemma mapM_ext {A B : Type} (f g : A -> result B) (l : list A) :
  (forall a, f a = g a) -> mapM f l = mapM g l.
Proof.
  intros H. induction l as [|x l IH]; simpl; [reflexivity|].
  rewrite H, IH. reflexivity.
Qed.

Lemma p_update_node_positions_eq (p : Perceptron) :
  p_update_node_positions p =
  (ks <- input_node_offsets (rect_h (rect (p_base p))) (p_num_inputs p) ;;
   Ok (p_geometry_of p ks)).
Proof.
  unfold p_update_node_positions, input_node_offsets.
  destruct (int_truediv _ _) as [sp|e]; simpl; [|reflexivity].
  set (g := fun i : nat => f <- float_mul_int sp (Z.of_nat i + 1) ;; int_of_float f).
  set (h := fun k : Z =>
              (rect_left (rect (p_base p)) - input_node_radius,
               rect_top (rect (p_base p)) + k)).
  rewrite (mapM_ext _ (fun a => b <- g a ;; Ok (h b))).
  - rewrite mapM_post. destruct (mapM g _); reflexivity.
  - intros a. unfold g. rewrite bind_assoc. reflexivity.
Qed.

Lemma p_update_node_positions_ok (p : Perceptron) :
  (1 <= p_num_inputs p <= 8)%nat ->
  rect_h (rect (p_base p)) = 80 ->
  exists ks, p_update_node_positions p = Ok (p_geometry_of p ks)
             /\ length ks = p_num_inputs p.
Proof.
  intros Hn Hh. rewrite p_update_node_positions_eq, Hh.
  destruct (input_node_offsets_80 _ Hn) as (ks & -> & Hlen).
  exists ks. split; [reflexivity | exact Hlen].
Qed.

(** ** The list of connections *)

Lemma conn_targets_true (t i : nat) (c : Connection) :
  conn_targets t i c = true <-> conn_key c = (t, i).
Proof.
  unfold conn_targets, conn_key. rewrite andb_true_iff, !Nat.eqb_eq.
  split; [intros [-> ->]; reflexivity | intros H; inversion H; auto].
Qed.

Lemma conn_targets_false (t i : nat) (c : Connection) :
  conn_targets t i c = false <-> conn_key c <> (t, i).
Proof.
  rewrite <- conn_targets_true. destruct (conn_targets t i c); split; congruence.
Qed.

Lemma pop_last_match_Some {A : Type} (f : A -> bool) (l l' : list A) :
  pop_last_match f l = Some l' ->
  exists l1 c l2, l = l1 ++ c :: l2 /\ f c = true /\ l' = l1 ++ l2
                  /\ Forall (fun x => f x = false) l2.
Proof.
  revert l'. induction l as [|x l IH]; simpl; intros l' H; [discriminate|].
  destruct (pop_last_match f l) as [l''|] eqn:E.
  - inversion H; subst. destruct (IH l'' eq_refl) as (l1 & c & l2 & -> & Hc & -> & Hl2).
    exists (x :: l1), c, l2. auto.
  - destruct (f x) eqn:Hx; [|discriminate]. inversion H; subst.
    exists [], x, l'. repeat split; auto.
    clear -E. induction l' as [|y l' IH]; [constructor|].
    simpl in E. destruct (pop_last_match f l'); [discriminate|].
    destruct (f y) eqn:Hy; [discriminate|]. constructor; auto.
Qed.

Lemma pop_last_match_None {A : Type} (f : A -> bool) (l : list A) :
  pop_last_match f l = None <-> Forall (fun x => f x = false) l.
Proof.
  induction l as [|x l IH]; simpl.
  - split; [constructor | reflexivity].
  - destruct (pop_last_match f l) as [l'|].
    + split; [discriminate|]. intros H. inversion H; subst.
      destruct IH as [_ IH]. specialize (IH H3). discriminate.
    + destruct (f x) eqn:Hx.
      * split; [discriminate|]. intros H. inversion H; subst. congruence.
      * split; [|reflexivity]. intros _. constructor; [assumption|]. apply IH. reflexivity.
Qed.

(** The shape of [remove_connection]: either no entry ends at the port and
    nothing changes, or the last such entry is cut out. *)
Lemma remove_connection_cases (t i : nat) (conns : list Connection) :
  (Forall (fun c => conn_key c <> (t, i)) conns /\ remove_connection t i conns = conns)
  \/ exists l1 c l2, conns = l1 ++ c :: l2 /\ conn_key c = (t, i)
       /\ remove_connection t i conns = l1 ++ l2
       /\ Forall (fun c => conn_key c <> (t, i)) l2.
Proof.
  unfold remove_connection.
  destruct (pop_last_match (conn_targets t i) conns) as [l'|] eqn:E.
  - right. apply pop_last_match_Some in E as (l1 & c & l2 & -> & Hc & -> & Hl2).
    exists l1, c, l2. repeat split; auto.
    + apply conn_targets_true. assumption.
    + eapply Forall_impl; [exact Hl2|]. intros x. apply conn_targets_false.
  - left. split; [|reflexivity]. apply pop_last_match_None in E.
    eapply Forall_impl; [exact E|]. intros x. apply conn_targets_false.
Qed.

Lemma NoDup_keys_app_cons (l1 l2 : list Connection) (c : Connection) :
  NoDup (conn_key <$> (l1 ++ c :: l2)) ->
  NoDup (conn_key <$> (l1 ++ l2))
  /\ Forall (fun x => conn_key x <> conn_key c) (l1 ++ l2).
Proof.
  rewrite !fmap_app, fmap_cons. intros H.
  apply NoDup_app in H as (H1 & H12 & H2). apply NoDup_cons in H2 as [Hc H2].
  split.
  - apply NoDup_app. repeat split; auto.
    intros x Hx Hx2. apply (H12 x Hx). right. exact Hx2.
  - apply Forall_app. split; apply Forall_forall; intros x Hx Heq.
    + apply (H12 (conn_key c)); [|left].
      rewrite <- Heq. apply list_elem_of_fmap. eauto.
    + apply Hc. rewrite <- Heq. apply list_elem_of_fmap. eauto.
Qed.

Lemma remove_connection_NoDup (t i : nat) (conns : list Connection) :
  NoDup (conn_key <$> conns) -> NoDup (conn_key <$> remove_connection t i conns).
Proof.
  intros H. destruct (remove_connection_cases t i conns)
    as [[_ ->] | (l1 & c & l2 & -> & _ & -> & _)]; [assumption|].
  apply NoDup_keys_app_cons in H. tauto.
Qed.

Lemma remove_connection_elem (t i : nat) (conns : list Connection) (c : Connection) :
  NoDup (conn_key <$> conns) ->
  c ∈ remove_connection t i conns <-> c ∈ conns /\ conn_key c <> (t, i).
Proof.
  intros H. destruct (remove_connection_cases t i conns)
    as [[Hall ->] | (l1 & d & l2 & -> & Hd & -> & _)].
  - split; [|tauto]. intros Hc. split; [assumption|].
    rewrite Forall_forall in Hall. auto.
  - apply NoDup_keys_app_cons in H as [_ Hne]. rewrite Forall_forall in Hne.
    rewrite Hd in Hne. split.
    + intros Hc. split; [|auto].
      apply elem_of_app in Hc as [Hc|Hc]; apply elem_of_app;
        [left | right; right]; exact Hc.
    + intros [Hc Hk]. apply elem_of_app in Hc as [Hc|Hc]; apply elem_of_app;
        [left; exact Hc|].
      apply elem_of_cons in Hc as [->|Hc]; [congruence | right; exact Hc].
Qed.

Lemma existing_conn_idx_Some (t i : nat) (conns : list Connection) (idx : nat) :
  existing_conn_idx t i conns = Some idx ->
  exists l1 c l2, conns = l1 ++ c :: l2 /\ length l1 = idx /\ conn_key c = (t, i)
                  /\ Forall (fun x => conn_key x <> (t, i)) l1.
Proof.
  revert idx. induction conns as [|c conns IH]; simpl; intros idx H; [discriminate|].
  destruct (conn_targets t i c) eqn:Hc.
  - inversion H; subst. exists [], c, conns. repeat split; auto.
    apply conn_targets_true. exact Hc.
  - destruct (existing_conn_idx t i conns) as [k|]; [|discriminate].
    inversion H; subst. destruct (IH k eq_refl) as (l1 & d & l2 & -> & Hlen & Hd & Hl1).
    exists (c :: l1), d, l2. repeat split; simpl; auto.
    constructor; [|assumption]. apply conn_targets_false. exact Hc.
Qed.

Lemma existing_conn_idx_None (t i : nat) (conns : list Connection) :
  existing_conn_idx t i conns = None -> Forall (fun x => conn_key x <> (t, i)) conns.
Proof.
  induction conns as [|c conns IH]; simpl; intros H; [constructor|].
  destruct (conn_targets t i c) eqn:Hc; [discriminate|].
  destruct (existing_conn_idx t i conns); [discriminate|].
  constructor; [|auto]. apply conn_targets_false. exact Hc.
Qed.

(** The shape of [update_connections]: the entry of the port changes its
    source where it stands, or a new entry goes to the end. *)
Lemma update_connections_cases (s t i : nat) (conns : list Connection) :
  (Forall (fun x => conn_key x <> (t, i)) conns
   /\ update_connections s t i conns = conns ++ [mkConnection s t i])
  \/ exists l1 c l2, conns = l1 ++ c :: l2 /\ conn_key c = (t, i)
       /\ Forall (fun x => conn_key x <> (t, i)) l1
       /\ update_connections s t i conns = l1 ++ mkConnection s t i :: l2.
Proof.
  unfold update_connections. destruct (existing_conn_idx t i conns) as [idx|] eqn:E.
  - right. apply existing_conn_idx_Some in E as (l1 & c & l2 & -> & <- & Hc & Hl1).
    exists l1, c, l2. repeat split; auto.
    rewrite alter_app_r_alt by lia.
    rewrite Nat.sub_diag. simpl. unfold set_source.
    unfold conn_key in Hc. inversion Hc. reflexivity.
  - left. split; [|reflexivity]. apply existing_conn_idx_None. exact E.
Qed.

Lemma update_connections_NoDup (s t i : nat) (conns : list Connection) :
  NoDup (conn_key <$> conns) -> NoDup (conn_key <$> update_connections s t i conns).
Proof.
  intros H. destruct (update_connections_cases s t i conns)
    as [[Hall ->] | (l1 & c & l2 & -> & Hc & _ & ->)].
  - rewrite fmap_app. simpl. apply NoDup_app. repeat split; auto.
    + intros x Hx Hx'. apply list_elem_of_fmap in Hx as (c & -> & Hc).
      apply list_elem_of_singleton in Hx'. rewrite Forall_forall in Hall.
      apply (Hall c Hc). exact Hx'.
    + apply NoDup_singleton.
  - rewrite fmap_app, fmap_cons in *. unfold conn_key at 2. simpl.
    rewrite <- Hc. exact H.
Qed.

Lemma update_connections_elem (s t i : nat) (conns : list Connection) (c : Connection) :
  NoDup (conn_key <$> conns) ->
  c ∈ update_connections s t i conns <->
  c = mkConnection s t i \/ (c ∈ conns /\ conn_key c <> (t, i)).
Proof.
  intros H. destruct (update_connections_cases s t i conns)
    as [[Hall ->] | (l1 & d & l2 & -> & Hd & _ & ->)].
  - rewrite Forall_forall in Hall. rewrite elem_of_app, list_elem_of_singleton.
    split; [intros [Hc| ->]; auto | intros [->|[Hc _]]; auto].
  - apply NoDup_keys_app_cons in H as [_ Hne]. rewrite Forall_forall in Hne.
    rewrite Hd in Hne. split.
    + intros Hc. apply elem_of_app in Hc as [Hc|Hc].
      * right. split; [apply elem_of_app; left; exact Hc|].
        apply Hne. apply elem_of_app. left. exact Hc.
      * apply elem_of_cons in Hc as [->|Hc]; [left; reflexivity|].
        right. split; [apply elem_of_app; right; right; exact Hc|].
        apply Hne. apply elem_of_app. right. exact Hc.
    + intros [->|[Hc Hk]].
      * apply elem_of_app. right. left.
      * apply elem_of_app in Hc as [Hc|Hc]; apply elem_of_app; [left; exact Hc|].
        apply elem_of_cons in Hc as [->|Hc]; [congruence | right; right; exact Hc].
Qed.

(** ** Slots and connections *)

Lemma slot_insert (objs : list Obj) (self : nat) (o' : Obj) (t j : nat) :
  (self < length objs)%nat ->
  slot (<[self := o']> objs) t j =
  if decide (t = self) then
    match obj_input_connections o' !! j with Some src => src | None => None end
  else slot objs t j.
Proof.
  intros Hlt. unfold slot. destruct (decide (t = self)) as [->|Hne].
  - rewrite list_lookup_insert_eq by exact Hlt. reflexivity.
  - rewrite list_lookup_insert_ne by congruence. reflexivity.
Qed.

Lemma registry_ok_ext (objs objs' : list Obj) (conns : list Connection) :
  (forall t j, slot objs' t j = slot objs t j) ->
  registry_ok objs conns -> registry_ok objs' conns.
Proof.
  intros Hs [Hnd Hrs Hsr]. split; [assumption| |].
  - intros c Hc. rewrite Hs. auto.
  - intros t i s H. rewrite Hs in H. auto.
Qed.

(** Emptying a slot and popping the entry of its port go together. *)
Lemma registry_ok_clear (objs objs' : list Obj) (conns : list Connection) (t i : nat) :
  (forall t' j, slot objs' t' j =
                if decide ((t', j) = (t, i)) then None else slot objs t' j) ->
  registry_ok objs conns -> registry_ok objs' (remove_connection t i conns).
Proof.
  intros Hs [Hnd Hrs Hsr]. split.
  - apply remove_connection_NoDup. exact Hnd.
  - intros c Hc. apply remove_connection_elem in Hc as [Hc Hk]; [|exact Hnd].
    rewrite Hs. destruct (decide _) as [Heq|_]; [destruct (Hk Heq)|]. auto.
  - intros t' j s H. rewrite Hs in H. destruct (decide _) as [Heq|Hne]; [discriminate|].
    apply remove_connection_elem; [exact Hnd|]. split; [auto|]. exact Hne.
Qed.

(** Filling a slot and updating the entry of its port go together. *)
Lemma registry_ok_set (objs objs' : list Obj) (conns : list Connection) (s t i : nat) :
  (forall t' j, slot objs' t' j =
                if decide ((t', j) = (t, i)) then Some s else slot objs t' j) ->
  registry_ok objs conns -> registry_ok objs' (update_connections s t i conns).
Proof.
  intros Hs [Hnd Hrs Hsr]. split.
  - apply update_connections_NoDup. exact Hnd.
  - intros c Hc. apply update_connections_elem in Hc as [->|[Hc Hk]]; [| |exact Hnd].
    + simpl. rewrite Hs. rewrite decide_True by reflexivity. reflexivity.
    + rewrite Hs. destruct (decide _) as [Heq|_]; [destruct (Hk Heq)|]. auto.
  - intros t' j s' H. rewrite Hs in H. apply update_connections_elem; [exact Hnd|].
    destruct (decide _) as [Heq|Hne].
    + left. inversion Heq; subst. inversion H; subst. reflexivity.
    + right. split; [auto|]. exact Hne.
Qed.

(** A port whose slot is empty has no entry. *)
Lemma registry_ok_no_entry (objs : list Obj) (conns : list Connection) (t i : nat) :
  registry_ok objs conns -> slot objs t i = None ->
  remove_connection t i conns = conns.
Proof.
  intros [Hnd Hrs Hsr] Hnone. destruct (remove_connection_cases t i conns)
    as [[_ ->] | (l1 & c & l2 & -> & Hc & _ & _)]; [reflexivity|].
  assert (Hin : c ∈ l1 ++ c :: l2) by (apply elem_of_app; right; left).
  apply Hrs in Hin. unfold conn_key in Hc. inversion Hc; subst. congruence.
Qed.

Lemma slots_effect_registry (objs : list Obj) (conns conns' : list Connection)
    (self : nat) (o o' : Obj) :
  objs !! self = Some o ->
  slots_effect self (obj_input_connections o) conns (obj_input_connections o') conns' ->
  registry_ok objs conns -> registry_ok (<[self := o']> objs) conns'.
Proof.
  intros Ho Heff Hreg.
  assert (Hlt : (self < length objs)%nat) by (eapply lookup_lt_Some; eauto).
  assert (Hself : forall j, slot objs self j =
            match obj_input_connections o !! j with Some src => src | None => None end).
  { intros j. unfold slot. rewrite Ho. reflexivity. }
  remember (obj_input_connections o) as ics eqn:Eics.
  remember (obj_input_connections o') as ics' eqn:Eics'.
  destruct Heff as [ | i s Hi | | ics' src Hsplit].
  - eapply registry_ok_ext; [|exact Hreg]. intros t j.
    rewrite slot_insert by exact Hlt. destruct (decide (t = self)) as [->|]; [|reflexivity].
    rewrite Hself, <- Eics'. reflexivity.
  - eapply registry_ok_clear; [|exact Hreg]. intros t j.
    rewrite slot_insert by exact Hlt. rewrite <- Eics'.
    destruct (decide (t = self)) as [->|Hne].
    + destruct (decide (j = i)) as [->|Hji].
      * rewrite decide_True by reflexivity.
        rewrite list_lookup_insert_eq; [reflexivity|]. eapply lookup_lt_Some; eauto.
      * rewrite decide_False by congruence.
        rewrite list_lookup_insert_ne by congruence. rewrite Hself. reflexivity.
    + rewrite decide_False by congruence. reflexivity.
  - eapply registry_ok_ext; [|exact Hreg]. intros t j.
    rewrite slot_insert by exact Hlt. destruct (decide (t = self)) as [->|]; [|reflexivity].
    rewrite Hself, <- Eics'.
    destruct (decide (j < length ics)%nat) as [Hj|Hj].
    + rewrite lookup_app_l by exact Hj. reflexivity.
    + rewrite (lookup_ge_None_2 ics j) by lia.
      destruct (decide (j = length ics)) as [->|Hne].
      * rewrite list_lookup_middle by reflexivity. reflexivity.
      * rewrite lookup_ge_None_2; [reflexivity|]. rewrite length_app. simpl. lia.
  - subst ics'.
    assert (Hs : forall t j, slot (<[self := o']> objs) t j =
              if decide ((t, j) = (self, length (obj_input_connections o')))
              then None else slot objs t j).
    { intros t j. rewrite slot_insert by exact Hlt.
      destruct (decide (t = self)) as [->|Hne].
      - rewrite Hself, Hsplit.
        destruct (decide (j = length (obj_input_connections o'))) as [->|Hji].
        + rewrite decide_True by reflexivity.
          rewrite lookup_ge_None_2; [reflexivity|lia].
        + rewrite decide_False by congruence.
          destruct (decide (j < length (obj_input_connections o'))%nat) as [Hj|Hj].
          * rewrite lookup_app_l by exact Hj. reflexivity.
          * rewrite lookup_ge_None_2 by lia.
            rewrite lookup_ge_None_2; [reflexivity|]. rewrite length_app. simpl. lia.
      - rewrite decide_False by congruence. reflexivity. }
    destruct src as [s|].
    + eapply registry_ok_clear; [exact Hs | exact Hreg].
    + rewrite <- (registry_ok_no_entry objs conns self (length (obj_input_connections o')) Hreg).
      * eapply registry_ok_clear; [exact Hs | exact Hreg].
      * rewrite Hself, Hsplit. rewrite list_lookup_middle by reflexivity. reflexivity.
Qed.

(** ** The handlers keep the objects and the connections in shape *)

Lemma pop_Ok {A : Type} (l : list A) :
  (1 <= length l)%nat -> exists l' a, pop l = Ok (l', a) /\ l = l' ++ [a].
Proof.
  intros H. destruct l as [|x l] using rev_ind; [simpl in H; lia|].
  exists l, x. split; [|reflexivity]. unfold pop.
  rewrite last_snoc, removelast_last. reflexivity.
Qed.

Lemma p_ok_geometry (p : Perceptron) (ks : list Z) :
  length ks = p_num_inputs p ->
  (1 <= p_num_inputs p <= 8)%nat ->
  length (p_weights p) = p_num_inputs p ->
  length (p_input_values p) = p_num_inputs p ->
  length (p_input_connections p) = p_num_inputs p ->
  rect_h (rect (p_base p)) = 80 ->
  p_output_value p = 0 \/ p_output_value p = 1 ->
  p_ok (p_geometry_of p ks).
Proof.
  intros Hks [H1 H8] Hw Hv Hc Hh Ho. split; simpl; auto.
  rewrite !length_map. exact Hks.
Qed.

Lemma increment_inputs_ok (u : float) (p : Perceptron) :
  p_ok p -> (p_num_inputs p < 8)%nat ->
  exists p', increment_inputs u p = Ok p' /\ p_ok p'
    /\ p_num_inputs p' = S (p_num_inputs p)
    /\ p_weights p' = p_weights p ++ [u]
    /\ p_input_connections p' = p_input_connections p ++ [None].
Proof.
  intros [H1 H8 Hw Hv Hc Hr Hh Ho] Hlt. unfold increment_inputs.
  set (q := p_set_inputs _ _ _ _ _).
  destruct (p_update_node_positions_ok q) as (ks & -> & Hks).
  { simpl. lia. } { exact Hh. }
  exists (p_geometry_of q ks). split; [reflexivity|]. split.
  - apply p_ok_geometry; simpl; rewrite ?length_app; simpl; auto; lia.
  - simpl. repeat split. lia.
Qed.

Lemma decrement_inputs_ok (self : nat) (p : Perceptron) (conns : list Connection) :
  p_ok p -> (1 < p_num_inputs p)%nat ->
  exists p' ws w ics src,
    decrement_inputs self p conns
      = Ok (p', match src with
                | Some _ => remove_connection self (p_num_inputs p - 1) conns
                | None => conns
                end)
    /\ p_ok p'
    /\ p_num_inputs p' = (p_num_inputs p - 1)%nat
    /\ p_weights p = ws ++ [w] /\ p_weights p' = ws
    /\ p_input_connections p = ics ++ [src] /\ p_input_connections p' = ics.
Proof.
  intros [H1 H8 Hw Hv Hc Hr Hh Ho] Hlt. unfold decrement_inputs.
  destruct (pop_Ok (p_weights p)) as (ws & w & -> & Ews); [lia|].
  destruct (pop_Ok (p_input_connections p)) as (ics & src & -> & Eics); [lia|].
  destruct (pop_Ok (p_input_values p)) as (ivs & v & -> & Eivs); [lia|].
  simpl. set (q := p_set_inputs _ _ _ _ _).
  assert (Hlw : length ws = (p_num_inputs p - 1)%nat).
  { rewrite Ews, length_app in Hw. simpl in Hw. lia. }
  assert (Hli : length ics = (p_num_inputs p - 1)%nat).
  { rewrite Eics, length_app in Hc. simpl in Hc. lia. }
  assert (Hlv : length ivs = (p_num_inputs p - 1)%nat).
  { rewrite Eivs, length_app in Hv. simpl in Hv. lia. }
  destruct (p_update_node_positions_ok q) as (ks & -> & Hks).
  { simpl. lia. } { exact Hh. }
  simpl. exists (p_geometry_of q ks), ws, w, ics, src.
  split; [reflexivity|]. split.
  - apply p_ok_geometry; simpl; auto; lia.
  - simpl. auto.
Qed.

Lemma first_hit_Some (rects : list Rect) (pt : pos) (i : nat) :
  first_hit rects pt = Some i ->
  exists r, rects !! i = Some r /\ collidepoint r pt = true.
Proof.
  revert i. induction rects as [|r rects IH]; simpl; intros i H; [discriminate|].
  destruct (collidepoint r pt) eqn:Hr.
  - inversion H; subst. eauto.
  - destruct (first_hit rects pt) as [k|]; [|discriminate]. inversion H; subst.
    simpl. eauto.
Qed.

Lemma getitem_Ok {A : Type} (l : list A) (i : nat) :
  (i < length l)%nat -> exists a, getitem l i = Ok a /\ l !! i = Some a.
Proof.
  intros H. unfold getitem. destruct (lookup_lt_is_Some_2 l i H) as [a Ha].
  rewrite Ha. eauto.
Qed.

Lemma p_ok_set_base (p : Perceptron) (b : DraggableObject) :
  p_ok p -> rect_h (rect b) = 80 -> p_ok (p_set_base p b).
Proof. intros [] Hb. split; simpl; auto. Qed.

Lemma Perceptron_handle_event_ok (self : nat) (u : float) (p : Perceptron)
    (ev : event) (gs : GlobalState) (conns : list Connection) :
  p_ok p ->
  exists h p' gs' conns',
    Perceptron_handle_event self u p ev gs conns = Ok (h, p', gs', conns')
    /\ p_ok p'
    /\ slots_effect self (p_input_connections p) conns (p_input_connections p') conns'
    /\ (gs' = gs \/ exists q, gs' = start_connection self q).
Proof.
  intros Hok.
  assert (Hnone : forall h : bool, exists h' p' gs' conns',
             Ok (h, p, gs, conns) = Ok (h', p', gs', conns') /\ p_ok p'
             /\ slots_effect self (p_input_connections p) conns (p_input_connections p') conns'
             /\ (gs' = gs \/ exists q, gs' = start_connection self q)).
  { intros h. exists h, p, gs, conns. repeat split; try apply Hok; auto. constructor. }
  destruct ev as [|button pt|button pt|pt|]; simpl; auto.
  - (* MOUSEBUTTONDOWN *)
    destruct ((button =? 1) && collidepoint (p_plus_button_rect p) pt) eqn:Eplus.
    { destruct (Nat.ltb_spec (p_num_inputs p) max_inputs) as [Hlt|Hge]; [|auto].
      destruct (increment_inputs_ok u p Hok Hlt) as (p' & -> & Hok' & _ & _ & Hics).
      simpl. exists true, p', gs, conns. repeat split; try apply Hok'; auto.
      rewrite Hics. constructor. }
    destruct ((button =? 1) && collidepoint (p_minus_button_rect p) pt) eqn:Eminus.
    { destruct (Nat.ltb_spec min_inputs (p_num_inputs p)) as [Hlt|Hge]; [|auto].
      destruct (decrement_inputs_ok self p conns Hok Hlt)
        as (p' & ws & w & ics & src & -> & Hok' & Hn & _ & _ & Hics & Hics').
      simpl. eexists true, p', gs, _. split; [reflexivity|].
      repeat split; try apply Hok'; auto.
      rewrite Hics'.
      replace (p_num_inputs p - 1)%nat with (length ics).
      - apply effect_drop. exact Hics.
      - rewrite <- Hics'. rewrite (p_ok_connections _ Hok'). exact Hn. }
    destruct (button =? 3) eqn:E3.
    { destruct (first_hit (p_input_node_rects p) pt) as [i|] eqn:Ehit; [|auto].
      apply first_hit_Some in Ehit as (r & Hr & _).
      apply lookup_lt_Some in Hr.
      rewrite (p_ok_rects _ Hok), <- (p_ok_connections _ Hok) in Hr.
      destruct (getitem_Ok _ _ Hr) as (src & -> & Hsrc). simpl.
      destruct src as [s|]; [|auto].
      eexists true, _, gs, _. split; [reflexivity|].
      split; [|split; [|auto]].
      - destruct Hok. split; simpl; auto. rewrite length_insert. assumption.
      - simpl. apply effect_clear with (s := s). exact Hsrc. }
    destruct (button =? 1) eqn:E1; [|auto].
    destruct (collidepoint (p_output_node_rect p) pt).
    { eexists true, p, _, conns. split; [reflexivity|].
      repeat split; try apply Hok; eauto. constructor. }
    destruct (negb (is_drawing_connection gs) && _); [auto|].
    destruct (collidepoint (rect (p_base p)) pt); [|auto].
    eexists true, _, gs, conns. split; [reflexivity|].
    split; [|split; [constructor|auto]].
    apply p_ok_set_base; [exact Hok|]. simpl. apply Hok.
  - (* MOUSEBUTTONUP *)
    destruct (is_dragging (p_base p) && (button =? 1)); [|auto].
    eexists true, _, gs, conns. split; [reflexivity|].
    split; [|split; [constructor|auto]].
    apply p_ok_set_base; [exact Hok|]. simpl. apply Hok.
  - (* MOUSEMOTION *)
    destruct (is_dragging (p_base p)); [|auto].
    set (q := p_set_base p (drag_to (p_base p) pt)).
    assert (Hq : p_ok q) by (apply p_ok_set_base; [exact Hok|]; simpl; apply Hok).
    destruct (p_update_node_positions_ok q) as (ks & -> & Hks).
    { destruct Hq. lia. } { apply Hq. }
    simpl. eexists true, _, gs, conns. split; [reflexivity|].
    split; [|split; [constructor|auto]].
    destruct Hq. apply p_ok_geometry; auto.
Qed.

Lemma Switch_handle_event_ok (self : nat) (s : Switch)
    (ev : event) (gs : GlobalState) (conns : list Connection) :
  s_ok s ->
  exists h s' gs',
    Switch_handle_event self s ev gs conns = Ok (h, s', gs', conns)
    /\ s_ok s'
    /\ (gs' = gs \/ exists q, gs' = start_connection self q).
Proof.
  intros Hok. unfold s_ok in *.
  destruct ev as [|button pt|button pt|pt|]; simpl;
    repeat match goal with
      | |- context [if ?b then _ else _] => destruct b
      end;
    eexists _, _, _; (split; [reflexivity|]); simpl; split; eauto; lia.
Qed.

Lemma DraggableObject_handle_event_Light (l : Light) (ev : event) :
  l_ok l ->
  l_ok (snd (DraggableObject_handle_event l_base l_set_base
               (Some l_update_node_positions) l ev))
  /\ l_input_connections
       (snd (DraggableObject_handle_event l_base l_set_base
               (Some l_update_node_positions) l ev)) = l_input_connections l
  /\ (fst (DraggableObject_handle_event l_base l_set_base
             (Some l_update_node_positions) l ev) = false ->
      snd (DraggableObject_handle_event l_base l_set_base
             (Some l_update_node_positions) l ev) = l).
Proof.
  intros [Hn Hc Hr].
  destruct ev as [|button pt|button pt|pt|]; simpl;
    repeat match goal with
      | |- context [if ?b then _ else _] => destruct b
      end; simpl; repeat split; auto; discriminate.
Qed.

Lemma Light_handle_event_ok (self : nat) (l : Light)
    (ev : event) (gs : GlobalState) (conns : list Connection) :
  l_ok l ->
  exists h l' conns',
    Light_handle_event self l ev gs conns = Ok (h, l', gs, conns')
    /\ l_ok l'
    /\ slots_effect self (l_input_connections l) conns (l_input_connections l') conns'.
Proof.
  intros Hok. unfold Light_handle_event.
  destruct (DraggableObject_handle_event_Light l ev Hok) as (Hok' & Hics & Hsame).
  destruct (DraggableObject_handle_event _ _ _ l ev) as [dh l1]. simpl in *.
  destruct dh.
  { eexists true, l1, conns. split; [reflexivity|]. split; [exact Hok'|].
    rewrite Hics. constructor. }
  rewrite (Hsame eq_refl) in *. clear Hsame Hics Hok' l1.
  assert (Hnone : forall h : bool, exists h' l' conns',
             Ok (h, l, gs, conns) = Ok (h', l', gs, conns') /\ l_ok l'
             /\ slots_effect self (l_input_connections l) conns (l_input_connections l') conns').
  { intros h. exists h, l, conns. repeat split; try apply Hok. constructor. }
  destruct ev as [|button pt|button pt|pt|]; auto.
  unfold l_get_input_node_rect.
  destruct (l_input_node_rects l) as [|node rects]; [auto|].
  destruct (rect_bool node && collidepoint node pt); [|auto].
  destruct (button =? 3).
  - destruct (getitem_Ok (l_input_connections l) 0) as (src & -> & Hsrc).
    { rewrite (l_ok_connections _ Hok). lia. }
    simpl. destruct src as [s|]; [|auto].
    eexists true, _, _. split; [reflexivity|]. split.
    + destruct Hok. split; simpl; auto. rewrite length_insert. assumption.
    + simpl. apply effect_clear with (s := s). exact Hsrc.
  - destruct (button =? 1); [|auto]. destruct (negb _); auto.
Qed.

Lemma handle_event_ok (self : nat) (u : float) (o : Obj)
    (ev : event) (gs : GlobalState) (conns : list Connection) :
  obj_ok o ->
  exists r, handle_event self u o ev gs conns = Ok r /\ handler_post self o gs conns r.
Proof.
  intros Hok. destruct o as [s|p|l]; simpl in *.
  - destruct (Switch_handle_event_ok self s ev gs conns Hok) as (h & s' & gs' & -> & Hs' & Hgs).
    simpl. eexists. split; [reflexivity|].
    split; [exact Hs'|]. split; [constructor | exact Hgs].
  - destruct (Perceptron_handle_event_ok self u p ev gs conns Hok)
      as (h & p' & gs' & conns' & -> & Hp' & Heff & Hgs).
    simpl. eexists. split; [reflexivity|].
    split; [exact Hp'|]. split; [exact Heff | exact Hgs].
  - destruct (Light_handle_event_ok self l ev gs conns Hok) as (h & l' & conns' & -> & Hl' & Heff).
    simpl. eexists. split; [reflexivity|].
    split; [exact Hl'|]. split; [exact Heff | left; reflexivity].
Qed.

(** ** Dispatch and finalisation keep the world in shape *)

Lemma dispatch_ok (k : nat) (u : float) (ev : event) (w : World) :
  world_ok w -> exists w', dispatch k u ev w = Ok w' /\ world_ok w'.
Proof.
  revert w. induction k as [|k IH]; intros w Hw; simpl; [eauto|].
  destruct (all_objects w !! k) as [o|] eqn:Ho; [|auto].
  destruct Hw as [Hobjs Hreg Hdraw].
  assert (Hoko : obj_ok o).
  { rewrite Forall_forall in Hobjs. apply Hobjs. eapply list_elem_of_lookup_2. exact Ho. }
  destruct (handle_event_ok k u o ev (global_connection_state w) (connections w) Hoko)
    as (r & -> & Hok' & Heff & Hgs).
  simpl. set (w' := mkWorld _ _ _ _).
  assert (Hw' : world_ok w').
  { split; simpl.
    - apply Forall_insert; assumption.
    - eapply slots_effect_registry; eauto.
    - destruct Hgs as [-> | [q ->]]; [exact Hdraw|]. simpl. eauto. }
  destruct (fst (fst (fst r))); eauto.
Qed.

Lemma hit_input_Some (o : Obj) (pt : pos) (i : nat) :
  hit_input o pt = Some i ->
  (i < obj_num_inputs o)%nat /\ input_hit o pt i = true.
Proof.
  intros H.
  assert (Hf : find (input_hit o pt) (seq 0 (obj_num_inputs o)) = Some i).
  { destruct o; [discriminate | exact H | exact H]. }
  apply find_some in Hf as [Hin Hhit]. apply in_seq in Hin. split; [lia | exact Hhit].
Qed.

Lemma find_target_Some (objs : list Obj) (pt : pos) (t i : nat) :
  find_target objs pt = Some (t, i) ->
  exists o, objs !! t = Some o /\ hit_input o pt = Some i.
Proof.
  revert t. induction objs as [|o objs IH]; simpl; intros t H; [discriminate|].
  destruct (hit_input o pt) as [j|] eqn:Ej.
  - inversion H; subst. eauto.
  - destruct (find_target objs pt) as [[t' i']|]; [|discriminate].
    inversion H; subst. simpl. apply IH. reflexivity.
Qed.

(** In a world in shape, a node found by the search belongs to a slot. *)
Lemma hit_input_slot (o : Obj) (pt : pos) (i : nat) :
  obj_ok o -> hit_input o pt = Some i ->
  (i < length (obj_input_connections o))%nat.
Proof.
  intros Hok H. apply hit_input_Some in H as [Hi Hhit].
  destruct o as [s|p|l]; simpl in *; [lia| |].
  - rewrite (p_ok_connections _ Hok). exact Hi.
  - rewrite (l_ok_connections _ Hok), <- (l_ok_num _ Hok). exact Hi.
Qed.

Lemma set_input_connection_ok (o : Obj) (i s : nat) :
  obj_ok o -> obj_ok (set_input_connection o i s).
Proof.
  intros Hok. destruct o as [sw|p|l]; simpl in *; [exact Hok| |].
  - destruct (i <? _)%nat; [|exact Hok]. destruct Hok. split; simpl; auto.
    rewrite length_insert. assumption.
  - destruct (i <? _)%nat; [|exact Hok]. destruct Hok. split; simpl; auto.
    rewrite length_insert. assumption.
Qed.

Lemma set_input_connection_slots (o : Obj) (i s : nat) :
  (i < length (obj_input_connections o))%nat ->
  obj_input_connections (set_input_connection o i s)
  = <[i := Some s]> (obj_input_connections o).
Proof.
  intros Hi. destruct o as [sw|p|l]; simpl in *; [lia| |].
  - destruct (Nat.ltb_spec i (length (p_input_connections p))); [reflexivity | lia].
  - destruct (Nat.ltb_spec i (length (l_input_connections l))); [reflexivity | lia].
Qed.

Lemma slot_connect (objs : list Obj) (o : Obj) (t i s t' j : nat) :
  objs !! t = Some o ->
  (i < length (obj_input_connections o))%nat ->
  slot (alter (fun o => set_input_connection o i s) t objs) t' j
  = if decide ((t', j) = (t, i)) then Some s else slot objs t' j.
Proof.
  intros Ho Hi. unfold slot. destruct (decide (t' = t)) as [->|Hne].
  - rewrite list_lookup_alter_eq, Ho. simpl.
    rewrite set_input_connection_slots by exact Hi.
    destruct (decide (j = i)) as [->|Hji].
    + rewrite decide_True by reflexivity.
      rewrite list_lookup_insert_eq by exact Hi. reflexivity.
    + rewrite decide_False by congruence.
      rewrite list_lookup_insert_ne by congruence. reflexivity.
  - rewrite list_lookup_alter_ne by congruence.
    rewrite decide_False by congruence. reflexivity.
Qed.

Lemma finalize_connection_ok (w : World) (pt : pos) :
  world_ok w -> is_drawing_connection (global_connection_state w) = true ->
  exists w', finalize_connection w pt = Ok w' /\ world_ok w'.
Proof.
  intros [Hobjs Hreg Hdraw] Hd. unfold finalize_connection.
  destruct (find_target (all_objects w) pt) as [[t i]|] eqn:Et.
  - destruct (Hdraw Hd) as [s ->].
    apply find_target_Some in Et as (o & Ho & Hhit).
    assert (Hoko : obj_ok o).
    { rewrite Forall_forall in Hobjs. apply Hobjs. eapply list_elem_of_lookup_2. exact Ho. }
    eexists. split; [reflexivity|]. split; simpl.
    + apply Forall_alter; [exact Hobjs|]. intros x _ Hx.
      apply set_input_connection_ok. exact Hx.
    + eapply registry_ok_set; [|exact Hreg]. intros t' j.
      eapply slot_connect; [exact Ho|]. eapply hit_input_slot; eauto.
    + discriminate.
  - eexists. split; [reflexivity|]. split; simpl; auto. discriminate.
Qed.

Lemma process_event_ok (u : float) (ev : event) (w : World) :
  world_ok w -> exists w', process_event u ev w = Ok w' /\ world_ok w'.
Proof.
  intros Hw. unfold process_event.
  destruct ev as [|button pt|button pt|pt|]; try (apply dispatch_ok; exact Hw).
  - apply dispatch_ok. destruct Hw. split; assumption.
  - destruct (is_drawing_connection (global_connection_state w)) eqn:Hd.
    + apply finalize_connection_ok; assumption.
    + apply dispatch_ok. exact Hw.
Qed.

(** ** Evaluation *)

Lemma float_of_int_bit (z : Z) :
  z = 0 \/ z = 1 -> float_of_int z = Ok (Z_to_float z).
Proof. intros [-> | ->]; vm_compute; reflexivity. Qed.

Lemma mapM_pure {A B : Type} (f : A -> result B) (g : A -> B) (l : list A) :
  (forall a, In a l -> f a = Ok (g a)) -> mapM f l = Ok (map g l).
Proof.
  induction l as [|x l IH]; simpl; intros H; [reflexivity|].
  rewrite H by auto. simpl. rewrite IH by auto. reflexivity.
Qed.

Lemma obj_ok_outputs (objs : list Obj) :
  Forall obj_ok objs -> outputs_are_bits objs.
Proof.
  intros H s. unfold getattr_output_value.
  destruct (objs !! s) as [o|] eqn:Ho; [|auto].
  rewrite Forall_forall in H. apply list_elem_of_lookup_2 in Ho. apply H in Ho.
  destruct o as [sw|p|l]; simpl in Ho; auto. apply Ho.
Qed.

(** The loop that fills [current_inputs] raises nothing. *)
Lemma current_inputs_eq (objs : list Obj) (p : Perceptron) :
  mapM (fun i : nat =>
          if (i <? length (p_input_connections p))%nat then
            src <- getitem (p_input_connections p) i ;; Ok (read_source objs src)
          else Ok 0)
       (seq 0 (p_num_inputs p))
  = Ok (gather_inputs objs p).
Proof.
  apply mapM_pure. intros i _. unfold input_value_at.
  destruct (Nat.ltb_spec i (length (p_input_connections p))) as [Hlt|Hge].
  - destruct (getitem_Ok _ _ Hlt) as (src & -> & ->). reflexivity.
  - rewrite lookup_ge_None_2 by lia. reflexivity.
Qed.

Lemma products_eq (ws : list float) (xs : list Z) :
  Forall (fun x => x = 0 \/ x = 1) xs ->
  mapM (fun wi => float_mul_int (fst wi) (snd wi)) (zip ws xs)
  = Ok (map (fun wi => (fst wi * Z_to_float (snd wi))%float) (zip ws xs)).
Proof.
  intros H. apply mapM_pure. intros [w x] Hin. simpl.
  unfold float_mul_int. rewrite float_of_int_bit; [reflexivity|].
  rewrite Forall_forall in H. apply H.
  apply list_elem_of_In in Hin. apply elem_of_zip_r in Hin. exact Hin.
Qed.

Lemma py_sum_map {A : Type} (f : A -> float) (l : list A) :
  py_sum (map f l) = fold_left (fun acc a => (acc + f a)%float) l 0%float.
Proof.
  unfold py_sum. generalize 0%float.
  induction l as [|x l IH]; simpl; intros acc; [reflexivity|]. apply IH.
Qed.

Lemma length_gather_inputs (objs : list Obj) (p : Perceptron) :
  length (gather_inputs objs p) = p_num_inputs p.
Proof. unfold gather_inputs. rewrite length_map, length_seq. reflexivity. Qed.

(** With sources that hold 0 or 1 the conversions to float raise nothing. *)
Section Evaluation.
Variable objs : list Obj.
Hypothesis Hbits : outputs_are_bits objs.

Lemma read_source_bit (src : option nat) :
  read_source objs src = 0 \/ read_source objs src = 1.
Proof. destruct src as [s|]; simpl; auto. Qed.

Lemma input_value_at_bit (p : Perceptron) (i : nat) :
  input_value_at objs p i = 0 \/ input_value_at objs p i = 1.
Proof.
  unfold input_value_at. destruct (_ !! i); [|auto]. apply read_source_bit.
Qed.

Lemma gather_inputs_bits (p : Perceptron) :
  Forall (fun x => x = 0 \/ x = 1) (gather_inputs objs p).
Proof.
  unfold gather_inputs. apply Forall_forall. intros x Hx.
  apply list_elem_of_In, in_map_iff in Hx as (i & <- & _).
  apply input_value_at_bit.
Qed.

(** [calculate_output] returns what the specification says. *)
Lemma calculate_output_eq (p : Perceptron) :
  calculate_output objs p = Ok (evaluated objs p).
Proof.
  unfold calculate_output. rewrite current_inputs_eq. simpl.
  rewrite length_gather_inputs.
  fold (repaired_weights (p_weights p) (p_num_inputs p)).
  rewrite products_eq by apply gather_inputs_bits. simpl.
  rewrite py_sum_map. reflexivity.
Qed.
End Evaluation.

Lemma step_function_bit (x : float) : step_function x = 0 \/ step_function x = 1.
Proof. unfold step_function. destruct (0 <=? x)%float; auto. Qed.

Lemma repaired_weights_id (ws : list float) (n : nat) :
  length ws = n -> repaired_weights ws n = ws.
Proof. intros H. unfold repaired_weights. rewrite H, Nat.eqb_refl. reflexivity. Qed.

Lemma length_repaired_weights (ws : list float) (n : nat) :
  length (repaired_weights ws n) = n.
Proof.
  unfold repaired_weights. destruct (Nat.eqb_spec (length ws) n) as [H|H]; simpl; [exact H|].
  rewrite length_app, length_take, repeat_length. lia.
Qed.

Lemma evaluated_ok (objs : list Obj) (p : Perceptron) :
  p_ok p -> p_ok (evaluated objs p).
Proof.
  intros [H1 H8 Hw Hv Hc Hr Hh Ho]. split; simpl; auto.
  - apply length_repaired_weights.
  - apply length_gather_inputs.
  - apply step_function_bit.
Qed.

Lemma pass_inv_refl (objs : list Obj) : Forall obj_ok objs -> pass_inv objs objs.
Proof. intros H. repeat split; auto. Qed.

Lemma pass_inv_insert (objs0 objs : list Obj) (i : nat) (o o' : Obj) :
  pass_inv objs0 objs -> objs !! i = Some o -> obj_ok o' ->
  obj_input_connections o' = obj_input_connections o ->
  pass_inv objs0 (<[i := o']> objs).
Proof.
  intros (Hok & Hlen & Hs) Ho Hok' Hics. repeat split.
  - apply Forall_insert; assumption.
  - rewrite length_insert. exact Hlen.
  - intros t. rewrite <- Hs. destruct (decide (t = i)) as [->|Hne].
    + rewrite list_lookup_insert_eq by (eapply lookup_lt_Some; eauto).
      rewrite Ho. simpl. rewrite Hics. reflexivity.
    + rewrite list_lookup_insert_ne by congruence. reflexivity.
Qed.

Lemma calculate_at_ok (objs0 objs : list Obj) (i : nat) :
  pass_inv objs0 objs ->
  exists objs', calculate_at objs i = Ok objs' /\ pass_inv objs0 objs'.
Proof.
  intros Hinv. unfold calculate_at.
  destruct (objs !! i) as [[s|p|l]|] eqn:Ho; eauto.
  rewrite calculate_output_eq by (apply obj_ok_outputs; apply Hinv). simpl.
  eexists. split; [reflexivity|]. eapply pass_inv_insert; eauto.
  simpl. apply evaluated_ok. destruct Hinv as (Hok & _).
  rewrite Forall_forall in Hok. apply (Hok (OPerceptron p)).
  eapply list_elem_of_lookup_2. exact Ho.
Qed.

Lemma update_at_ok (objs0 objs : list Obj) (i : nat) :
  pass_inv objs0 objs ->
  exists objs', update_at objs i = Ok objs' /\ pass_inv objs0 objs'.
Proof.
  intros Hinv. unfold update_at.
  destruct (objs !! i) as [[s|p|l]|] eqn:Ho; eauto.
  assert (Hl : l_ok l).
  { destruct Hinv as (Hok & _). rewrite Forall_forall in Hok.
    apply (Hok (OLight l)). eapply list_elem_of_lookup_2. exact Ho. }
  unfold update_state.
  destruct (getitem_Ok (l_input_connections l) 0) as (src & -> & _).
  { rewrite (l_ok_connections _ Hl). lia. }
  simpl. eexists. split; [reflexivity|]. eapply pass_inv_insert; eauto.
  destruct Hl. split; simpl; auto.
Qed.

Lemma pass_ok (f : list Obj -> nat -> result (list Obj)) (objs0 : list Obj) :
  (forall objs i, pass_inv objs0 objs ->
     exists objs', f objs i = Ok objs' /\ pass_inv objs0 objs') ->
  forall idxs objs, pass_inv objs0 objs ->
    exists objs', pass f idxs objs = Ok objs' /\ pass_inv objs0 objs'.
Proof.
  intros Hf idxs. induction idxs as [|i idxs IH]; simpl; intros objs Hinv; [eauto|].
  destruct (Hf objs i Hinv) as (objs1 & -> & Hinv1). simpl. apply IH. exact Hinv1.
Qed.

Lemma pass_inv_trans (objs0 objs1 objs2 : list Obj) :
  pass_inv objs0 objs1 -> pass_inv objs1 objs2 -> pass_inv objs0 objs2.
Proof.
  intros (_ & Hl1 & Hs1) (Hok & Hl2 & Hs2). repeat split; auto; [congruence|].
  intros t. rewrite Hs2. apply Hs1.
Qed.

Lemma pass_inv_slot (objs0 objs : list Obj) (t j : nat) :
  pass_inv objs0 objs -> slot objs t j = slot objs0 t j.
Proof.
  intros (_ & _ & Hs). specialize (Hs t). unfold slot.
  destruct (objs !! t), (objs0 !! t); simpl in Hs; try discriminate; [|reflexivity].
  inversion Hs as [E]. rewrite E. reflexivity.
Qed.

Lemma tick_ok (w : World) :
  world_ok w -> exists w', tick w = Ok w' /\ world_ok w'.
Proof.
  intros [Hobjs Hreg Hdraw]. unfold tick, perceptron_pass, light_pass.
  destruct (pass_ok calculate_at (all_objects w) (calculate_at_ok (all_objects w))
              (seq 0 (length (all_objects w))) (all_objects w) (pass_inv_refl _ Hobjs))
    as (objs1 & -> & Hinv1).
  simpl.
  destruct (pass_ok update_at objs1 (update_at_ok objs1)
              (seq 0 (length objs1)) objs1 (pass_inv_refl _ (proj1 Hinv1)))
    as (objs2 & -> & Hinv2).
  simpl. eexists. split; [reflexivity|].
  pose proof (pass_inv_trans _ _ _ Hinv1 Hinv2) as Hinv.
  split; simpl; [apply Hinv | | exact Hdraw].
  eapply registry_ok_ext; [|exact Hreg]. intros t j. apply pass_inv_slot. exact Hinv.
Qed.

Lemma initial_world_ok (rnd1 rnd2 : nat -> float) :
  exists w, initial_world rnd1 rnd2 = Ok w /\ world_ok w.
Proof.
  eexists. split; [vm_compute; reflexivity|].
  split; simpl.
  - repeat constructor; simpl; auto; unfold s_ok; simpl; auto.
  - split; simpl.
    + constructor.
    + intros c Hc. inversion Hc.
    + intros t i s H. exfalso. unfold slot in H.
      do 6 (destruct t as [|t]; simpl in H;
            [repeat (destruct i as [|i]; simpl in H; try discriminate)|]).
      discriminate.
  - discriminate.
Qed.

(** Every state of the program is in shape. *)
Lemma reachable_ok (rnd1 rnd2 : nat -> float) (w : World) :
  reachable rnd1 rnd2 w -> world_ok w.
Proof.
  induction 1 as [w Hinit | u ev w w' _ IH Hev | w w' _ IH Ht].
  - destruct (initial_world_ok rnd1 rnd2) as (w0 & H0 & Hok). congruence.
  - destruct (process_event_ok u ev w IH) as (w1 & H1 & Hok). congruence.
  - destruct (tick_ok w IH) as (w1 & H1 & Hok). congruence.
Qed.

(** ** The buttons *)

Lemma handle_plus (self : nat) (u : float) (p : Perceptron) (ev : event)
    (gs : GlobalState) (conns : list Connection) :
  on_plus p ev ->
  Perceptron_handle_event self u p ev gs conns
  = if (p_num_inputs p <? max_inputs)%nat
    then p' <- increment_inputs u p ;; Ok (true, p', gs, conns)
    else Ok (true, p, gs, conns).
Proof. intros (pt & -> & Hpt). simpl. rewrite Hpt. reflexivity. Qed.

Lemma handle_minus (self : nat) (u : float) (p : Perceptron) (ev : event)
    (gs : GlobalState) (conns : list Connection) :
  on_minus p ev ->
  Perceptron_handle_event self u p ev gs conns
  = if (min_inputs <? p_num_inputs p)%nat
    then r <- decrement_inputs self p conns ;; Ok (true, fst r, gs, snd r)
    else Ok (true, p, gs, conns).
Proof. intros (pt & -> & Hplus & Hminus). simpl. rewrite Hplus, Hminus. reflexivity. Qed.

Lemma resize_ok (self : nat) (st st' : Perceptron * list Connection) :
  resize self st st' -> p_ok (fst st) -> p_ok (fst st').
Proof.
  intros [p p' conns conns' u ev gs gs' h _ Hev] Hok. simpl in *.
  destruct (Perceptron_handle_event_ok self u p ev gs conns Hok)
    as (h0 & p0 & gs0 & conns0 & E & Hok' & _).
  rewrite E in Hev. inversion Hev; subst. exact Hok'.
Qed.

Lemma resize_rtc_ok (self : nat) (st st' : Perceptron * list Connection) :
  rtc (resize self) st st' -> p_ok (fst st) -> p_ok (fst st').
Proof.
  induction 1 as [st | st st1 st2 Hstep _ IH]; intros Hok; [exact Hok|].
  apply IH. eapply resize_ok; eauto.
Qed.

Lemma Perceptron_init_ok (x y num_inputs : Z) (weights : option (list float))
    (bias : option float) (rnd : nat -> float) (p : Perceptron) :
  num_inputs <= 8 ->
  Perceptron_init x y num_inputs weights bias rnd = Ok p -> p_ok p.
Proof.
  intros Hn Hp. unfold Perceptron_init in Hp.
  apply bind_Ok in Hp as (ws & Hws & Hp).
  assert (Hlen : length ws = Z.to_nat (Z.max 1 num_inputs)).
  { destruct weights as [ws'|].
    - destruct (Nat.eqb_spec (length ws') (Z.to_nat (Z.max 1 num_inputs))); inv_ok. assumption.
    - inv_ok. rewrite length_map, length_seq. reflexivity. }
  set (q := mkPerceptron _ _ _ _ _ _ _ _ _ _ _ _ _) in Hp.
  destruct (p_update_node_positions_ok q) as (ks & Hq & Hks).
  { simpl. lia. } { reflexivity. }
  rewrite Hq in Hp. inv_ok.
  apply p_ok_geometry; simpl; rewrite ?repeat_length; auto; lia.
Qed.

Lemma NoDup_keys_unique (l1 l2 : list Connection) (c d : Connection) :
  NoDup (conn_key <$> (l1 ++ c :: l2)) -> d ∈ l1 ++ c :: l2 ->
  conn_key d = conn_key c -> d = c.
Proof.
  intros Hnd Hd Hk. apply NoDup_keys_app_cons in Hnd as [_ Hne].
  rewrite Forall_forall in Hne.
  apply elem_of_app in Hd as [Hd|Hd].
  - exfalso. apply (Hne d); [apply elem_of_app; left; exact Hd | exact Hk].
  - apply elem_of_cons in Hd as [->|Hd]; [reflexivity|].
    exfalso. apply (Hne d); [apply elem_of_app; right; exact Hd | exact Hk].
Qed.

(** ** Runs of the program *)

Lemma reachable_process_events (rnd1 rnd2 : nat -> float)
    (evs : list (float * event)) (w w' : World) :
  reachable rnd1 rnd2 w -> process_events evs w = Ok w' -> reachable rnd1 rnd2 w'.
Proof.
  revert w. induction evs as [|[u ev] evs IH]; simpl; intros w Hw H.
  - inv_ok. exact Hw.
  - apply bind_Ok in H as (w1 & H1 & H). eapply IH; [|exact H].
    eapply reach_event; eauto.
Qed.

Lemma reachable_run (rnd1 rnd2 : nat -> float) (evs : list (float * event)) (w : World) :
  (w0 <- initial_world rnd1 rnd2 ;; process_events evs w0) = Ok w ->
  reachable rnd1 rnd2 w.
Proof.
  intros H. apply bind_Ok in H as (w0 & H0 & H).
  eapply reachable_process_events; [|exact H]. apply reach_init. exact H0.
Qed.

Lemma input_hit_rect (o : Obj) (pt : pos) (i : nat) :
  input_hit o pt i = true ->
  exists r, r ∈ input_node_rects o /\ collidepoint r pt = true.
Proof.
  unfold input_hit. destruct (get_input_node_rect o i) as [r|] eqn:Hr; [|discriminate].
  intros H. apply andb_true_iff in H as [_ H]. exists r. split; [|exact H].
  destruct o as [s|p|l]; simpl in *; [discriminate| |].
  - eapply list_elem_of_lookup_2. exact Hr.
  - unfold l_get_input_node_rect in Hr. destruct i; [|discriminate].
    destruct (l_input_node_rects l); [discriminate|]. inversion Hr; subst. left.
Qed.

Lemma no_input_port_no_target (objs : list Obj) (pt : pos) :
  no_input_port_at objs pt -> find_target objs pt = None.
Proof.
  intros Hno. destruct (find_target objs pt) as [[t i]|] eqn:E; [|reflexivity].
  apply find_target_Some in E as (o & Ho & Hhit).
  apply hit_input_Some in Hhit as [_ Hhit].
  apply input_hit_rect in Hhit as (r & Hr & Hc).
  rewrite (Hno o r) in Hc; [discriminate | | exact Hr].
  eapply list_elem_of_lookup_2. exact Ho.
Qed.

(** ** Dragging flags *)

(** A handler that does not handle the event changes nothing; one that
    handles an event other than a pointer-down sets no dragging flag. *)
Lemma Perceptron_handle_event_drag (self : nat) (u : float) (p p' : Perceptron)
    (ev : event) (gs gs' : GlobalState) (conns conns' : list Connection) (h : bool) :
  Perceptron_handle_event self u p ev gs conns = Ok (h, p', gs', conns') ->
  (h = false -> p' = p /\ gs' = gs /\ conns' = conns)
  /\ (is_pointer_down ev = false ->
      is_dragging (p_base p') = true -> is_dragging (p_base p) = true).
Proof.
  intros H. destruct ev as [|button pt|button pt|pt|]; simpl in H.
  - inv_ok. auto.
  - split; [|discriminate]. intros ->.
    repeat match type of H with
      | context [if ?b then _ else _] => destruct b
      | context [match first_hit ?a ?b with _ => _ end] => destruct (first_hit a b)
      | bind _ _ = Ok _ =>
          let a := fresh "a" in
          let Ha := fresh "Ha" in
          apply bind_Ok in H as (a & Ha & H)
      | context [match ?x with Some _ => _ | None => _ end] => destruct x
      end; inv_ok; auto.
  - destruct (is_dragging (p_base p) && (button =? 1)) eqn:E; inv_ok.
    + split; [discriminate|]. intros _ _. apply andb_true_iff in E. tauto.
    + split; [auto | intros _ Hd; exact Hd].
  - destruct (is_dragging (p_base p)) eqn:E; inv_ok;
      (split; [try discriminate; auto | intros; congruence]).
  - inv_ok. auto.
Qed.

Lemma Switch_handle_event_drag (self : nat) (s s' : Switch)
    (ev : event) (gs gs' : GlobalState) (conns conns' : list Connection) (h : bool) :
  Switch_handle_event self s ev gs conns = Ok (h, s', gs', conns') ->
  (h = false -> s' = s /\ gs' = gs /\ conns' = conns)
  /\ (is_pointer_down ev = false ->
      is_dragging (s_base s') = true -> is_dragging (s_base s) = true).
Proof.
  intros H. destruct ev as [|button pt|button pt|pt|]; simpl in H.
  - inv_ok. auto.
  - split; [|discriminate]. intros ->.
    repeat match type of H with
      | context [if ?b then _ else _] => destruct b
      end; inv_ok; auto.
  - destruct ((button =? 1) && is_dragging (s_base s)) eqn:E; inv_ok.
    + split; [discriminate|]. intros _ _. apply andb_true_iff in E. tauto.
    + split; [auto | intros _ Hd; exact Hd].
  - destruct (is_dragging (s_base s)) eqn:E; inv_ok;
      (split; [try discriminate; auto | intros; congruence]).
  - inv_ok. auto.
Qed.

Lemma Light_handle_event_drag (self : nat) (l l' : Light)
    (ev : event) (gs gs' : GlobalState) (conns conns' : list Connection) (h : bool) :
  Light_handle_event self l ev gs conns = Ok (h, l', gs', conns') ->
  (h = false -> l' = l /\ gs' = gs /\ conns' = conns)
  /\ (is_pointer_down ev = false ->
      is_dragging (l_base l') = true -> is_dragging (l_base l) = true).
Proof.
  intros H. unfold Light_handle_event in H.
  destruct ev as [|button pt|button pt|pt|]; simpl in H.
  - inv_ok. auto.
  - split; [|discriminate]. intros ->.
    destruct (collidepoint (rect (l_base l)) pt); simpl in H; [inv_ok|].
    unfold l_get_input_node_rect in H.
    repeat match type of H with
      | context [if ?b then _ else _] => destruct b
      | bind _ _ = Ok _ =>
          let a := fresh "a" in
          let Ha := fresh "Ha" in
          apply bind_Ok in H as (a & Ha & H)
      | context [match ?x with [] => _ | _ :: _ => _ end] => destruct x
      | context [match ?x with Some _ => _ | None => _ end] => destruct x
      end; inv_ok; auto.
  - destruct (is_dragging (l_base l)) eqn:E; simpl in H; inv_ok;
      (split; [try discriminate; auto | intros; congruence]).
  - destruct (is_dragging (l_base l)) eqn:E; simpl in H; inv_ok;
      (split; [try discriminate; auto | intros; congruence]).
  - inv_ok. auto.
Qed.

Lemma handle_event_drag (self : nat) (u : float) (o : Obj) (ev : event)
    (gs : GlobalState) (conns : list Connection)
    (r : bool * Obj * GlobalState * list Connection) :
  handle_event self u o ev gs conns = Ok r ->
  (fst (fst (fst r)) = false -> r = (false, o, gs, conns))
  /\ (is_pointer_down ev = false ->
      dragging (snd (fst (fst r))) = true -> dragging o = true).
Proof.
  intros H. destruct o as [s|p|l]; simpl in H;
    apply bind_Ok in H as ([[[h x] gs'] conns'] & Hx & H); inv_ok; simpl.
  - apply Switch_handle_event_drag in Hx as [H1 H2]. split; [|exact H2].
    intros ->. destruct (H1 eq_refl) as (-> & -> & ->). reflexivity.
  - apply Perceptron_handle_event_drag in Hx as [H1 H2]. split; [|exact H2].
    intros ->. destruct (H1 eq_refl) as (-> & -> & ->). reflexivity.
  - apply Light_handle_event_drag in Hx as [H1 H2]. split; [|exact H2].
    intros ->. destruct (H1 eq_refl) as (-> & -> & ->). reflexivity.
Qed.

Lemma dragging_count_app (l1 l2 : list Obj) :
  dragging_count (l1 ++ l2) = (dragging_count l1 + dragging_count l2)%nat.
Proof. unfold dragging_count. rewrite List.filter_app, length_app. reflexivity. Qed.

Lemma dragging_count_cons (o : Obj) (l : list Obj) :
  dragging_count (o :: l) = ((if dragging o then 1 else 0) + dragging_count l)%nat.
Proof. unfold dragging_count. simpl. destruct (dragging o); reflexivity. Qed.

Lemma list_split_at (objs : list Obj) (k : nat) (o : Obj) :
  objs !! k = Some o ->
  objs = take k objs ++ o :: drop (S k) objs.
Proof. intros H. symmetry. apply take_drop_middle. exact H. Qed.

(** Replacing one object moves the count of dragged objects by what the
    flag of that object does. *)
Lemma dragging_count_insert (objs : list Obj) (k : nat) (o o' : Obj) :
  objs !! k = Some o ->
  (dragging_count (<[k := o']> objs) + (if dragging o then 1 else 0)
   = dragging_count objs + (if dragging o' then 1 else 0))%nat.
Proof.
  intros Ho. pose proof (list_split_at objs k o Ho) as E.
  assert (Hk : length (take k objs) = k).
  { rewrite length_take. apply lookup_lt_Some in Ho. lia. }
  set (l1 := take k objs) in *. set (l2 := drop (S k) objs) in *.
  clearbody l1 l2. subst objs. clear Ho.
  replace k with (length l1 + 0)%nat by lia. rewrite insert_app_r. simpl.
  rewrite !dragging_count_app, !dragging_count_cons. lia.
Qed.

Lemma dragging_count_same (objs objs' : list Obj) :
  map dragging objs' = map dragging objs -> dragging_count objs' = dragging_count objs.
Proof.
  revert objs'. induction objs as [|o objs IH]; intros [|o' objs'] H; simpl in H;
    try discriminate; [reflexivity|].
  inversion H as [[Ho Hrest]]. rewrite !dragging_count_cons, Ho, (IH _ Hrest). reflexivity.
Qed.

Lemma dispatch_drag (k : nat) (u : float) (ev : event) (w w' : World) :
  dispatch k u ev w = Ok w' ->
  (dragging_count (all_objects w') <= dragging_count (all_objects w) + 1)%nat
  /\ (is_pointer_down ev = false ->
      (dragging_count (all_objects w') <= dragging_count (all_objects w))%nat).
Proof.
  revert w. induction k as [|k IH]; intros w H; simpl in H.
  - inv_ok. split; [lia | intros; lia].
  - destruct (all_objects w !! k) as [o|] eqn:Ho; [|apply IH; exact H].
    apply bind_Ok in H as (r & Hr & H).
    pose proof (handle_event_drag _ _ _ _ _ _ _ Hr) as [Hunh Hflag].
    destruct (fst (fst (fst r))) eqn:Eh.
    + inv_ok. simpl.
      pose proof (dragging_count_insert (all_objects w) k o (snd (fst (fst r))) Ho) as Hc.
      split.
      * destruct (dragging o), (dragging (snd (fst (fst r)))); lia.
      * intros Hev. specialize (Hflag Hev).
        destruct (dragging o), (dragging (snd (fst (fst r))));
          first [lia | specialize (Hflag eq_refl); discriminate].
    + rewrite (Hunh eq_refl) in H. simpl in H.
      rewrite list_insert_id in H by exact Ho.
      destruct w as [run objs conns gs]. simpl in *. apply IH in H. exact H.
Qed.

Lemma set_input_connection_dragging (o : Obj) (i s : nat) :
  dragging (set_input_connection o i s) = dragging o.
Proof.
  destruct o as [sw|p|l]; simpl; [reflexivity| |];
    destruct (i <? _)%nat; reflexivity.
Qed.

Lemma finalize_connection_drag (w w' : World) (pt : pos) :
  finalize_connection w pt = Ok w' ->
  dragging_count (all_objects w') = dragging_count (all_objects w).
Proof.
  unfold finalize_connection. intros H.
  destruct (find_target _ _) as [[t i]|]; [|inv_ok; reflexivity].
  destruct (connection_start_obj _) as [s|]; inv_ok. simpl.
  apply dragging_count_same. apply list_eq. intros j.
  rewrite !list_lookup_fmap. destruct (decide (j = t)) as [->|Hne].
  - rewrite list_lookup_alter_eq. destruct (all_objects w !! t); simpl; [|reflexivity].
    rewrite set_input_connection_dragging. reflexivity.
  - rewrite list_lookup_alter_ne by congruence. reflexivity.
Qed.

Lemma process_event_drag (u : float) (ev : event) (w w' : World) :
  process_event u ev w = Ok w' ->
  (dragging_count (all_objects w') <= dragging_count (all_objects w) + 1)%nat
  /\ (is_pointer_down ev = false ->
      (dragging_count (all_objects w') <= dragging_count (all_objects w))%nat).
Proof.
  unfold process_event. intros H.
  destruct ev as [|button pt|button pt|pt|]; try (apply dispatch_drag in H; exact H).
  destruct (is_drawing_connection _).
  - apply finalize_connection_drag in H. rewrite H. split; [lia | intros; lia].
  - apply dispatch_drag in H. exact H.
Qed.

Lemma calculate_at_dragging (objs objs' : list Obj) (i : nat) :
  calculate_at objs i = Ok objs' -> map dragging objs' = map dragging objs.
Proof.
  unfold calculate_at. intros H.
  destruct (objs !! i) as [[s|p|l]|] eqn:Ho; inv_ok; try reflexivity.
  unfold calculate_output in Ha. inv_ok.
  apply list_eq. intros j. rewrite !list_lookup_fmap.
  destruct (decide (j = i)) as [->|Hne].
  - rewrite list_lookup_insert_eq by (eapply lookup_lt_Some; eauto).
    rewrite Ho. reflexivity.
  - rewrite list_lookup_insert_ne by congruence. reflexivity.
Qed.

Lemma update_at_dragging (objs objs' : list Obj) (i : nat) :
  update_at objs i = Ok objs' -> map dragging objs' = map dragging objs.
Proof.
  unfold update_at. intros H.
  destruct (objs !! i) as [[s|p|l]|] eqn:Ho; inv_ok; try reflexivity.
  unfold update_state in Ha. inv_ok.
  apply list_eq. intros j. rewrite !list_lookup_fmap.
  destruct (decide (j = i)) as [->|Hne].
  - rewrite list_lookup_insert_eq by (eapply lookup_lt_Some; eauto).
    rewrite Ho. reflexivity.
  - rewrite list_lookup_insert_ne by congruence. reflexivity.
Qed.

Lemma pass_dragging (f : list Obj -> nat -> result (list Obj)) :
  (forall objs objs' i, f objs i = Ok objs' -> map dragging objs' = map dragging objs) ->
  forall idxs objs objs',
    pass f idxs objs = Ok objs' -> map dragging objs' = map dragging objs.
Proof.
  intros Hf idxs. induction idxs as [|i idxs IH]; simpl; intros objs objs' H.
  - inv_ok. reflexivity.
  - apply bind_Ok in H as (objs1 & H1 & H). rewrite (IH _ _ H). eapply Hf. exact H1.
Qed.

Lemma tick_drag (w w' : World) :
  tick w = Ok w' -> dragging_count (all_objects w') = dragging_count (all_objects w).
Proof.
  unfold tick, perceptron_pass, light_pass. intros H. inv_ok. simpl.
  apply dragging_count_same.
  rewrite (pass_dragging _ update_at_dragging _ _ _ Ha0).
  apply (pass_dragging _ calculate_at_dragging _ _ _ Ha).
Qed.

(** ** The order of the evaluation pass *)

Lemma pass_app (f : list Obj -> nat -> result (list Obj)) (l1 l2 : list nat)
    (objs : list Obj) :
  pass f (l1 ++ l2) objs = (objs1 <- pass f l1 objs ;; pass f l2 objs1).
Proof.
  revert objs. induction l1 as [|i l1 IH]; intros objs; simpl; [reflexivity|].
  destruct (f objs i) as [objs'|e]; simpl; [apply IH | reflexivity].
Qed.

Lemma calculate_output_Ok (objs : list Obj) (p p' : Perceptron) :
  calculate_output objs p = Ok p' ->
  p_input_values p' = gather_inputs objs p
  /\ p_num_inputs p' = p_num_inputs p
  /\ p_input_connections p' = p_input_connections p
  /\ p_output_value p' = step_function (spec_weighted_sum (p_weights p')
                                          (p_input_values p') (p_bias p)).
Proof.
  unfold calculate_output. rewrite current_inputs_eq. simpl. intros H.
  apply bind_Ok in H as (products & Hprod & H). inv_ok. simpl.
  repeat split. f_equal. unfold spec_weighted_sum. f_equal.
  set (ws := if negb _ then _ else _) in *. clearbody ws.
  unfold py_sum. generalize 0%float. revert products Hprod.
  generalize (gather_inputs objs p) as xs. revert ws.
  induction ws as [|w ws IH]; intros xs products Hprod acc; simpl in *.
  - inv_ok. reflexivity.
  - destruct xs as [|x xs]; simpl in *; [inv_ok; reflexivity|].
    apply bind_Ok in Hprod as (b & Hb & Hprod).
    apply bind_Ok in Hprod as (bs & Hbs & Hprod). inv_ok. simpl.
    unfold float_mul_int in Hb. apply bind_Ok in Hb as (g & Hg & Hb). inv_ok.
    unfold float_of_int in Hg. fold (Z_to_float x) in Hg.
    destruct (is_infinity (Z_to_float x)); inv_ok.
    apply IH. exact Hbs.
Qed.

(** One turn of the Perceptron pass works on its own position only. *)
Lemma calculate_at_other (objs objs' : list Obj) (k t : nat) :
  calculate_at objs k = Ok objs' -> t <> k -> objs' !! t = objs !! t.
Proof.
  unfold calculate_at. intros H Hne.
  destruct (objs !! k) as [[s|p|l]|]; inv_ok; try reflexivity.
  apply list_lookup_insert_ne. congruence.
Qed.

Lemma calculate_at_self (objs objs' : list Obj) (k : nat) (q : Perceptron) :
  calculate_at objs k = Ok objs' -> objs !! k = Some (OPerceptron q) ->
  exists q', calculate_output objs q = Ok q' /\ objs' !! k = Some (OPerceptron q').
Proof.
  unfold calculate_at. intros H Hq. rewrite Hq in H. inv_ok.
  exists a. split; [assumption|]. apply list_lookup_insert_eq.
  eapply lookup_lt_Some. exact Hq.
Qed.

Lemma pass_calculate_other (idxs : list nat) (objs objs' : list Obj) (t : nat) :
  pass calculate_at idxs objs = Ok objs' -> t ∉ idxs -> objs' !! t = objs !! t.
Proof.
  revert objs. induction idxs as [|k idxs IH]; simpl; intros objs H Ht.
  - inv_ok. reflexivity.
  - apply bind_Ok in H as (objs1 & H1 & H).
    rewrite (IH _ H) by (intros Hin; apply Ht; right; exact Hin).
    eapply calculate_at_other; [exact H1|]. intros ->. apply Ht. left.
Qed.

Lemma update_at_lights_only (objs objs' : list Obj) (i : nat) :
  update_at objs i = Ok objs' -> lights_only objs objs'.
Proof.
  unfold update_at. intros H t.
  destruct (objs !! i) as [[s|p|l]|] eqn:Ho; inv_ok; auto.
  destruct (decide (t = i)) as [->|Hne].
  - right. exists l, a. split; [exact Ho|]. apply list_lookup_insert_eq.
    eapply lookup_lt_Some. exact Ho.
  - left. apply list_lookup_insert_ne. congruence.
Qed.

Lemma pass_update_lights_only (idxs : list nat) (objs objs' : list Obj) :
  pass update_at idxs objs = Ok objs' -> lights_only objs objs'.
Proof.
  revert objs. induction idxs as [|i idxs IH]; simpl; intros objs H.
  - inv_ok. intros t. auto.
  - apply bind_Ok in H as (objs1 & H1 & H). intros t.
    destruct (IH _ H t) as [E | (l & l' & E1 & E2)];
      destruct (update_at_lights_only _ _ _ H1 t) as [E' | (m & m' & E1' & E2')].
    + left. congruence.
    + right. exists m, m'. split; congruence.
    + right. exists l, l'. split; congruence.
    + right. exists m, l'. split; congruence.
Qed.

Lemma lights_only_output (objs objs' : list Obj) (t : nat) :
  lights_only objs objs' ->
  getattr_output_value objs' t = getattr_output_value objs t.
Proof.
  intros H. unfold getattr_output_value.
  destruct (H t) as [-> | (l & l' & -> & ->)]; reflexivity.
Qed.

Lemma lights_only_perceptron (objs objs' : list Obj) (t : nat) (q : Perceptron) :
  lights_only objs objs' ->
  objs' !! t = Some (OPerceptron q) -> objs !! t = Some (OPerceptron q).
Proof.
  intros H Hq. destruct (H t) as [E | (l & l' & _ & E)]; congruence.
Qed.

Lemma getattr_output_value_lookup (objs objs' : list Obj) (t : nat) :
  objs' !! t = objs !! t -> getattr_output_value objs' t = getattr_output_value objs t.
Proof. unfold getattr_output_value. intros ->. reflexivity. Qed.

(** What the Perceptron at position [q] reads at input [i] during a tick. *)
Lemma tick_reads (w w' : World) (q p i : nat) (Q Q' : Perceptron) :
  tick w = Ok w' ->
  all_objects w !! q = Some (OPerceptron Q) ->
  all_objects w' !! q = Some (OPerceptron Q') ->
  (i < p_num_inputs Q)%nat ->
  p_input_connections Q !! i = Some (Some p) ->
  p_input_values Q' !! i
  = Some (getattr_output_value (all_objects (if (p <? q)%nat then w' else w)) p).
Proof.
  intros Ht HQ HQ' Hi Hslot. unfold tick, perceptron_pass, light_pass in Ht.
  apply bind_Ok in Ht as (objs1 & H1 & Ht).
  apply bind_Ok in Ht as (objs2 & H2 & Ht). inv_ok. simpl in HQ'.
  set (objs := all_objects w) in *.
  pose proof (pass_update_lights_only _ _ _ H2) as Hlights.
  apply (lights_only_perceptron _ _ _ _ Hlights) in HQ'.
  assert (Hq : (q < length objs)%nat) by (eapply lookup_lt_Some; exact HQ).
  assert (Hseq : seq 0 (length objs)
                 = seq 0 q ++ q :: seq (S q) (length objs - S q)).
  { replace (length objs) with (q + S (length objs - S q))%nat at 1 by lia.
    rewrite seq_app. reflexivity. }
  rewrite Hseq, pass_app in H1. apply bind_Ok in H1 as (A & HA & H1).
  simpl in H1. apply bind_Ok in H1 as (B & HB & H1).
  assert (HAq : A !! q = Some (OPerceptron Q)).
  { rewrite (pass_calculate_other _ _ _ q HA); [exact HQ|].
    rewrite list_elem_of_In, in_seq. lia. }
  destruct (calculate_at_self _ _ _ _ HB HAq) as (Q1 & Hcalc & HBq).
  assert (H1q : objs1 !! q = Some (OPerceptron Q1)).
  { rewrite (pass_calculate_other _ _ _ q H1); [exact HBq|].
    rewrite list_elem_of_In, in_seq. lia. }
  assert (Q' = Q1) by congruence. subst Q1.
  apply calculate_output_Ok in Hcalc as (Hvals & _).
  rewrite Hvals. unfold gather_inputs.
  rewrite list_lookup_fmap, lookup_seq_lt by exact Hi. simpl.
  unfold input_value_at. rewrite Hslot. simpl. f_equal.
  destruct (Nat.ltb_spec p q) as [Hlt|Hge]; simpl.
  - rewrite (lights_only_output _ _ _ Hlights).
    apply getattr_output_value_lookup. symmetry.
    rewrite (pass_calculate_other _ _ _ p H1)
      by (rewrite list_elem_of_In, in_seq; lia).
    eapply calculate_at_other; [exact HB | lia].
  - apply getattr_output_value_lookup.
    apply (pass_calculate_other _ _ _ p HA). rewrite list_elem_of_In, in_seq. lia.
Qed.

(** ** What the '-' button returns *)



(** In a world in shape every Perceptron is one of the playground, and
    the connections record the wire of each of its occupied slots. *)
Lemma world_ok_perceptron (w : World) (self : nat) (p : Perceptron) :
  world_ok w -> all_objects w !! self = Some (OPerceptron p) ->
  p_ok p
  /\ NoDup (conn_key <$> connections w)
  /\ forall i s, p_input_connections p !! i = Some (Some s) ->
                 mkConnection s self i ∈ connections w.
Proof.
  intros [Hobjs Hreg _] Hp. split; [|split].
  - rewrite Forall_forall in Hobjs. apply (Hobjs (OPerceptron p)).
    eapply list_elem_of_lookup_2. exact Hp.
  - apply Hreg.
  - intros i s Hs. apply (slots_registry _ _ Hreg). unfold slot.
    rewrite Hp. simpl. rewrite Hs. reflexivity.
Qed.

(** ** Floats: the arithmetic of the node positions raises nothing *)

Lemma fexp_fexp64 (e : Z) : fexp prec emax e = fexp64 e.
Proof. reflexivity. Qed.

Lemma digits2_pos_size (p : positive) : digits2_pos p = Pos.size p.
Proof. induction p as [p IH|p IH|]; simpl; congruence. Qed.

Lemma Zdigits2_log2 (z : Z) : 0 < z -> Zdigits2 z = Z.log2 z + 1.
Proof.
  destruct z as [|p|p]; try lia. intros _. simpl. rewrite digits2_pos_size.
  destruct p as [p|p|]; simpl; try reflexivity; rewrite Pos2Z.inj_succ; lia.
Qed.

Lemma Zdigits2_0 : Zdigits2 0 = 0.
Proof. reflexivity. Qed.

Lemma Zdigits2_nonneg (z : Z) : 0 <= z -> 0 <= Zdigits2 z.
Proof. destruct z; simpl; lia. Qed.

Lemma Zdigits2_pos (z : Z) : 0 < z -> 1 <= Zdigits2 z.
Proof. intros H. rewrite Zdigits2_log2 by exact H. pose proof (Z.log2_nonneg z). lia. Qed.

Lemma Zdigits2_le (a b : Z) : 0 <= a <= b -> Zdigits2 a <= Zdigits2 b.
Proof.
  intros [Ha Hab]. destruct (Z.eq_dec a 0) as [->|Hne].
  - apply Zdigits2_nonneg. lia.
  - rewrite !Zdigits2_log2 by lia. pose proof (Z.log2_le_mono a b Hab). lia.
Qed.

Lemma Zdigits2_succ (z : Z) : 0 <= z -> Zdigits2 (z + 1) <= Zdigits2 z + 1.
Proof.
  intros H. destruct (Z.eq_dec z 0) as [->|Hne]; [simpl; lia|].
  rewrite !Zdigits2_log2 by lia. pose proof (Z.log2_succ_le z). unfold Z.succ in *. lia.
Qed.

Lemma Zdigits2_shiftr (z k : Z) :
  0 <= z -> 0 <= k -> Zdigits2 (z / 2 ^ k) = Z.max 0 (Zdigits2 z - k).
Proof.
  intros Hz Hk. destruct (Z.eq_dec z 0) as [->|Hne].
  { rewrite Z.div_0_l by (apply Z.pow_nonzero; lia). simpl. lia. }
  rewrite <- Z.shiftr_div_pow2 by exact Hk.
  destruct (Z.eq_dec (Z.shiftr z k) 0) as [E|E].
  - rewrite E. simpl. rewrite Zdigits2_log2 by lia.
    apply Z.shiftr_eq_0_iff in E as [E|[_ E]]; lia.
  - assert (0 <= Z.shiftr z k) by (apply Z.shiftr_nonneg; exact Hz).
    rewrite !Zdigits2_log2 by lia. rewrite Z.log2_shiftr by lia.
    assert (k <= Z.log2 z).
    { destruct (Z_lt_le_dec (Z.log2 z) k) as [Hlt|Hge]; [|exact Hge].
      exfalso. apply E. apply Z.shiftr_eq_0; lia. }
    lia.
Qed.

Lemma Zdigits2_mul_pow2 (z k : Z) :
  0 < z -> 0 <= k -> Zdigits2 (z * 2 ^ k) = Zdigits2 z + k.
Proof.
  intros Hz Hk. assert (0 < z * 2 ^ k) by (apply Z.mul_pos_pos; [lia | apply Z.pow_pos_nonneg; lia]).
  rewrite !Zdigits2_log2 by lia. rewrite Z.log2_mul_pow2 by lia. lia.
Qed.

Lemma Zdigits2_mul (a b : Z) : 0 < a -> 0 < b -> Zdigits2 (a * b) <= Zdigits2 a + Zdigits2 b.
Proof.
  intros Ha Hb. assert (0 < a * b) by (apply Z.mul_pos_pos; lia).
  rewrite !Zdigits2_log2 by lia. pose proof (Z.log2_mul_above a b). lia.
Qed.

Lemma Zdigits2_lt_pow2 (z : Z) : 0 <= z -> z < 2 ^ Zdigits2 z.
Proof.
  intros Hz. destruct (Z.eq_dec z 0) as [->|Hne]; [simpl; lia|].
  rewrite Zdigits2_log2 by lia. apply Z.log2_spec. lia.
Qed.

Lemma Zdigits2_div (a b : Z) : 0 <= a -> 0 < b -> Zdigits2 a - Zdigits2 b <= Zdigits2 (a / b).
Proof.
  intros Ha Hb. pose proof (Zdigits2_lt_pow2 b ltac:(lia)) as Hlt.
  assert (H1 : a / 2 ^ Zdigits2 b <= a / b).
  { apply Z.div_le_compat_l; lia. }
  assert (H2 : 0 <= a / 2 ^ Zdigits2 b).
  { apply Z.div_pos; [lia|]. apply Z.pow_pos_nonneg; [lia|]. apply Zdigits2_nonneg. lia. }
  pose proof (Zdigits2_le _ _ (conj H2 H1)) as H3.
  rewrite Zdigits2_shiftr in H3 by (try apply Zdigits2_nonneg; lia). lia.
Qed.

Lemma Zdigits2_bound (z : Z) (k : Z) : 0 <= z < 2 ^ k -> 0 <= k -> Zdigits2 z <= k.
Proof.
  intros [Hz Hlt] Hk. destruct (Z.eq_dec z 0) as [->|Hne]; [simpl; lia|].
  rewrite Zdigits2_log2 by lia.
  assert (Z.log2 z < k) by (apply Z.log2_lt_pow2; lia). lia.
Qed.

Lemma shr_1_m (mrs : shr_record) :
  0 <= shr_m mrs -> shr_m (shr_1 mrs) = shr_m mrs / 2.
Proof.
  destruct mrs as [m r s]. simpl. intros H.
  destruct m as [|[p|p|]|p]; simpl; try lia; try reflexivity.
  - apply Z.div_unique with (r := 1); lia.
  - apply Z.div_unique with (r := 0); lia.
Qed.

Lemma iter_shr_m (p : positive) (mrs : shr_record) :
  0 <= shr_m mrs ->
  shr_m (@SpecFloat.iter_pos shr_record shr_1 p mrs) = shr_m mrs / 2 ^ Zpos p.
Proof.
  revert mrs. induction p as [p IH|p IH|]; intros mrs H; simpl SpecFloat.iter_pos.
  - assert (H1 : 0 <= shr_m (shr_1 mrs)).
    { rewrite shr_1_m by exact H. apply Z.div_pos; lia. }
    assert (H2 : 0 <= shr_m (@SpecFloat.iter_pos shr_record shr_1 p (shr_1 mrs))).
    { rewrite IH by exact H1. apply Z.div_pos; [exact H1|]. apply Z.pow_pos_nonneg; lia. }
    rewrite IH by exact H2. rewrite IH by exact H1. rewrite shr_1_m by exact H.
    rewrite !Z.div_div by (try apply Z.pow_pos_nonneg; lia).
    f_equal.
    assert (E : 2 ^ Z.pos p~1 = 2 * 2 ^ Z.pos p * 2 ^ Z.pos p).
    { change 2 with (2 ^ 1) at 2. rewrite <- !Z.pow_add_r by lia. f_equal. lia. }
    rewrite E. lia.
  - assert (H2 : 0 <= shr_m (@SpecFloat.iter_pos shr_record shr_1 p mrs)).
    { rewrite IH by exact H. apply Z.div_pos; [exact H|]. apply Z.pow_pos_nonneg; lia. }
    rewrite IH by exact H2. rewrite IH by exact H.
    rewrite !Z.div_div by (try apply Z.pow_pos_nonneg; lia).
    f_equal.
    assert (E : 2 ^ Z.pos p~0 = 2 ^ Z.pos p * 2 ^ Z.pos p).
    { rewrite <- !Z.pow_add_r by lia. f_equal. lia. }
    rewrite E. lia.
  - rewrite shr_1_m by exact H. reflexivity.
Qed.

Lemma shr_m_of_loc (m : Z) (l : location) : shr_m (shr_record_of_loc m l) = m.
Proof. destruct l as [|[| |]]; reflexivity. Qed.

Lemma shr_fexp_spec (m e : Z) (l : location) :
  0 <= m ->
  snd (shr_fexp prec emax m e l) = Z.max e (fexp64 (Zdigits2 m + e))
  /\ shr_m (fst (shr_fexp prec emax m e l))
     = m / 2 ^ (Z.max e (fexp64 (Zdigits2 m + e)) - e).
Proof.
  intros Hm. unfold shr_fexp, shr. rewrite fexp_fexp64.
  destruct (fexp64 (Zdigits2 m + e) - e) as [|p|p] eqn:E; simpl.
  - replace (Z.max e (fexp64 (Zdigits2 m + e))) with e by lia.
    rewrite Z.sub_diag, shr_m_of_loc. simpl. rewrite Z.div_1_r. auto.
  - replace (Z.max e (fexp64 (Zdigits2 m + e))) with (e + Z.pos p) by lia.
    split; [reflexivity|]. rewrite iter_shr_m by (rewrite shr_m_of_loc; exact Hm).
    rewrite shr_m_of_loc. f_equal. f_equal. lia.
  - replace (Z.max e (fexp64 (Zdigits2 m + e))) with e by lia.
    rewrite Z.sub_diag, shr_m_of_loc. simpl. rewrite Z.div_1_r. auto.
Qed.

Lemma round_nearest_even_bounds (m : Z) (l : location) :
  m <= round_nearest_even m l <= m + 1.
Proof.
  destruct l as [|[| |]]; simpl; try lia. destruct (Z.even m); lia.
Qed.

(** What [binary_round_aux] returns on a mantissa that is not negative. *)
Lemma binary_round_aux_spec (s : bool) (m e : Z) (l : location) :
  0 <= m ->
  match binary_round_aux prec emax s m e l with
  | S754_zero _ => True
  | S754_nan => False
  | S754_infinity _ => ~ (e <= 971 /\ Zdigits2 m + e <= 1023)
  | S754_finite _ m' e' =>
      e' <= Z.max (Z.max e (Zdigits2 m + e - 52)) (-1074)
      /\ (e <= fexp64 (Zdigits2 m + e) -> bounded prec emax m' e' = true)
  end.
Proof.
  intros Hm. unfold binary_round_aux.
  destruct (shr_fexp_spec m e l Hm) as [He1 Hm0].
  destruct (shr_fexp prec emax m e l) as [mrs1 e1]. simpl in He1, Hm0.
  set (k1 := Z.max e (fexp64 (Zdigits2 m + e)) - e) in *.
  assert (Hk1 : 0 <= k1) by (unfold k1; lia).
  assert (Hm0' : 0 <= shr_m mrs1).
  { rewrite Hm0. apply Z.div_pos; [exact Hm|]. apply Z.pow_pos_nonneg; lia. }
  pose proof (round_nearest_even_bounds (shr_m mrs1) (loc_of_shr_record mrs1)) as Hr.
  set (m1 := round_nearest_even (shr_m mrs1) (loc_of_shr_record mrs1)) in *.
  assert (Hm1 : 0 <= m1) by lia.
  destruct (shr_fexp_spec m1 e1 loc_Exact Hm1) as [He2 Hmf].
  destruct (shr_fexp prec emax m1 e1 loc_Exact) as [mrs2 e2]. simpl in He2, Hmf.
  set (k2 := Z.max e1 (fexp64 (Zdigits2 m1 + e1)) - e1) in *.
  assert (Hk2 : 0 <= k2) by (unfold k2; lia).
  assert (HD0 : Zdigits2 (shr_m mrs1) = Z.max 0 (Zdigits2 m - k1)).
  { rewrite Hm0. apply Zdigits2_shiftr; assumption. }
  assert (HD1a : Zdigits2 (shr_m mrs1) <= Zdigits2 m1) by (apply Zdigits2_le; lia).
  assert (HD1b : Zdigits2 m1 <= Zdigits2 (shr_m mrs1) + 1).
  { etransitivity; [apply Zdigits2_le; split; [exact Hm1 | apply Hr]|].
    apply Zdigits2_succ. exact Hm0'. }
  assert (HDf : Zdigits2 (shr_m mrs2) = Z.max 0 (Zdigits2 m1 - k2)).
  { rewrite Hmf. apply Zdigits2_shiftr; assumption. }
  assert (Hmf' : 0 <= shr_m mrs2).
  { rewrite Hmf. apply Z.div_pos; [exact Hm1|]. apply Z.pow_pos_nonneg; lia. }
  unfold fexp64 in *.
  destruct (shr_m mrs2) as [|mf|mf] eqn:Emf; [exact I| |lia].
  assert (HDmf : 1 <= Zdigits2 (Z.pos mf)) by (apply Zdigits2_pos; lia).
  change (emax - prec) with 971.
  destruct (Z.leb_spec e2 971) as [Hle|Hgt].
  - split; [lia|]. intros HP. unfold bounded, canonical_mantissa.
    rewrite fexp_fexp64. unfold fexp64. change (emax - prec) with 971.
    change (Z.pos (digits2_pos mf)) with (Zdigits2 (Z.pos mf)).
    apply andb_true_intro. split; [apply Z.eqb_eq | apply Z.leb_le]; lia.
  - intros [H1 H2]. lia.
Qed.

Lemma tame_round (b : Z) (s : bool) (m e : Z) (l : location) :
  0 <= m -> e <= fexp64 (Zdigits2 m + e) ->
  e <= 971 -> Zdigits2 m + e <= 1023 ->
  Z.max (Z.max e (Zdigits2 m + e - 52)) (-1074) <= b ->
  tame b (binary_round_aux prec emax s m e l).
Proof.
  intros Hm HP He Hd Hb. pose proof (binary_round_aux_spec s m e l Hm) as H.
  destruct (binary_round_aux prec emax s m e l) as [s'|s'| |s' m' e'].
  - split; [reflexivity | exact I].
  - exfalso. apply H. auto.
  - contradiction.
  - destruct H as [H1 H2]. split; [apply H2; exact HP | lia].
Qed.

Lemma SFdiv_tame (a b : positive) :
  Zdigits2 (Z.pos a) <= 63 ->
  tame 11 (SFdiv prec emax (S754_finite false a 0) (S754_finite false b 0)).
Proof.
  intros Ha. unfold SFdiv, SFdiv_core_binary. rewrite fexp_fexp64.
  set (d1 := Zdigits2 (Z.pos a)) in *. set (d2 := Zdigits2 (Z.pos b)).
  assert (Hd1 : 1 <= d1) by (apply Zdigits2_pos; lia).
  assert (Hd2 : 1 <= d2) by (apply Zdigits2_pos; lia).
  replace (d1 + 0 - (d2 + 0)) with (d1 - d2) by lia.
  set (e' := Z.min (fexp64 (d1 - d2)) (0 - 0)).
  assert (He' : e' <= 0) by (unfold e'; lia).
  set (m' := match 0 - 0 - e' with
             | 0 => Z.pos a
             | Z.pos _ => Z.shiftl (Z.pos a) (0 - 0 - e')
             | Z.neg _ => 0
             end).
  assert (Hm' : m' = Z.pos a * 2 ^ (- e')).
  { unfold m'. destruct (0 - 0 - e') as [|p|p] eqn:E; try lia.
    - replace (- e') with 0 by lia. simpl. lia.
    - rewrite Z.shiftl_mul_pow2 by lia. f_equal. f_equal. lia. }
  clearbody m'.
  assert (Hm'pos : 0 < m').
  { rewrite Hm'. apply Z.mul_pos_pos; [lia|]. apply Z.pow_pos_nonneg; lia. }
  assert (HDm' : Zdigits2 m' = d1 - e').
  { rewrite Hm', Zdigits2_mul_pow2 by lia. unfold d1. lia. }
  destruct (Z.div_eucl m' (Z.pos b)) as [q r] eqn:E.
  assert (Hq : q = m' / Z.pos b) by (unfold Z.div; rewrite E; reflexivity).
  assert (Hq0 : 0 <= q) by (rewrite Hq; apply Z.div_pos; lia).
  assert (Hqle : q <= m').
  { rewrite Hq. apply Z.div_le_upper_bound; [lia|]. nia. }
  assert (HDq1 : Zdigits2 q <= d1 - e').
  { rewrite <- HDm'. apply Zdigits2_le. lia. }
  assert (HDq2 : d1 - e' - d2 <= Zdigits2 q).
  { rewrite Hq, <- HDm'. apply Zdigits2_div; lia. }
  apply tame_round; unfold fexp64 in *; unfold e'; try lia.
  all: fold e'; unfold e' in *; lia.
Qed.

Lemma iter_xO (p d : positive) : Z.pos (Pos.iter xO p d) = Z.pos p * 2 ^ Z.pos d.
Proof.
  induction d as [|d IH] using Pos.peano_ind.
  - simpl. lia.
  - rewrite Pos.iter_succ, Pos2Z.inj_xO, IH, Pos2Z.inj_succ, Z.pow_succ_r by lia. lia.
Qed.

Lemma binary_normalize_tame (z : Z) :
  0 <= z < 2 ^ 63 -> tame 11 (binary_normalize prec emax z 0 false).
Proof.
  intros [Hz Hlt]. destruct z as [|p|p]; try lia.
  { split; [reflexivity | exact I]. }
  unfold binary_normalize, binary_round, shl_align. rewrite fexp_fexp64.
  change (Z.pos (digits2_pos p)) with (Zdigits2 (Z.pos p)).
  assert (Hd : Zdigits2 (Z.pos p) <= 63) by (apply Zdigits2_bound; lia).
  assert (Hd1 : 1 <= Zdigits2 (Z.pos p)) by (apply Zdigits2_pos; lia).
  destruct (fexp64 (Zdigits2 (Z.pos p) + 0) - 0) as [|d|d] eqn:E.
  - apply tame_round; unfold fexp64 in *; lia.
  - apply tame_round; unfold fexp64 in *; lia.
  - assert (HD : Zdigits2 (Z.pos (Pos.iter xO p d)) = Zdigits2 (Z.pos p) + Z.pos d).
    { rewrite iter_xO. apply Zdigits2_mul_pow2; lia. }
    apply tame_round; rewrite ?HD; unfold fexp64 in *; lia.
Qed.

Lemma SFmul_tame (x y : spec_float) :
  tame 11 x -> tame 11 y ->
  match SFmul prec emax x y with
  | S754_zero _ | S754_finite _ _ _ => True
  | _ => False
  end.
Proof.
  intros [Vx Hx] [Vy Hy].
  destruct x as [sx|sx| |sx mx ex], y as [sy|sy| |sy my ey]; simpl in Hx, Hy;
    try contradiction; try exact I.
  unfold SFmul. simpl in Vx, Vy. unfold bounded, canonical_mantissa in Vx, Vy.
  apply andb_true_iff in Vx as [Cx _]. apply andb_true_iff in Vy as [Cy _].
  apply Z.eqb_eq in Cx, Cy. rewrite fexp_fexp64 in Cx, Cy. unfold fexp64 in Cx, Cy.
  change (Z.pos (digits2_pos mx)) with (Zdigits2 (Z.pos mx)) in Cx.
  change (Z.pos (digits2_pos my)) with (Zdigits2 (Z.pos my)) in Cy.
  pose proof (Zdigits2_mul (Z.pos mx) (Z.pos my) ltac:(lia) ltac:(lia)) as HD.
  change (Z.pos (mx * my)) with (Z.pos mx * Z.pos my).
  pose proof (binary_round_aux_spec (xorb sx sy) (Z.pos mx * Z.pos my) (ex + ey)
                loc_Exact ltac:(lia)) as H.
  destruct (binary_round_aux prec emax (xorb sx sy) (Z.pos mx * Z.pos my) (ex + ey) loc_Exact);
    try exact I; try contradiction.
  apply H. lia.
Qed.

Lemma tame_SF2Prim (b : Z) (r : spec_float) :
  tame b r -> Prim2SF (SF2Prim r) = r /\ is_infinity (SF2Prim r) = false.
Proof.
  intros [Hv Hr]. pose proof (Prim2SF_SF2Prim r Hv) as E. split; [exact E|].
  unfold is_infinity. rewrite FloatAxioms.eqb_spec, FloatAxioms.abs_spec, E.
  change (Prim2SF infinity) with (S754_infinity false).
  destruct r as [s|s| |s m e]; try contradiction; reflexivity.
Qed.

Lemma float_of_int_total (z : Z) :
  0 <= z < 2 ^ 63 -> exists g, float_of_int z = Ok g /\ tame 11 (Prim2SF g).
Proof.
  intros Hz. unfold float_of_int.
  destruct (tame_SF2Prim 11 _ (binary_normalize_tame z Hz)) as [E Hinf].
  cbv zeta. rewrite Hinf.
  eexists. split; [reflexivity|]. rewrite E. apply binary_normalize_tame. exact Hz.
Qed.

Lemma int_truediv_total (a b : Z) :
  0 < a < 2 ^ 63 -> 0 < b -> exists f, int_truediv a b = Ok f /\ tame 11 (Prim2SF f).
Proof.
  intros Ha Hb. unfold int_truediv.
  destruct (Z.eqb_spec b 0) as [->|_]; [lia|].
  destruct a as [|pa|pa]; try lia. destruct b as [|pb|pb]; try lia. simpl SF_of_int.
  assert (Ht : tame 11 (SFdiv prec emax (S754_finite false pa 0) (S754_finite false pb 0))).
  { apply SFdiv_tame. apply Zdigits2_bound; lia. }
  destruct (tame_SF2Prim 11 _ Ht) as [E Hinf]. cbv zeta. rewrite Hinf.
  eexists. split; [reflexivity|]. rewrite E. exact Ht.
Qed.

Lemma float_mul_int_total (f : float) (z : Z) :
  tame 11 (Prim2SF f) -> 0 <= z < 2 ^ 63 ->
  exists k, (g <- float_mul_int f z ;; int_of_float g) = Ok k.
Proof.
  intros Hf Hz. unfold float_mul_int.
  destruct (float_of_int_total z Hz) as (g & -> & Hg). simpl.
  unfold int_of_float. rewrite FloatAxioms.mul_spec. unfold SF64mul.
  pose proof (SFmul_tame _ _ Hf Hg) as H.
  destruct (SFmul prec emax (Prim2SF f) (Prim2SF g)); try contradiction; eauto.
Qed.

Lemma mapM_total {A B : Type} (f : A -> result B) (l : list A) :
  (forall a, In a l -> exists b, f a = Ok b) ->
  exists bs, mapM f l = Ok bs /\ length bs = length l.
Proof.
  induction l as [|a l IH]; simpl; intros H; [eauto|].
  destruct (H a) as (b & ->); [auto|].
  destruct IH as (bs & -> & Hlen); [auto|].
  simpl. eexists. split; [reflexivity|]. simpl. congruence.
Qed.

(** The distances of the input nodes are computed, whatever the count of
    inputs: the division, the products and the conversions raise nothing. *)
Lemma input_node_offsets_total (h : Z) (n : nat) :
  0 < h < 2 ^ 63 -> Z.of_nat n < 2 ^ 62 ->
  exists ks, input_node_offsets h n = Ok ks /\ length ks = n.
Proof.
  intros Hh Hn. unfold input_node_offsets.
  destruct (int_truediv_total h (Z.of_nat n + 1) Hh ltac:(lia)) as (f & -> & Hf).
  simpl.
  destruct (mapM_total
              (fun i : nat => g <- float_mul_int f (Z.of_nat i + 1) ;; int_of_float g)
              (seq 0 n)) as (ks & Hks & Hlen).
  { intros i Hi. apply in_seq in Hi. apply float_mul_int_total; [exact Hf|].
    assert (2 ^ 62 < 2 ^ 63) by (apply Z.pow_lt_mono_r; lia). lia. }
  exists ks. split; [exact Hks|]. rewrite Hlen. apply length_seq.
Qed.

Lemma p_update_node_positions_total (p : Perceptron) :
  0 < rect_h (rect (p_base p)) < 2 ^ 63 -> Z.of_nat (p_num_inputs p) < 2 ^ 62 ->
  exists ks, p_update_node_positions p = Ok (p_geometry_of p ks)
             /\ length ks = p_num_inputs p.
Proof.
  intros Hh Hn. rewrite p_update_node_positions_eq.
  destruct (input_node_offsets_total _ _ Hh Hn) as (ks & -> & Hlen).
  exists ks. split; [reflexivity | exact Hlen].
Qed.

(** * The properties of the specification *)

(** ** Construction *)

(** C8: at a position on the canvas, an explicit weights sequence whose
    length differs from the input count of the Perceptron (the requested
    count, raised to 1 when it is less) makes the constructor raise
    ValueError: nothing is cut or padded.  With the same length the
    constructor returns, however many the weights (a Python list holds fewer
    than [2 ^ 62]), a Perceptron that holds exactly the given weights and as
    many inputs, all of them empty, with a body that holds 32-bit
    integers. *)
Theorem Perceptron_init_weights_length (x y num_inputs : Z) (ws : list float)
    (bias : option float) (rnd : nat -> float) :
  let n := Z.to_nat (Z.max 1 num_inputs) in
  let r := Perceptron_init x y num_inputs (Some ws) bias rnd in
  on_canvas x y -> Z.of_nat (length ws) < 2 ^ 62 ->
  (length ws <> n -> r = Raise ValueError)
  /\ (length ws = n ->
      exists p, r = Ok p
                /\ p_weights p = ws
                /\ p_num_inputs p = length ws
                /\ p_input_connections p = repeat None (length ws)
                /\ p_input_values p = repeat 0 (length ws)
                /\ p_output_value p = 0
                /\ rect (p_base p) = mkRect x y 60 80
                /\ rect_fits (rect (p_base p))).
Proof.
  intros n r Hcanvas Hlen. subst r n. unfold Perceptron_init.
  assert (Hfit : rect_fits (mkRect x y 60 80)).
  { destruct Hcanvas as [Hx Hy]. change (2 ^ 30) with 1073741824 in Hx, Hy.
    unfold rect_fits, c_int, int_min, int_max. simpl. lia. }
  split.
  - intros Hne.
    destruct (Nat.eqb_spec (length ws) (Z.to_nat (Z.max 1 num_inputs))) as [E|_];
      [contradiction | reflexivity].
  - intros Heq. rewrite <- Heq, Nat.eqb_refl. simpl bind.
    set (q := mkPerceptron _ _ _ _ _ _ _ _ _ _ _ _ _).
    destruct (p_update_node_positions_total q) as (ks & -> & _).
    { split; reflexivity. }
    { exact Hlen. }
    eexists. split; [reflexivity|]. simpl. auto 10.
Qed.

Lemma Perceptron_init_weights_length_witness :
  exists p, Perceptron_init 200 100 9 (Some (repeat 1%float 9)) (Some (-1.5)%float)
              (fun _ => 0%float) = Ok p
            /\ p_weights p = repeat 1%float 9
            /\ p_num_inputs p = 9%nat.
Proof.
  assert (Hc : on_canvas 200 100) by (unfold on_canvas; simpl; lia).
  assert (Hl : Z.of_nat (length (repeat 1%float 9)) < 2 ^ 62) by reflexivity.
  destruct (Perceptron_init_weights_length 200 100 9 (repeat 1%float 9)
              (Some (-1.5)%float) (fun _ => 0%float) Hc Hl) as [_ H].
  destruct (H eq_refl) as (p & Hp & Hw & Hn & _).
  exists p. split; [exact Hp|]. split; [exact Hw | exact Hn].
Defined.

(** C9: at a position on the canvas the constructor raises the requested
    input count to at least 1, and it is the raised count that an explicit
    weights sequence is checked against.  Whatever is returned has
    [max(1, num_inputs)] inputs; for every request of at most 1, also 0 and
    the negative ones, the constructor returns a Perceptron with one input,
    without weights given and with one weight given, and raises ValueError
    for every other sequence, the empty one of a request for 0 inputs
    included.  For every request (below [2 ^ 62], as a Python list holds
    fewer) the constructor returns a Perceptron with [max(1, num_inputs)]
    inputs when no weights are given and when as many weights are given,
    and raises ValueError for any other number of weights. *)
Theorem Perceptron_init_clamps (x y num_inputs : Z) (weights : option (list float))
    (bias : option float) (rnd : nat -> float) :
  on_canvas x y ->
  (forall p, Perceptron_init x y num_inputs weights bias rnd = Ok p ->
     Z.of_nat (p_num_inputs p) = Z.max 1 num_inputs
     /\ match weights with
        | Some ws => Z.of_nat (length ws) = Z.max 1 num_inputs /\ p_weights p = ws
        | None => True
        end)
  /\ (num_inputs <= 1 ->
      (exists p, Perceptron_init x y num_inputs None bias rnd = Ok p
                 /\ p_num_inputs p = 1%nat /\ p_weights p = [rnd 0%nat]
                 /\ p_input_connections p = [None] /\ p_input_values p = [0])
      /\ (forall w, exists p,
            Perceptron_init x y num_inputs (Some [w]) bias rnd = Ok p
            /\ p_num_inputs p = 1%nat /\ p_weights p = [w]
            /\ p_input_connections p = [None] /\ p_input_values p = [0])
      /\ (forall ws, length ws <> 1%nat ->
            Perceptron_init x y num_inputs (Some ws) bias rnd = Raise ValueError))
  /\ (Z.max 1 num_inputs < 2 ^ 62 ->
      (exists p, Perceptron_init x y num_inputs None bias rnd = Ok p
                 /\ Z.of_nat (p_num_inputs p) = Z.max 1 num_inputs
                 /\ p_weights p = map rnd (seq 0 (p_num_inputs p))
                 /\ rect_fits (rect (p_base p)))
      /\ (forall ws, Z.of_nat (length ws) = Z.max 1 num_inputs ->
            exists p, Perceptron_init x y num_inputs (Some ws) bias rnd = Ok p
                      /\ Z.of_nat (p_num_inputs p) = Z.max 1 num_inputs
                      /\ p_weights p = ws
                      /\ rect_fits (rect (p_base p)))
      /\ (forall ws, Z.of_nat (length ws) <> Z.max 1 num_inputs ->
            Perceptron_init x y num_inputs (Some ws) bias rnd = Raise ValueError)).
Proof.
  intros Hcanvas.
  assert (Hfit : rect_fits (mkRect x y 60 80)).
  { destruct Hcanvas as [Hx Hy]. change (2 ^ 30) with 1073741824 in Hx, Hy.
    unfold rect_fits, c_int, int_min, int_max. simpl. lia. }
  split; [|split].
  - intros p Hp. unfold Perceptron_init in Hp.
    apply bind_Ok in Hp as (ws' & Hws & Hp).
    rewrite p_update_node_positions_eq in Hp. inv_ok. simpl.
    split; [lia|]. destruct weights as [ws|]; [|exact I].
    destruct (Nat.eqb_spec (length ws) (Z.to_nat (Z.max 1 num_inputs))) as [E|E];
      inv_ok. split; [lia | reflexivity].
  - intros Hle.
    assert (Hn : Z.to_nat (Z.max 1 num_inputs) = 1%nat) by lia.
    unfold Perceptron_init. rewrite Hn. split; [|split].
    + simpl bind. set (q := mkPerceptron _ _ _ _ _ _ _ _ _ _ _ _ _).
      destruct (p_update_node_positions_ok q) as (ks & -> & _).
      { simpl. lia. } { reflexivity. }
      eexists. split; [reflexivity|]. simpl. auto.
    + intros w. simpl bind. set (q := mkPerceptron _ _ _ _ _ _ _ _ _ _ _ _ _).
      destruct (p_update_node_positions_ok q) as (ks & -> & _).
      { simpl. lia. } { reflexivity. }
      eexists. split; [reflexivity|]. simpl. auto.
    + intros ws Hne. destruct (Nat.eqb_spec (length ws) 1) as [E|_]; [contradiction|].
      reflexivity.
  - intros Hlt. unfold Perceptron_init.
    assert (Hn : Z.of_nat (Z.to_nat (Z.max 1 num_inputs)) = Z.max 1 num_inputs) by lia.
    split; [|split].
    + simpl bind. set (q := mkPerceptron _ _ _ _ _ _ _ _ _ _ _ _ _).
      destruct (p_update_node_positions_total q) as (ks & -> & _).
      { split; reflexivity. }
      { simpl. lia. }
      eexists. split; [reflexivity|]. simpl. auto.
    + intros ws Hlen.
      assert (E : length ws = Z.to_nat (Z.max 1 num_inputs)) by lia.
      rewrite <- E, Nat.eqb_refl. simpl bind.
      set (q := mkPerceptron _ _ _ _ _ _ _ _ _ _ _ _ _).
      destruct (p_update_node_positions_total q) as (ks & -> & _).
      { split; reflexivity. }
      { simpl. lia. }
      eexists. split; [reflexivity|]. simpl. split; [lia|]. auto.
    + intros ws Hne.
      destruct (Nat.eqb_spec (length ws) (Z.to_nat (Z.max 1 num_inputs))) as [E|_];
        [lia | reflexivity].
Qed.

Lemma Perceptron_init_clamps_witness :
  (exists p, Perceptron_init 200 100 (-3) None None (fun _ => 0.5%float) = Ok p
             /\ p_num_inputs p = 1%nat /\ p_weights p = [0.5%float])
  /\ (exists p, Perceptron_init 200 100 0 (Some [2%float]) None (fun _ => 0.5%float) = Ok p
                /\ p_num_inputs p = 1%nat /\ p_weights p = [2%float])
  /\ Perceptron_init 200 100 0 (Some []) None (fun _ => 0.5%float) = Raise ValueError
  /\ (exists p, Perceptron_init 200 100 12 None None (fun _ => 0.5%float) = Ok p
                /\ Z.of_nat (p_num_inputs p) = 12).
Proof.
  assert (Hc : on_canvas 200 100) by (unfold on_canvas; simpl; lia).
  split; [|split; [|split]].
  - destruct (Perceptron_init_clamps 200 100 (-3) None None (fun _ => 0.5%float) Hc)
      as (_ & H & _).
    destruct (H ltac:(lia)) as ((p & Hp & Hn & Hw & _) & _). exists p. auto.
  - destruct (Perceptron_init_clamps 200 100 0 None None (fun _ => 0.5%float) Hc)
      as (_ & H & _).
    destruct (H ltac:(lia)) as (_ & H1 & _).
    destruct (H1 2%float) as (p & Hp & Hn & Hw & _). exists p. auto.
  - destruct (Perceptron_init_clamps 200 100 0 None None (fun _ => 0.5%float) Hc)
      as (_ & H & _).
    destruct (H ltac:(lia)) as (_ & _ & H2). apply H2. simpl. lia.
  - destruct (Perceptron_init_clamps 200 100 12 None None (fun _ => 0.5%float) Hc)
      as (_ & _ & H).
    destruct (H ltac:(reflexivity)) as ((p & Hp & Hn & _) & _). exists p. auto.
Defined.

(** ** Evaluation of one Perceptron *)

(** C2: for a Perceptron with as many weights as inputs, whose sources hold
    0 or 1, one evaluation raises nothing, reads at every input the output
    value of the source in the slot (0 for an empty slot), and sets the
    output to 1 when the weighted sum of the inputs plus the bias is at
    least 0 and to 0 otherwise.  With weights [1, 1] and bias -1.5 on two
    sources this is the logical AND: (1,1) gives 1, (1,0) gives 0 and (0,0)
    gives 0. *)
Theorem calculate_output_threshold (objs : list Obj) (p : Perceptron) :
  length (p_weights p) = p_num_inputs p ->
  outputs_are_bits objs ->
  exists p',
    calculate_output objs p = Ok p'
    /\ length (p_input_values p') = p_num_inputs p
    /\ (forall i, (i < p_num_inputs p)%nat ->
          p_input_values p' !! i
          = Some (match p_input_connections p !! i with
                  | Some (Some s) => getattr_output_value objs s
                  | _ => 0
                  end))
    /\ p_output_value p'
       = (if (0 <=? spec_weighted_sum (p_weights p) (p_input_values p') (p_bias p))%float
          then 1 else 0)
    /\ (forall sa sb a b,
          p_weights p = [1%float; 1%float] -> p_bias p = (-1.5)%float ->
          p_input_connections p = [Some sa; Some sb] ->
          getattr_output_value objs sa = a -> getattr_output_value objs sb = b ->
          (a = 1 -> b = 1 -> p_output_value p' = 1)
          /\ (a = 1 -> b = 0 -> p_output_value p' = 0)
          /\ (a = 0 -> b = 0 -> p_output_value p' = 0)).
Proof.
  intros Hlen Hbits. exists (evaluated objs p).
  split; [apply calculate_output_eq; exact Hbits|].
  split; [simpl; apply length_gather_inputs|].
  split; [|split].
  - intros i Hi. simpl. unfold gather_inputs.
    rewrite list_lookup_fmap, lookup_seq_lt by exact Hi. simpl.
    unfold input_value_at, read_source.
    destruct (p_input_connections p !! i) as [[s|]|]; reflexivity.
  - simpl. rewrite repaired_weights_id by exact Hlen. reflexivity.
  - intros sa sb a b Hw Hb Hics Ha Hb'. simpl.
    rewrite repaired_weights_id by exact Hlen.
    rewrite Hw in Hlen. simpl in Hlen.
    unfold gather_inputs, input_value_at. rewrite <- Hlen, Hics, Hw, Hb. simpl.
    rewrite Ha, Hb'.
    repeat split; intros -> ->; vm_compute; reflexivity.
Qed.

Lemma calculate_output_threshold_witness :
  exists p',
    calculate_output
      [OSwitch (s_toggle (Switch_init 50 50)); OSwitch (Switch_init 50 150)]
      (mkPerceptron (DraggableObject_init 200 100 60 80) 2 [1%float; 1%float]
         (-1.5)%float 0 [0; 0] [Some 0%nat; Some 1%nat]
         (mkRect 0 0 15 15) (mkRect 0 0 15 15) [] (0, 0) [] (mkRect 0 0 0 0))
    = Ok p'
    /\ p_input_values p' = [1; 0]
    /\ p_output_value p' = 0.
Proof.
  set (objs := [OSwitch (s_toggle (Switch_init 50 50)); OSwitch (Switch_init 50 150)]).
  set (p := mkPerceptron _ _ _ _ _ _ _ _ _ _ _ _ _).
  assert (Hbits : outputs_are_bits objs).
  { intros [|[|s]]; vm_compute; auto. }
  destruct (calculate_output_threshold objs p eq_refl Hbits)
    as (p' & Hcalc & Hlen & Hvals & _ & Hand).
  exists p'. split; [exact Hcalc|]. split.
  - pose proof (Hvals 0%nat ltac:(simpl; lia)) as H0.
    pose proof (Hvals 1%nat ltac:(simpl; lia)) as H1.
    simpl in Hlen, H0, H1.
    destruct (p_input_values p') as [|v0 [|v1 [|v2 vs]]]; try discriminate.
    simpl in H0, H1. inversion H0. inversion H1. reflexivity.
  - destruct (Hand 0%nat 1%nat 1 0 eq_refl eq_refl eq_refl eq_refl eq_refl) as (_ & H10 & _).
    apply H10; reflexivity.
Defined.

(** ** The count of inputs *)

(** C5, as the code has it: the constructor raises a requested count below
    1 to 1 and takes any larger count as it is.  From a Perceptron with
    between 1 and 8 inputs and as many weights and slots as inputs (what the
    constructor returns for a request of at most 8), after any sequence of
    clicks on the '+' and '-' buttons the count of inputs is still between 1
    and 8 and the weights and the slots are as many as the inputs; every
    such click is handled, and '+' at 8 inputs and '-' at 1 input change
    nothing. *)
Theorem num_inputs_within_limits (self : nat) (p : Perceptron) (conns : list Connection) :
  p_ok p ->
  (forall p' conns',
     rtc (resize self) (p, conns) (p', conns') ->
     (1 <= p_num_inputs p' <= 8)%nat
     /\ length (p_weights p') = p_num_inputs p'
     /\ length (p_input_connections p') = p_num_inputs p'
     /\ p_ok p')
  /\ (forall u ev gs, on_plus p ev \/ on_minus p ev ->
        exists p' conns',
          Perceptron_handle_event self u p ev gs conns = Ok (true, p', gs, conns'))
  /\ (forall u ev gs, on_plus p ev -> p_num_inputs p = 8%nat ->
        Perceptron_handle_event self u p ev gs conns = Ok (true, p, gs, conns))
  /\ (forall u ev gs, on_minus p ev -> p_num_inputs p = 1%nat ->
        Perceptron_handle_event self u p ev gs conns = Ok (true, p, gs, conns))
  /\ (forall x y num_inputs weights bias rnd p0,
        num_inputs <= 8 ->
        Perceptron_init x y num_inputs weights bias rnd = Ok p0 -> p_ok p0).
Proof.
  intros Hok. split; [|split; [|split; [|split]]];
    [| | | |intros x y n weights bias rnd p0; apply Perceptron_init_ok].
  - intros p' conns' Hrtc.
    pose proof (resize_rtc_ok self _ _ Hrtc Hok) as Hok'. simpl in Hok'.
    destruct Hok' as [H1 H8 Hw Hv Hc Hr Hh Ho]. repeat split; auto.
  - intros u ev gs [Hplus | Hminus].
    + rewrite (handle_plus self u p ev gs conns Hplus).
      destruct (Nat.ltb_spec (p_num_inputs p) max_inputs) as [Hlt|Hge]; [|eauto].
      destruct (increment_inputs_ok u p Hok Hlt) as (p' & -> & _). simpl. eauto.
    + rewrite (handle_minus self u p ev gs conns Hminus).
      destruct (Nat.ltb_spec min_inputs (p_num_inputs p)) as [Hlt|Hge]; [|eauto].
      destruct (decrement_inputs_ok self p conns Hok Hlt)
        as (p' & ws & w & ics & src & -> & _). simpl. eauto.
  - intros u ev gs Hplus Hn. rewrite (handle_plus self u p ev gs conns Hplus), Hn.
    reflexivity.
  - intros u ev gs Hminus Hn. rewrite (handle_minus self u p ev gs conns Hminus), Hn.
    reflexivity.
Qed.

Lemma num_inputs_within_limits_witness :
  exists p p' : Perceptron,
    Perceptron_init 200 100 2 None None (fun _ => 0.5%float) = Ok p
    /\ rtc (resize 2) (p, []) (p', [])
    /\ p_num_inputs p' = 3%nat
    /\ length (p_weights p') = p_num_inputs p'
    /\ length (p_input_connections p') = p_num_inputs p'.
Proof.
  destruct (Perceptron_init 200 100 2 None None (fun _ => 0.5%float)) as [p|e] eqn:Hp;
    [|vm_compute in Hp; discriminate Hp].
  assert (Hok : p_ok p).
  { eapply Perceptron_init_ok; [|exact Hp]. lia. }
  vm_compute in Hp. inversion Hp as [Ep]. clear Hp.
  eexists p, _. rewrite <- Ep. split; [reflexivity|].
  assert (Hrtc : rtc (resize 2) (p, [])
            (snd (fst (fst (match Perceptron_handle_event 2 0.25%float p
                                    (MOUSEBUTTONDOWN 1 (245, 105)) reset_state []
                            with Ok r => r | Raise _ => (false, p, reset_state, []) end))),
             [])).
  { eapply rtc_l; [|apply rtc_refl].
    eapply resize_click with (u := 0.25%float) (ev := MOUSEBUTTONDOWN 1 (245, 105))
                             (gs := reset_state).
    - left. exists (245, 105). split; [reflexivity|]. rewrite <- Ep. reflexivity.
    - rewrite <- Ep. vm_compute. reflexivity. }
  destruct (num_inputs_within_limits 2 p [] Hok) as [Hseq _].
  destruct (Hseq _ _ Hrtc) as (_ & Hw & Hc & _).
  rewrite <- Ep in Hrtc, Hw, Hc.
  split; [exact Hrtc|]. split; [reflexivity|]. split; [exact Hw | exact Hc].
Defined.

(** C5 as stated fails: the constructor asked for 9 inputs returns a
    Perceptron with 9 inputs, and a click on its '+' button leaves it so. *)
Lemma nine_inputs_from_constructor :
  exists p : Perceptron,
    Perceptron_init 200 100 9 None None (fun _ => 0.5%float) = Ok p
    /\ p_num_inputs p = 9%nat
    /\ length (p_weights p) = 9%nat
    /\ collidepoint (p_plus_button_rect p) (245, 105) = true
    /\ Perceptron_handle_event 0 0.25%float p (MOUSEBUTTONDOWN 1 (245, 105))
         reset_state [] = Ok (true, p, reset_state, []).
Proof.
  eexists. split; [vm_compute; reflexivity|]. repeat split; reflexivity.
Qed.



(** ** The connections *)

(** C1: in every state of the program no two entries of [connections] end
    at the same input of the same object.  When the pointer is released
    while a connection is being drawn, over an input that already holds a
    source, the entry of that input gets the new source where it stands and
    the list keeps its length. *)
Theorem one_entry_per_input (rnd1 rnd2 : nat -> float) (w : World) :
  reachable rnd1 rnd2 w ->
  (forall i j c1 c2,
     connections w !! i = Some c1 -> connections w !! j = Some c2 ->
     (target_obj c1, target_input_idx c1) = (target_obj c2, target_input_idx c2) ->
     i = j)
  /\ (forall u button pt t k old,
        is_drawing_connection (global_connection_state w) = true ->
        find_target (all_objects w) pt = Some (t, k) ->
        slot (all_objects w) t k = Some old ->
        exists w' s l1 l2,
          process_event u (MOUSEBUTTONUP button pt) w = Ok w'
          /\ connection_start_obj (global_connection_state w) = Some s
          /\ connections w = l1 ++ mkConnection old t k :: l2
          /\ connections w' = l1 ++ mkConnection s t k :: l2
          /\ length (connections w') = length (connections w)
          /\ slot (all_objects w') t k = Some s).
Proof.
  intros Hreach. pose proof (reachable_ok _ _ _ Hreach) as [Hobjs Hreg Hdraw].
  split.
  - intros i j c1 c2 Hi Hj Hk.
    eapply NoDup_lookup; [exact (registry_nodup _ _ Hreg) | |].
    + rewrite list_lookup_fmap, Hi. reflexivity.
    + rewrite list_lookup_fmap, Hj. simpl. f_equal. symmetry. exact Hk.
  - intros u button pt t k old Hd Ht Hold.
    unfold process_event. rewrite Hd. unfold finalize_connection. rewrite Ht.
    destruct (Hdraw Hd) as [s Hs]. rewrite Hs.
    pose proof (slots_registry _ _ Hreg _ _ _ Hold) as Hin.
    destruct (update_connections_cases s t k (connections w))
      as [[Hall _] | (l1 & c & l2 & E & Hc & _ & Hupd)].
    { rewrite Forall_forall in Hall. destruct (Hall _ Hin). reflexivity. }
    assert (Hc' : c = mkConnection old t k).
    { symmetry. pose proof (registry_nodup _ _ Hreg) as Hnd. rewrite E in Hnd, Hin.
      eapply NoDup_keys_unique; eauto. }
    subst c. eexists _, s, l1, l2. split; [reflexivity|]. simpl.
    split; [reflexivity|]. split; [exact E|]. split; [exact Hupd|]. split.
    + rewrite Hupd, E, !length_app. reflexivity.
    + apply find_target_Some in Ht as (o & Ho & Hhit).
      erewrite slot_connect; [|exact Ho|].
      * rewrite decide_True by reflexivity. reflexivity.
      * eapply hit_input_slot; [|exact Hhit].
        rewrite Forall_forall in Hobjs. apply Hobjs. eapply list_elem_of_lookup_2. exact Ho.
Qed.

Lemma one_entry_per_input_witness :
  exists w w' : World,
    (w0 <- initial_world (fun _ => 0.5%float) (fun _ => 0.5%float) ;;
     process_events [(0%float, MOUSEBUTTONDOWN 1 (96, 70));
                     (0%float, MOUSEBUTTONUP 1 (195, 126));
                     (0%float, MOUSEBUTTONDOWN 1 (96, 170))] w0) = Ok w
    /\ connections w = [mkConnection 0 2 0]
    /\ process_event 0%float (MOUSEBUTTONUP 1 (195, 126)) w = Ok w'
    /\ connections w' = [mkConnection 1 2 0].
Proof.
  evar (w : World).
  assert (Hrun : (w0 <- initial_world (fun _ => 0.5%float) (fun _ => 0.5%float) ;;
                  process_events [(0%float, MOUSEBUTTONDOWN 1 (96, 70));
                                  (0%float, MOUSEBUTTONUP 1 (195, 126));
                                  (0%float, MOUSEBUTTONDOWN 1 (96, 170))] w0) = Ok w).
  { vm_compute. subst w. reflexivity. }
  destruct (one_entry_per_input _ _ w (reachable_run _ _ _ _ Hrun)) as [_ H].
  destruct (H 0%float 1 (195, 126) 2%nat 0%nat 0%nat eq_refl eq_refl eq_refl)
    as (w' & s & l1 & l2 & Hev & Hs & E & E' & _).
  exists w, w'. split; [exact Hrun|]. split; [reflexivity|]. split; [exact Hev|].
  rewrite E'. inversion Hs as [Es]. clear Hs.
  destruct l1 as [|c l1].
  - inversion E as [El2]. reflexivity.
  - apply (f_equal length) in E. simpl in E. rewrite length_app in E. simpl in E. lia.
Defined.

(** C7: a pointer-up while a connection is being drawn, at a position inside
    the node of no input, changes neither an object nor the connections;
    whenever the handling of such a pointer-up returns, over a node or not,
    the connection-drawing state is back to not drawing, no start object, no
    start position; and it does return when the drawing has its start
    object. *)
Theorem pointer_up_resets_drawing (u : float) (button : Z) (pt : pos) (w : World) :
  is_drawing_connection (global_connection_state w) = true ->
  (no_input_port_at (all_objects w) pt ->
     process_event u (MOUSEBUTTONUP button pt) w
     = Ok (mkWorld (running w) (all_objects w) (connections w)
             (mkGlobalState false None None)))
  /\ (forall w', process_event u (MOUSEBUTTONUP button pt) w = Ok w' ->
        global_connection_state w' = mkGlobalState false None None)
  /\ (is_Some (connection_start_obj (global_connection_state w)) ->
        exists w', process_event u (MOUSEBUTTONUP button pt) w = Ok w').
Proof.
  intros Hd. unfold process_event. rewrite Hd. unfold finalize_connection.
  split; [|split].
  - intros Hno. rewrite (no_input_port_no_target _ _ Hno). reflexivity.
  - intros w' H. destruct (find_target _ _) as [[t i]|].
    + destruct (connection_start_obj _); inv_ok. reflexivity.
    + inv_ok. reflexivity.
  - intros [s Hs]. rewrite Hs. destruct (find_target _ _) as [[t i]|]; eauto.
Qed.

Lemma pointer_up_resets_drawing_witness :
  exists w : World,
    (w0 <- initial_world (fun _ => 0.5%float) (fun _ => 0.5%float) ;;
     process_events [(0%float, MOUSEBUTTONDOWN 1 (96, 70))] w0) = Ok w
    /\ global_connection_state w = mkGlobalState true (Some 0%nat) (Some (96, 70))
    /\ process_event 0%float (MOUSEBUTTONUP 1 (300, 300)) w
       = Ok (mkWorld (running w) (all_objects w) (connections w)
               (mkGlobalState false None None)).
Proof.
  evar (w : World).
  assert (Hrun : (w0 <- initial_world (fun _ => 0.5%float) (fun _ => 0.5%float) ;;
                  process_events [(0%float, MOUSEBUTTONDOWN 1 (96, 70))] w0) = Ok w).
  { vm_compute. subst w. reflexivity. }
  exists w. split; [exact Hrun|]. split; [reflexivity|].
  destruct (pointer_up_resets_drawing 0%float 1 (300, 300) w eq_refl) as [H _].
  apply H. intros o r Ho Hr.
  repeat (apply elem_of_cons in Ho as [->|Ho];
          [simpl in Hr;
           repeat (apply elem_of_cons in Hr as [->|Hr]; [reflexivity|]);
           inversion Hr|]).
  inversion Ho.
Defined.

(** ** Dragging and drawing *)

(** C6, as the code has it: the dragging flags are kept per object.  The
    handling of one event sets the flag of at most one object, and of none
    unless the event is a pointer-down; the evaluation passes change no
    flag.  So when no pointer-down arrives while an object is being dragged,
    at most one object is being dragged in every state.  The drawing of a
    connection is one record: in every state of the program one that is in
    progress has its one start object. *)
Theorem one_drag_per_pointer_down :
  (forall u ev w w',
     process_event u ev w = Ok w' ->
     (dragging_count (all_objects w') <= dragging_count (all_objects w) + 1)%nat
     /\ (is_pointer_down ev = false ->
         (dragging_count (all_objects w') <= dragging_count (all_objects w))%nat))
  /\ (forall w w',
        tick w = Ok w' ->
        dragging_count (all_objects w') = dragging_count (all_objects w))
  /\ (forall rnd1 rnd2 w,
        reachable_one_at_a_time rnd1 rnd2 w ->
        (dragging_count (all_objects w) <= 1)%nat)
  /\ (forall rnd1 rnd2 w,
        reachable rnd1 rnd2 w ->
        is_drawing_connection (global_connection_state w) = true ->
        exists s, connection_start_obj (global_connection_state w) = Some s).
Proof.
  split; [|split; [|split]].
  - intros u ev w w' H. apply (process_event_drag u ev w w' H).
  - intros w w' H. apply tick_drag. exact H.
  - intros rnd1 rnd2 w H.
    induction H as [w Hinit | u ev w w' _ IH Hdown Hev | w w' _ IH Ht].
    + vm_compute in Hinit. inv_ok. vm_compute. lia.
    + apply process_event_drag in Hev as [H1 H2].
      destruct (is_pointer_down ev) eqn:Ed.
      * rewrite (Hdown eq_refl) in H1. lia.
      * specialize (H2 eq_refl). lia.
    + rewrite (tick_drag _ _ Ht). exact IH.
  - intros rnd1 rnd2 w H Hd. apply reachable_ok in H. apply (drawing_source _ H Hd).
Qed.

Lemma one_drag_per_pointer_down_witness :
  exists w0 w : World,
    initial_world (fun _ => 0.5%float) (fun _ => 0.5%float) = Ok w0
    /\ process_event 0%float (MOUSEBUTTONDOWN 1 (600, 100)) w0 = Ok w
    /\ map dragging (all_objects w) = [false; false; false; false; true; false]
    /\ (dragging_count (all_objects w) <= 1)%nat.
Proof.
  evar (w0 : World).
  assert (H0 : initial_world (fun _ => 0.5%float) (fun _ => 0.5%float) = Ok w0).
  { vm_compute. subst w0. reflexivity. }
  evar (w : World).
  assert (Hw : process_event 0%float (MOUSEBUTTONDOWN 1 (600, 100)) w0 = Ok w).
  { vm_compute. subst w. reflexivity. }
  exists w0, w. split; [exact H0|]. split; [exact Hw|]. split; [reflexivity|].
  destruct one_drag_per_pointer_down as (_ & _ & H & _).
  apply (H (fun _ => 0.5%float) (fun _ => 0.5%float) w).
  eapply one_event; [apply one_init; exact H0 | reflexivity | exact Hw].
Defined.

(** C6 as stated fails: the left button goes down on the first light, the
    pointer moves it onto the second light, and the right button goes down
    there; both lights are then being dragged. *)
Lemma two_objects_dragged :
  exists w : World,
    (w0 <- initial_world (fun _ => 0.5%float) (fun _ => 0.5%float) ;;
     process_events [(0%float, MOUSEBUTTONDOWN 1 (600, 100));
                     (0%float, MOUSEMOTION (600, 250));
                     (0%float, MOUSEBUTTONDOWN 3 (600, 250))] w0) = Ok w
    /\ map dragging (all_objects w) = [false; false; false; false; true; true]
    /\ dragging_count (all_objects w) = 2%nat.
Proof.
  eexists. split; [vm_compute; reflexivity|]. split; reflexivity.
Qed.

(** ** The order of evaluation *)

(** C3, as the code has it: during one tick the Perceptron at position [q]
    reads, at an input whose slot refers to the object at position [p], the
    output value that object has after the tick when [p] comes before [q] in
    the entity list, and the value it had before the tick otherwise.  In the
    chain Switch -> P -> Q with P before Q in the list, flipping the switch
    shows on P and on Q in the same tick; with Q before P it shows on P in
    that tick and on Q in the next one. *)
Theorem tick_reads_in_list_order :
  (forall (w w' : World) (q p i : nat) (Q Q' : Perceptron),
     tick w = Ok w' ->
     all_objects w !! q = Some (OPerceptron Q) ->
     all_objects w' !! q = Some (OPerceptron Q') ->
     (i < p_num_inputs Q)%nat ->
     p_input_connections Q !! i = Some (Some p) ->
     p_input_values Q' !! i
     = Some (getattr_output_value (all_objects (if (p <? q)%nat then w' else w)) p))
  /\ (exists w0 w1 w2,
        chain_P_first = Ok w0
        /\ process_event 0%float flip_switch w0 = Ok w1
        /\ tick w1 = Ok w2
        /\ outputs_at w0 [0; 1; 2]%nat = [0; 0; 0]
        /\ outputs_at w2 [0; 1; 2]%nat = [1; 1; 1])
  /\ (exists w0 w1 w2 w3,
        chain_Q_first = Ok w0
        /\ process_event 0%float flip_switch w0 = Ok w1
        /\ tick w1 = Ok w2
        /\ tick w2 = Ok w3
        /\ outputs_at w0 [0; 1; 2]%nat = [0; 0; 0]
        /\ outputs_at w2 [0; 1; 2]%nat = [1; 0; 1]
        /\ outputs_at w3 [0; 1; 2]%nat = [1; 1; 1]).
Proof.
  split; [|split].
  - intros w w' q p i Q Q'. apply tick_reads.
  - eexists _, _, _. split; [vm_compute; reflexivity|].
    split; [vm_compute; reflexivity|]. split; [vm_compute; reflexivity|].
    split; reflexivity.
  - eexists _, _, _, _. split; [vm_compute; reflexivity|].
    split; [vm_compute; reflexivity|]. split; [vm_compute; reflexivity|].
    split; [vm_compute; reflexivity|]. repeat split; reflexivity.
Qed.

Lemma tick_reads_in_list_order_witness :
  exists (w w' : World) (Q Q' : Perceptron),
    (w0 <- chain_P_first ;; process_event 0%float flip_switch w0) = Ok w
    /\ tick w = Ok w'
    /\ all_objects w !! 2%nat = Some (OPerceptron Q)
    /\ all_objects w' !! 2%nat = Some (OPerceptron Q')
    /\ p_input_connections Q !! 0%nat = Some (Some 1%nat)
    /\ p_input_values Q' !! 0%nat = Some (getattr_output_value (all_objects w') 1)
    /\ getattr_output_value (all_objects w) 1 = 0
    /\ getattr_output_value (all_objects w') 1 = 1.
Proof.
  evar (w : World).
  assert (Hw : (w0 <- chain_P_first ;; process_event 0%float flip_switch w0) = Ok w).
  { vm_compute. subst w. reflexivity. }
  evar (w' : World).
  assert (Ht : tick w = Ok w').
  { vm_compute. subst w'. reflexivity. }
  evar (Q : Perceptron).
  assert (HQ : all_objects w !! 2%nat = Some (OPerceptron Q)).
  { vm_compute. subst Q. reflexivity. }
  evar (Q' : Perceptron).
  assert (HQ' : all_objects w' !! 2%nat = Some (OPerceptron Q')).
  { vm_compute. subst Q'. reflexivity. }
  assert (Hi : (0 < p_num_inputs Q)%nat) by (vm_compute; lia).
  assert (Hslot : p_input_connections Q !! 0%nat = Some (Some 1%nat)) by reflexivity.
  pose proof (proj1 tick_reads_in_list_order w w' 2%nat 1%nat 0%nat Q Q'
                Ht HQ HQ' Hi Hslot) as H.
  exists w, w', Q, Q'.
  split; [exact Hw|]. split; [exact Ht|]. split; [exact HQ|]. split; [exact HQ'|].
  split; [exact Hslot|]. split; [exact H|]. split; reflexivity.
Defined.

(** C3 as stated fails in its example: with P before Q in the list, the
    tick that follows the flip of the switch changes the output of Q
    together with that of P. *)
Lemma chain_in_order_has_no_lag :
  exists w0 w1 w2 : World,
    chain_P_first = Ok w0
    /\ process_event 0%float flip_switch w0 = Ok w1
    /\ tick w1 = Ok w2
    /\ outputs_at w0 [0; 1; 2]%nat = [0; 0; 0]
    /\ outputs_at w1 [0; 1; 2]%nat = [1; 0; 0]
    /\ outputs_at w2 [0; 1; 2]%nat = [1; 1; 1].
Proof.
  eexists _, _, _. split; [vm_compute; reflexivity|].
  split; [vm_compute; reflexivity|]. split; [vm_compute; reflexivity|].
  repeat split; reflexivity.
Qed.

(** ** The evaluation raises nothing *)

(** C10: with output values that are 0 or 1, [calculate_output] returns for
    every Perceptron, whatever the lengths of its lists: an input beyond the
    end of [input_connections] is read as 0, a slot that refers to an object
    without an output value (a Light) is read as 0, and weights that are not
    as many as the inputs are cut or padded with 0.0 to that length.
    [update_state] returns for every Light that has its slot, and in every
    state of the program the whole tick returns. *)
Theorem evaluation_never_raises :
  (forall objs p,
     outputs_are_bits objs ->
     exists p',
       calculate_output objs p = Ok p'
       /\ length (p_input_values p') = p_num_inputs p
       /\ length (p_weights p') = p_num_inputs p
       /\ (forall i, (i < p_num_inputs p)%nat ->
             (length (p_input_connections p) <= i)%nat ->
             p_input_values p' !! i = Some 0)
       /\ (forall i s l, (i < p_num_inputs p)%nat ->
             p_input_connections p !! i = Some (Some s) ->
             objs !! s = Some (OLight l) ->
             p_input_values p' !! i = Some 0)
       /\ (length (p_weights p) <> p_num_inputs p ->
           p_weights p'
           = take (p_num_inputs p) (p_weights p)
               ++ repeat 0%float (p_num_inputs p - length (p_weights p))))
  /\ (forall objs l src rest,
        l_input_connections l = src :: rest ->
        exists l', update_state objs l = Ok l'
                   /\ l_input_value l' = read_source objs src)
  /\ (forall rnd1 rnd2 w, reachable rnd1 rnd2 w -> exists w', tick w = Ok w').
Proof.
  split; [|split].
  - intros objs p Hbits. exists (evaluated objs p).
    split; [apply calculate_output_eq; exact Hbits|]. simpl.
    split; [apply length_gather_inputs|].
    split; [apply length_repaired_weights|].
    split; [|split].
    + intros i Hi Hlen. unfold gather_inputs.
      rewrite list_lookup_fmap, lookup_seq_lt by exact Hi. simpl.
      unfold input_value_at. rewrite lookup_ge_None_2 by exact Hlen. reflexivity.
    + intros i s l Hi Hslot Hl. unfold gather_inputs.
      rewrite list_lookup_fmap, lookup_seq_lt by exact Hi. simpl.
      unfold input_value_at. rewrite Hslot. simpl.
      unfold getattr_output_value. rewrite Hl. reflexivity.
    + intros Hne. unfold repaired_weights.
      destruct (Nat.eqb_spec (length (p_weights p)) (p_num_inputs p)); [contradiction|].
      reflexivity.
  - intros objs l src rest Hl. unfold update_state, getitem. rewrite Hl. simpl.
    eexists. split; reflexivity.
  - intros rnd1 rnd2 w Hreach. apply reachable_ok in Hreach.
    destruct (tick_ok w Hreach) as (w' & Hw' & _). eauto.
Qed.

Lemma evaluation_never_raises_witness :
  exists p',
    calculate_output
      [OLight (Light_init 600 100); OSwitch (s_toggle (Switch_init 50 50))]
      (mkPerceptron (DraggableObject_init 200 100 60 80) 3 [2%float]
         (-1)%float 0 [] [Some 0%nat; Some 1%nat]
         (mkRect 0 0 15 15) (mkRect 0 0 15 15) [] (0, 0) [] (mkRect 0 0 0 0))
    = Ok p'
    /\ p_input_values p' !! 0%nat = Some 0
    /\ p_input_values p' !! 2%nat = Some 0
    /\ p_weights p' = [2%float; 0%float; 0%float].
Proof.
  set (objs := [OLight (Light_init 600 100); OSwitch (s_toggle (Switch_init 50 50))]).
  set (p := mkPerceptron _ _ _ _ _ _ _ _ _ _ _ _ _).
  assert (Hbits : outputs_are_bits objs).
  { intros [|[|s]]; vm_compute; auto. }
  destruct evaluation_never_raises as [H _].
  destruct (H objs p Hbits) as (p' & Hcalc & _ & _ & Hbeyond & Hlight & Hrepair).
  exists p'. split; [exact Hcalc|]. split; [|split].
  - apply (Hlight 0%nat 0%nat (Light_init 600 100)); [simpl; lia | reflexivity | reflexivity].
  - apply Hbeyond; simpl; lia.
  - rewrite Hrepair by (simpl; lia). reflexivity.
Defined.

(** C10 as stated fails: outside the states of the program the evaluation
    can raise.  [update_state] raises IndexError for a Light whose list of
    input slots is empty, and [calculate_output] raises OverflowError for a
    source whose output value is too large for a float. *)
Lemma evaluation_can_raise :
  update_state []
    (mkLight (DraggableObject_init 580 80 40 40) 0 1 [] [(575, 100)]
       [mkRect 570 95 10 10])
  = Raise IndexError
  /\ calculate_output
       [OSwitch (mkSwitch (DraggableObject_init 50 50 40 40) (2 ^ 1024)
                   (mkRect 58 58 24 24) (96, 70) (mkRect 90 64 12 12))]
       (mkPerceptron (DraggableObject_init 200 100 60 80) 1 [1%float]
          0%float 0 [0] [Some 0%nat]
          (mkRect 242 103 15 15) (mkRect 224 103 15 15) [(195, 140)] (266, 140)
          [mkRect 190 135 10 10] (mkRect 260 134 12 12))
     = Raise OverflowError.
Proof. split; vm_compute; reflexivity. Qed.

(** * More of the program *)

(** ** The list of connections: adding, overwriting, removing *)

Lemma remove_connection_last (t i : nat) (conns : list Connection) (c : Connection) :
  conn_key c = (t, i) -> remove_connection t i (conns ++ [c]) = conns.
Proof.
  intros Hc. destruct (remove_connection_cases t i (conns ++ [c]))
    as [[Hall _] | (l1 & d & l2 & E & Hd & -> & Hl2)].
  - apply Forall_app in Hall as [_ Hall]. inversion Hall; subst. contradiction.
  - destruct l2 as [|x l2 _] using rev_ind.
    + apply app_inj_tail in E as [-> _]. apply app_nil_r.
    + exfalso. rewrite app_comm_cons, app_assoc in E.
      apply app_inj_tail in E as [_ <-].
      apply Forall_app in Hl2 as [_ Hl2]. inversion Hl2; subst. contradiction.
Qed.

Lemma remove_connection_middle (t i : nat) (l1 l2 : list Connection) (c : Connection) :
  conn_key c = (t, i) -> Forall (fun x => conn_key x <> (t, i)) l2 ->
  remove_connection t i (l1 ++ c :: l2) = l1 ++ l2.
Proof.
  intros Hc Hl2. destruct (remove_connection_cases t i (l1 ++ c :: l2))
    as [[Hall _] | (k1 & d & k2 & E & Hd & -> & Hk2)].
  - apply Forall_app in Hall as [_ Hall]. inversion Hall; subst. contradiction.
  - revert k1 E. induction l1 as [|x l1 IH]; intros k1 E.
    + destruct k1 as [|y k1]; simpl in E.
      * inversion E; subst. reflexivity.
      * exfalso. inversion E; subst. rewrite Forall_forall in Hl2.
        apply (Hl2 d); [|exact Hd]. apply elem_of_app. right. left.
    + destruct k1 as [|y k1]; simpl in E.
      * exfalso. inversion E; subst. rewrite Forall_forall in Hk2.
        apply (Hk2 c); [|exact Hc]. apply elem_of_app. right. left.
      * inversion E; subst. simpl. f_equal. apply IH. assumption.
Qed.

Lemma existing_conn_idx_first (t i : nat) (l1 l2 : list Connection) (c : Connection) :
  Forall (fun x => conn_key x <> (t, i)) l1 -> conn_key c = (t, i) ->
  existing_conn_idx t i (l1 ++ c :: l2) = Some (length l1).
Proof.
  intros Hl1 Hc. induction Hl1 as [|x l1 Hx _ IH]; simpl.
  - apply conn_targets_true in Hc. rewrite Hc. reflexivity.
  - apply conn_targets_false in Hx. rewrite Hx, IH. reflexivity.
Qed.

Lemma existing_conn_idx_free (t i : nat) (conns : list Connection) :
  Forall (fun x => conn_key x <> (t, i)) conns -> existing_conn_idx t i conns = None.
Proof.
  intros H. induction H as [|x l Hx _ IH]; simpl; [reflexivity|].
  apply conn_targets_false in Hx. rewrite Hx, IH. reflexivity.
Qed.

Lemma update_connections_first (s t i : nat) (l1 l2 : list Connection) (c : Connection) :
  Forall (fun x => conn_key x <> (t, i)) l1 -> conn_key c = (t, i) ->
  update_connections s t i (l1 ++ c :: l2) = l1 ++ mkConnection s t i :: l2.
Proof.
  intros Hl1 Hc. unfold update_connections.
  rewrite existing_conn_idx_first by assumption.
  rewrite alter_app_r_alt by lia. rewrite Nat.sub_diag. simpl.
  unfold set_source. unfold conn_key in Hc. inversion Hc. reflexivity.
Qed.

Lemma update_connections_free (s t i : nat) (conns : list Connection) :
  Forall (fun x => conn_key x <> (t, i)) conns ->
  update_connections s t i conns = conns ++ [mkConnection s t i].
Proof.
  intros H. unfold update_connections. rewrite existing_conn_idx_free by exact H.
  reflexivity.
Qed.

(** X1: on a list with one entry per input port, connecting a source to a
    port and then removing the wire of that port leaves what removing alone
    leaves, and the list itself when the port was free; connecting a second
    source to the port is the same as connecting it alone; after connecting
    [s] every entry of the port has source [s], and the entries of the other
    ports are the same as before. *)
Theorem connect_then_remove (s s2 t i : nat) (conns : list Connection) :
  NoDup (conn_key <$> conns) ->
  remove_connection t i (update_connections s t i conns) = remove_connection t i conns
  /\ (Forall (fun c => conn_key c <> (t, i)) conns ->
      remove_connection t i (update_connections s t i conns) = conns)
  /\ update_connections s2 t i (update_connections s t i conns)
     = update_connections s2 t i conns
  /\ (forall c, c ∈ update_connections s t i conns -> conn_key c = (t, i) ->
        source_obj c = s)
  /\ (forall c, conn_key c <> (t, i) ->
        (c ∈ update_connections s t i conns <-> c ∈ conns)).
Proof.
  intros Hnd.
  assert (Hfree : Forall (fun c => conn_key c <> (t, i)) conns ->
                  remove_connection t i conns = conns).
  { intros Hall. destruct (remove_connection_cases t i conns)
      as [[_ ->] | (l1 & c & l2 & -> & Hc & _ & _)]; [reflexivity|].
    apply Forall_app in Hall as [_ Hall]. inversion Hall; subst. contradiction. }
  split; [|split; [|split; [|split]]].
  - destruct (update_connections_cases s t i conns)
      as [[Hall ->] | (l1 & c & l2 & -> & Hc & Hl1 & ->)].
    + rewrite remove_connection_last by reflexivity. symmetry. apply Hfree. exact Hall.
    + apply NoDup_keys_app_cons in Hnd as [_ Hne]. rewrite Hc in Hne.
      apply Forall_app in Hne as [_ Hl2].
      rewrite !remove_connection_middle; auto.
  - intros Hall. destruct (update_connections_cases s t i conns)
      as [[_ ->] | (l1 & c & l2 & -> & Hc & _ & _)].
    + apply remove_connection_last. reflexivity.
    + apply Forall_app in Hall as [_ Hall]. inversion Hall; subst. contradiction.
  - destruct (update_connections_cases s t i conns)
      as [[Hall E] | (l1 & c & l2 & E0 & Hc & Hl1 & E)]; rewrite E.
    + rewrite (update_connections_first s2 t i conns [] (mkConnection s t i))
        by (auto; reflexivity).
      rewrite update_connections_free by exact Hall. reflexivity.
    + rewrite E0.
      rewrite (update_connections_first s2 t i l1 l2 (mkConnection s t i))
        by (auto; reflexivity).
      rewrite update_connections_first by assumption. reflexivity.
  - intros c Hc Hk. apply update_connections_elem in Hc as [->|[_ Hne]]; [|contradiction|exact Hnd].
    reflexivity.
  - intros c Hk. rewrite update_connections_elem by exact Hnd. split.
    + intros [->|[Hc _]]; [|exact Hc]. exfalso. apply Hk. reflexivity.
    + intros Hc. right. auto.
Qed.

Lemma connect_then_remove_witness :
  remove_connection 2 0
    (update_connections 1 2 0 [mkConnection 0 2 1; mkConnection 0 4 0])
  = [mkConnection 0 2 1; mkConnection 0 4 0]
  /\ update_connections 1 2 1 [mkConnection 0 2 1; mkConnection 0 4 0]
     = [mkConnection 1 2 1; mkConnection 0 4 0].
Proof.
  assert (Hnd : NoDup (conn_key <$> [mkConnection 0 2 1; mkConnection 0 4 0])).
  { apply NoDup_cons. split; [|apply NoDup_singleton].
    intros H. apply list_elem_of_singleton in H. discriminate H. }
  destruct (connect_then_remove 1 1 2 0 _ Hnd) as (_ & Hfree & _).
  split; [|reflexivity]. apply Hfree.
  repeat constructor; discriminate.
Defined.

(** ** The switch *)

(** X2: while no connection is being drawn, a left click inside the toggle
    area of a switch (and not on its output node) is handled and flips the
    output value, and a second such click gives back the switch as it
    was. *)
Theorem switch_toggle_twice (self : nat) (s : Switch) (gs : GlobalState)
    (conns : list Connection) (pt : pos) :
  is_drawing_connection gs = false ->
  collidepoint (s_output_node_rect s) pt = false ->
  collidepoint (s_toggle_rect s) pt = true ->
  exists s1,
    Switch_handle_event self s (MOUSEBUTTONDOWN 1 pt) gs conns = Ok (true, s1, gs, conns)
    /\ s_output_value s1 = 1 - s_output_value s
    /\ Switch_handle_event self s1 (MOUSEBUTTONDOWN 1 pt) gs conns = Ok (true, s, gs, conns).
Proof.
  intros Hd Hout Htog. exists (s_toggle s).
  assert (Hclick : forall s0 : Switch,
             collidepoint (s_output_node_rect s0) pt = false ->
             collidepoint (s_toggle_rect s0) pt = true ->
             Switch_handle_event self s0 (MOUSEBUTTONDOWN 1 pt) gs conns
             = Ok (true, s_toggle s0, gs, conns)).
  { intros s0 H1 H2. simpl. rewrite H1, H2, Hd. reflexivity. }
  split; [apply Hclick; assumption|]. split; [reflexivity|].
  rewrite Hclick by assumption. do 4 f_equal.
  destruct s as [b v tr op onr]. unfold s_toggle. simpl. f_equal. lia.
Qed.

Lemma switch_toggle_twice_witness :
  exists s1,
    Switch_handle_event 0 (Switch_init 50 50) (MOUSEBUTTONDOWN 1 (60, 60)) reset_state []
    = Ok (true, s1, reset_state, [])
    /\ s_output_value s1 = 1
    /\ Switch_handle_event 0 s1 (MOUSEBUTTONDOWN 1 (60, 60)) reset_state []
       = Ok (true, Switch_init 50 50, reset_state, []).
Proof.
  destruct (switch_toggle_twice 0 (Switch_init 50 50) reset_state [] (60, 60)
              eq_refl eq_refl eq_refl) as (s1 & H1 & Hv & H2).
  exists s1. split; [exact H1|]. split; [exact Hv | exact H2].
Defined.

(** X3: the handler of a switch changes the output value only by such a
    click: when the value after an event differs from the value before, the
    event was a left click inside the toggle area, off the output node, with
    no connection being drawn, and nothing but the output value changed.  A
    click on the output node, a drag and a right click leave the value. *)
Theorem switch_value_changes_only_by_toggle (self : nat) (s s' : Switch) (ev : event)
    (gs gs' : GlobalState) (conns conns' : list Connection) (h : bool) :
  Switch_handle_event self s ev gs conns = Ok (h, s', gs', conns') ->
  s_output_value s' <> s_output_value s ->
  exists pt,
    ev = MOUSEBUTTONDOWN 1 pt
    /\ collidepoint (s_toggle_rect s) pt = true
    /\ collidepoint (s_output_node_rect s) pt = false
    /\ is_drawing_connection gs = false
    /\ h = true /\ s' = s_toggle s /\ gs' = gs /\ conns' = conns.
Proof.
  intros H Hne. destruct ev as [|button pt|button pt|pt|]; simpl in H;
    try (inv_ok; contradiction).
  - destruct (collidepoint (s_output_node_rect s) pt) eqn:Eout.
    { destruct (button =? 1); inv_ok; contradiction. }
    destruct (Z.eqb_spec button 1) as [->|Hb].
    + destruct (collidepoint (s_toggle_rect s) pt) eqn:Etog.
      * destruct (is_drawing_connection gs) eqn:Ed; simpl in H; inv_ok; [contradiction|].
        exists pt. repeat split; auto.
      * destruct (collidepoint (rect (s_base s)) pt); inv_ok; contradiction.
    + destruct (button =? 3); [destruct (collidepoint (rect (s_base s)) pt)|];
        inv_ok; contradiction.
  - destruct ((button =? 1) && is_dragging (s_base s)); inv_ok; contradiction.
  - destruct (is_dragging (s_base s)); inv_ok; contradiction.
Qed.

Lemma switch_value_changes_only_by_toggle_witness :
  exists pt,
    MOUSEBUTTONDOWN 1 (60, 60) = MOUSEBUTTONDOWN 1 pt
    /\ collidepoint (s_toggle_rect (Switch_init 50 50)) pt = true
    /\ collidepoint (s_output_node_rect (Switch_init 50 50)) pt = false
    /\ is_drawing_connection reset_state = false
    /\ true = true /\ s_toggle (Switch_init 50 50) = s_toggle (Switch_init 50 50)
    /\ reset_state = reset_state /\ @nil Connection = [].
Proof.
  apply (switch_value_changes_only_by_toggle 0 (Switch_init 50 50)
           (s_toggle (Switch_init 50 50)) (MOUSEBUTTONDOWN 1 (60, 60))
           reset_state reset_state [] [] true).
  - reflexivity.
  - simpl. lia.
Defined.

(** ** Who gets an event *)

Lemma world_eta (w : World) :
  mkWorld (running w) (all_objects w) (connections w) (global_connection_state w) = w.
Proof. destruct w; reflexivity. Qed.

Lemma dispatch_spec (k : nat) (u : float) (ev : event) (w w' : World) :
  dispatch k u ev w = Ok w' ->
  (w' = w
   /\ forall j o, (j < k)%nat -> all_objects w !! j = Some o ->
        handle_event j u o ev (global_connection_state w) (connections w)
        = Ok (false, o, global_connection_state w, connections w))
  \/ exists j o o' gs' conns',
       (j < k)%nat /\ all_objects w !! j = Some o
       /\ handle_event j u o ev (global_connection_state w) (connections w)
          = Ok (true, o', gs', conns')
       /\ w' = mkWorld (running w) (<[j := o']> (all_objects w)) conns' gs'
       /\ forall j' o2, (j < j' < k)%nat -> all_objects w !! j' = Some o2 ->
            handle_event j' u o2 ev (global_connection_state w) (connections w)
            = Ok (false, o2, global_connection_state w, connections w).
Proof.
  revert w'. induction k as [|k IH]; intros w' H; simpl in H.
  - inv_ok. left. split; [reflexivity|]. intros j o Hj. lia.
  - destruct (all_objects w !! k) as [o|] eqn:Ho.
    + apply bind_Ok in H as ([[[h o'] gs'] conns'] & Hr & H). simpl in H.
      destruct h.
      * inv_ok. right. exists k, o, o', gs', conns'.
        split; [lia|]. split; [exact Ho|]. split; [exact Hr|]. split; [reflexivity|].
        intros j' o2 Hj'. lia.
      * pose proof (handle_event_drag _ _ _ _ _ _ _ Hr) as [Hunh _].
        specialize (Hunh eq_refl). inversion Hunh; subst. clear Hunh.
        rewrite list_insert_id, world_eta in H by exact Ho.
        destruct (IH _ H) as [[-> Hall] | (j & o1 & o1' & gs1 & conns1 & Hj & Ho1 & Hh & -> & Habove)].
        -- left. split; [reflexivity|]. intros j o1 Hj Ho1.
           destruct (decide (j = k)) as [->|Hne]; [|apply Hall; [lia | exact Ho1]].
           rewrite Ho in Ho1. inversion Ho1; subst. exact Hr.
        -- right. exists j, o1, o1', gs1, conns1. repeat split; auto.
           intros j' o2 Hj' Ho2.
           destruct (decide (j' = k)) as [->|Hne]; [|apply Habove; [lia | exact Ho2]].
           rewrite Ho in Ho2. inversion Ho2; subst. exact Hr.
    + destruct (IH _ H) as [[-> Hall] | (j & o1 & o1' & gs1 & conns1 & Hj & Ho1 & Hh & -> & Habove)].
      * left. split; [reflexivity|]. intros j o1 Hj Ho1.
        destruct (decide (j = k)) as [->|Hne]; [congruence|]. apply Hall; [lia | exact Ho1].
      * right. exists j, o1, o1', gs1, conns1. repeat split; auto.
        intros j' o2 Hj' Ho2.
        destruct (decide (j' = k)) as [->|Hne]; [congruence|].
        apply Habove; [lia | exact Ho2].
Qed.

(** X4: an event that the loop passes to the objects goes to the last
    object of the list whose handler handles it: either every handler
    leaves it and the world is unchanged, or the world changes by what one
    handler returns, every object later in the list has left the event, and
    no other object is touched. *)
Theorem event_goes_to_topmost_handler (u : float) (ev : event) (w w' : World) :
  dispatch (length (all_objects w)) u ev w = Ok w' ->
  (w' = w
   /\ forall j o, all_objects w !! j = Some o ->
        handle_event j u o ev (global_connection_state w) (connections w)
        = Ok (false, o, global_connection_state w, connections w))
  \/ exists j o o' gs' conns',
       all_objects w !! j = Some o
       /\ handle_event j u o ev (global_connection_state w) (connections w)
          = Ok (true, o', gs', conns')
       /\ w' = mkWorld (running w) (<[j := o']> (all_objects w)) conns' gs'
       /\ (forall j' o2, (j < j')%nat -> all_objects w !! j' = Some o2 ->
             handle_event j' u o2 ev (global_connection_state w) (connections w)
             = Ok (false, o2, global_connection_state w, connections w))
       /\ (forall t, t <> j -> all_objects w' !! t = all_objects w !! t).
Proof.
  intros H. apply dispatch_spec in H
    as [[-> Hall] | (j & o & o' & gs' & conns' & Hj & Ho & Hh & -> & Habove)].
  - left. split; [reflexivity|]. intros j o Ho. apply Hall; [|exact Ho].
    eapply lookup_lt_Some. exact Ho.
  - right. exists j, o, o', gs', conns'. repeat split; auto.
    + intros j' o2 Hj' Ho2. apply Habove; [|exact Ho2].
      split; [exact Hj'|]. eapply lookup_lt_Some. exact Ho2.
    + intros t Ht. simpl. apply list_lookup_insert_ne. congruence.
Qed.

Lemma event_goes_to_topmost_handler_witness :
  exists w0 w' : World,
    initial_world (fun _ => 0.5%float) (fun _ => 0.5%float) = Ok w0
    /\ dispatch 6 0%float (MOUSEBUTTONDOWN 1 (60, 60)) w0 = Ok w'
    /\ (forall t, t <> 0%nat -> all_objects w' !! t = all_objects w0 !! t)
    /\ outputs_at w' [0%nat] = [1].
Proof.
  evar (w0 : World).
  assert (H0 : initial_world (fun _ => 0.5%float) (fun _ => 0.5%float) = Ok w0).
  { vm_compute. subst w0. reflexivity. }
  evar (w' : World).
  assert (Hd : dispatch (length (all_objects w0)) 0%float (MOUSEBUTTONDOWN 1 (60, 60)) w0
               = Ok w').
  { vm_compute. subst w'. reflexivity. }
  exists w0, w'. split; [exact H0|]. split; [exact Hd|]. split; [|reflexivity].
  destruct (event_goes_to_topmost_handler _ _ _ _ Hd)
    as [[E _] | (j & o & o' & gs' & conns' & Ho & Hh & E & _ & Hrest)].
  - intros t _. rewrite E. reflexivity.
  - assert (Hj : j = 0%nat).
    { destruct j as [|j]; [reflexivity|]. exfalso.
      apply (f_equal (fun x => outputs_at x [0%nat])) in E.
      unfold outputs_at in E. simpl in E. unfold getattr_output_value in E.
      simpl in E. discriminate E. }
    subst j. exact Hrest.
Defined.

Lemma dispatch_all_leave (k : nat) (u : float) (ev : event) (w : World) :
  (forall j o, all_objects w !! j = Some o ->
     handle_event j u o ev (global_connection_state w) (connections w)
     = Ok (false, o, global_connection_state w, connections w)) ->
  dispatch k u ev w = Ok w.
Proof.
  intros Hall. induction k as [|k IH]; simpl; [reflexivity|].
  destruct (all_objects w !! k) as [o|] eqn:Ho; [|exact IH].
  rewrite (Hall k o Ho). simpl. rewrite list_insert_id, world_eta by exact Ho. exact IH.
Qed.

Lemma dragging_count_zero (objs : list Obj) (j : nat) (o : Obj) :
  dragging_count objs = 0%nat -> objs !! j = Some o -> dragging o = false.
Proof.
  intros Hc Ho. rewrite (list_split_at objs j o Ho) in Hc.
  rewrite dragging_count_app, dragging_count_cons in Hc.
  destruct (dragging o); [lia | reflexivity].
Qed.

(** X5: events that concern nobody change nothing.  An event of another
    kind leaves the world as it is, and QUIT only clears [running]; while no
    object is being dragged a pointer-move leaves the world as it is, and so
    does a pointer-up when no connection is being drawn. *)
Theorem idle_events_change_nothing (u : float) (w : World) :
  process_event u OTHER w = Ok w
  /\ process_event u QUIT w
     = Ok (mkWorld false (all_objects w) (connections w) (global_connection_state w))
  /\ (dragging_count (all_objects w) = 0%nat ->
      (forall pt, process_event u (MOUSEMOTION pt) w = Ok w)
      /\ (is_drawing_connection (global_connection_state w) = false ->
          forall button pt, process_event u (MOUSEBUTTONUP button pt) w = Ok w)).
Proof.
  split; [|split].
  - apply dispatch_all_leave. intros j [s|p|l] _; reflexivity.
  - unfold process_event. apply dispatch_all_leave. intros j [s|p|l] _; reflexivity.
  - intros Hc. split.
    + intros pt. apply dispatch_all_leave. intros j o Ho.
      pose proof (dragging_count_zero _ _ _ Hc Ho) as Hd.
      destruct o as [s|p|l]; unfold dragging in Hd; simpl in *;
        unfold Light_handle_event; simpl; rewrite Hd; reflexivity.
    + intros Hdraw button pt. unfold process_event. rewrite Hdraw.
      apply dispatch_all_leave. intros j o Ho.
      pose proof (dragging_count_zero _ _ _ Hc Ho) as Hd.
      destruct o as [s|p|l]; unfold dragging in Hd; simpl in *;
        unfold Light_handle_event; simpl; rewrite Hd; rewrite ?andb_false_r; reflexivity.
Qed.

Lemma idle_events_change_nothing_witness :
  exists w0 : World,
    initial_world (fun _ => 0.5%float) (fun _ => 0.5%float) = Ok w0
    /\ process_event 0%float (MOUSEMOTION (600, 100)) w0 = Ok w0
    /\ process_event 0%float (MOUSEBUTTONUP 1 (600, 100)) w0 = Ok w0.
Proof.
  evar (w0 : World).
  assert (H0 : initial_world (fun _ => 0.5%float) (fun _ => 0.5%float) = Ok w0).
  { vm_compute. subst w0. reflexivity. }
  destruct (idle_events_change_nothing 0%float w0) as (_ & _ & H).
  destruct (H eq_refl) as [Hmove Hup].
  exists w0. split; [exact H0|]. split; [apply Hmove | apply Hup; reflexivity].
Defined.

(** ** Nodes and buttons follow the body *)

Lemma set_topright_idem (r : Rect) (a : pos) :
  set_topright (set_topright r a) a = set_topright r a.
Proof. reflexivity. Qed.

Lemma p_update_node_positions_base (p p' : Perceptron) :
  p_update_node_positions p = Ok p' -> p_base p' = p_base p.
Proof. rewrite p_update_node_positions_eq. intros H. inv_ok. reflexivity. Qed.

Lemma fresh_same_placing (p q : Perceptron) :
  p_update_node_positions p = Ok p -> same_placing p q ->
  p_update_node_positions q = Ok q.
Proof.
  rewrite !p_update_node_positions_eq.
  intros H (Hr & Hn & Hpl & Hmi & Hnp & Hop & Hnr & Hor).
  rewrite <- Hr, <- Hn. apply bind_Ok in H as (ks & -> & H). simpl. f_equal.
  inversion H as [E]. clear H.
  destruct p as [b n ws bi ov iv ics pl mi np op nr orr].
  destruct q as [b2 n2 ws2 bi2 ov2 iv2 ics2 pl2 mi2 np2 op2 nr2 orr2].
  unfold p_geometry_of in *. simpl in *. subst.
  injection E as E1 E2 E3 E4 E5 E6. rewrite <- Hr.
  f_equal; assumption.
Qed.

Lemma p_update_node_positions_idem (p p' : Perceptron) :
  p_update_node_positions p = Ok p' -> p_update_node_positions p' = Ok p'.
Proof.
  rewrite !p_update_node_positions_eq. intros H.
  apply bind_Ok in H as (ks & Hks & H). inv_ok. simpl. rewrite Hks. reflexivity.
Qed.

Lemma update_placed (q p' : Perceptron) :
  p_update_node_positions q = Ok p' -> sized (OPerceptron q) ->
  placed (OPerceptron p').
Proof.
  intros H Hs. split; [simpl; eapply p_update_node_positions_idem; exact H|].
  rewrite p_update_node_positions_eq in H. inv_ok. exact Hs.
Qed.

Lemma same_placing_placed (p q : Perceptron) :
  placed (OPerceptron p) -> same_placing p q -> placed (OPerceptron q).
Proof.
  intros [Hf Hs] Hsame. split; [simpl; eapply fresh_same_placing; eauto|].
  destruct Hsame as (Hr & _ & Hpl & Hmi & _). simpl in *.
  rewrite <- Hr, <- Hpl, <- Hmi. exact Hs.
Qed.

Lemma Perceptron_handle_event_placed (self : nat) (u : float) (p p' : Perceptron)
    (ev : event) (gs gs' : GlobalState) (conns conns' : list Connection) (h : bool) :
  Perceptron_handle_event self u p ev gs conns = Ok (h, p', gs', conns') ->
  placed (OPerceptron p) -> placed (OPerceptron p').
Proof.
  intros H Hp.
  assert (Hsame : forall q, same_placing p q -> placed (OPerceptron q)).
  { intros q. apply same_placing_placed. exact Hp. }
  assert (Hupd : forall q a, p_update_node_positions q = Ok a ->
                   has_size (rect (p_base q)) 60 80 ->
                   p_plus_button_rect q = p_plus_button_rect p ->
                   p_minus_button_rect q = p_minus_button_rect p ->
                   placed (OPerceptron a)).
  { intros q a Ha Hr Hpl Hmi. eapply update_placed; [exact Ha|].
    destruct Hp as [_ (Hb & Hplus & Hminus)]. simpl. rewrite Hpl, Hmi. auto. }
  assert (Hbody : has_size (rect (p_base p)) 60 80) by apply Hp.
  destruct ev as [|button pt|button pt|pt|]; simpl in H.
  - inv_ok. exact Hp.
  - repeat match type of H with
      | context [if ?b then _ else _] => destruct b
      | context [match first_hit ?a ?b with _ => _ end] => destruct (first_hit a b)
      | bind _ _ = Ok _ =>
          let a := fresh "a" in
          let Ha := fresh "Ha" in
          apply bind_Ok in H as (a & Ha & H)
      | context [match ?x with Some _ => _ | None => _ end] => destruct x
      end; inv_ok; try exact Hp;
      try (apply Hsame; repeat split; reflexivity).
    + unfold increment_inputs in Ha. eapply Hupd; [exact Ha | exact Hbody | |]; reflexivity.
    + unfold decrement_inputs in Ha. inv_ok. simpl.
      eapply Hupd; [eassumption | exact Hbody | |]; reflexivity.
  - destruct (is_dragging (p_base p) && (button =? 1)); inv_ok; [|exact Hp].
    apply Hsame. repeat split; reflexivity.
  - destruct (is_dragging (p_base p)); inv_ok; [|exact Hp].
    eapply Hupd; [eassumption | | |]; try reflexivity.
    destruct Hbody. split; assumption.
  - inv_ok. exact Hp.
Qed.

Lemma Switch_handle_event_placed (self : nat) (s s' : Switch)
    (ev : event) (gs gs' : GlobalState) (conns conns' : list Connection) (h : bool) :
  Switch_handle_event self s ev gs conns = Ok (h, s', gs', conns') ->
  placed (OSwitch s) -> placed (OSwitch s').
Proof.
  intros H [Hf (Hb & Ht)]. simpl in Hf.
  assert (Hkeep : forall b : DraggableObject, rect b = rect (s_base s) ->
                    placed (OSwitch (s_set_base s b))).
  { intros b Hr. split; simpl.
    - unfold s_update_node_positions in *. simpl. rewrite Hr.
      destruct s; unfold s_set_base; simpl in *.
      injection Hf as E1 E2 E3. f_equal; assumption.
    - rewrite Hr. auto. }
  destruct ev as [|button pt|button pt|pt|]; simpl in H.
  - inv_ok. split; simpl; auto.
  - repeat match type of H with
      | context [if ?b then _ else _] => destruct b
      end; inv_ok; try (split; simpl; auto; fail);
      try (apply Hkeep; reflexivity).
    split; simpl; [|auto]. unfold s_update_node_positions in *.
    destruct s; unfold s_toggle; simpl in *.
    injection Hf as E1 E2 E3. f_equal; assumption.
  - destruct ((button =? 1) && is_dragging (s_base s)); inv_ok; [|split; simpl; auto].
    apply Hkeep. reflexivity.
  - destruct (is_dragging (s_base s)); inv_ok; [|split; simpl; auto].
    split; simpl; [reflexivity|]. destruct Hb, Ht. repeat split; assumption.
  - inv_ok. split; simpl; auto.
Qed.

Lemma Light_handle_event_placed (self : nat) (l l' : Light)
    (ev : event) (gs gs' : GlobalState) (conns conns' : list Connection) (h : bool) :
  Light_handle_event self l ev gs conns = Ok (h, l', gs', conns') ->
  placed (OLight l) -> placed (OLight l').
Proof.
  intros H [Hf Hb]. simpl in Hf, Hb.
  assert (Hkeep : forall b : DraggableObject, rect b = rect (l_base l) ->
                    placed (OLight (l_set_base l b))).
  { intros b Hr. split; simpl.
    - unfold l_update_node_positions in *. simpl. rewrite Hr.
      destruct l; unfold l_set_base; simpl in *.
      injection Hf as E1 E2. f_equal; assumption.
    - rewrite Hr. exact Hb. }
  assert (Hics : forall ics, placed (OLight (l_set_input_connections l ics))).
  { intros ics. split; simpl; [|exact Hb].
    unfold l_update_node_positions in *.
    destruct l; unfold l_set_input_connections; simpl in *.
    injection Hf as E1 E2. f_equal; assumption. }
  unfold Light_handle_event in H.
  destruct ev as [|button pt|button pt|pt|]; simpl in H.
  - inv_ok. split; assumption.
  - destruct (collidepoint (rect (l_base l)) pt); simpl in H;
      [inv_ok; apply Hkeep; reflexivity|].
    unfold l_get_input_node_rect in H.
    repeat match type of H with
      | context [if ?b then _ else _] => destruct b
      | bind _ _ = Ok _ =>
          let a := fresh "a" in
          let Ha := fresh "Ha" in
          apply bind_Ok in H as (a & Ha & H)
      | context [match ?x with [] => _ | _ :: _ => _ end] => destruct x
      | context [match ?x with Some _ => _ | None => _ end] => destruct x
      end; inv_ok; try (split; assumption); apply Hics.
  - destruct (is_dragging (l_base l)); simpl in H; inv_ok; [|split; assumption].
    apply Hkeep. reflexivity.
  - destruct (is_dragging (l_base l)); simpl in H; inv_ok; [|split; assumption].
    split; simpl; [reflexivity|]. destruct Hb. split; assumption.
  - inv_ok. split; assumption.
Qed.

Lemma handle_event_placed (self : nat) (u : float) (o : Obj) (ev : event)
    (gs : GlobalState) (conns : list Connection)
    (r : bool * Obj * GlobalState * list Connection) :
  handle_event self u o ev gs conns = Ok r -> placed o -> placed (snd (fst (fst r))).
Proof.
  intros H Hp. destruct o as [s|p|l]; simpl in H;
    apply bind_Ok in H as ([[[h x] gs'] conns'] & Hx & H); inv_ok; simpl.
  - eapply Switch_handle_event_placed; eauto.
  - eapply Perceptron_handle_event_placed; eauto.
  - eapply Light_handle_event_placed; eauto.
Qed.

Lemma set_input_connection_placed (o : Obj) (i s : nat) :
  placed o -> placed (set_input_connection o i s).
Proof.
  intros Hp. destruct o as [sw|p|l]; simpl; [exact Hp| |].
  - destruct (i <? _)%nat; [|exact Hp].
    eapply same_placing_placed; [exact Hp|]. repeat split; reflexivity.
  - destruct (i <? _)%nat; [|exact Hp].
    destruct Hp as [Hf Hs]. split; [|exact Hs]. simpl in *.
    unfold l_update_node_positions in *.
    destruct l; unfold l_set_input_connections; simpl in *.
    injection Hf as E1 E2. f_equal; assumption.
Qed.

Lemma process_event_placed (u : float) (ev : event) (w w' : World) :
  process_event u ev w = Ok w' ->
  Forall placed (all_objects w) -> Forall placed (all_objects w').
Proof.
  intros H Hall.
  assert (Hdisp : forall w0 w1, dispatch (length (all_objects w0)) u ev w0 = Ok w1 ->
                    Forall placed (all_objects w0) -> Forall placed (all_objects w1)).
  { intros w0 w1 Hd H0. apply dispatch_spec in Hd
      as [[-> _] | (j & o & o' & gs' & conns' & _ & Ho & Hh & -> & _)]; [exact H0|].
    simpl. apply Forall_insert; [exact H0|].
    apply (handle_event_placed _ _ _ _ _ _ _ Hh).
    rewrite Forall_forall in H0. apply H0. eapply list_elem_of_lookup_2. exact Ho. }
  unfold process_event in H.
  destruct ev as [|button pt|button pt|pt|]; try (eapply Hdisp; [exact H | exact Hall]).
  destruct (is_drawing_connection _); [|eapply Hdisp; [exact H | exact Hall]].
  unfold finalize_connection in H.
  destruct (find_target _ _) as [[t i]|]; [|inv_ok; exact Hall].
  destruct (connection_start_obj _) as [s|]; inv_ok. simpl.
  apply Forall_alter; [exact Hall|]. intros o _. apply set_input_connection_placed.
Qed.

Lemma pass_Forall (P : Obj -> Prop) (f : list Obj -> nat -> result (list Obj)) :
  (forall objs objs' i, f objs i = Ok objs' -> Forall P objs -> Forall P objs') ->
  forall idxs objs objs',
    pass f idxs objs = Ok objs' -> Forall P objs -> Forall P objs'.
Proof.
  intros Hf idxs. induction idxs as [|i idxs IH]; simpl; intros objs objs' H Hall.
  - inv_ok. exact Hall.
  - apply bind_Ok in H as (objs1 & H1 & H). eapply IH; [exact H|]. eapply Hf; eauto.
Qed.

Lemma tick_placed (w w' : World) :
  tick w = Ok w' -> Forall placed (all_objects w) -> Forall placed (all_objects w').
Proof.
  unfold tick, perceptron_pass, light_pass. intros H Hall.
  apply bind_Ok in H as (objs1 & H1 & H). apply bind_Ok in H as (objs2 & H2 & H).
  inv_ok. simpl.
  eapply (pass_Forall placed update_at); [|exact H2|].
  - intros objs objs' i Hi Hobjs. unfold update_at in Hi.
    destruct (objs !! i) as [[s|p|l]|] eqn:Ho; inv_ok; try exact Hobjs.
    apply Forall_insert; [exact Hobjs|].
    rewrite Forall_forall in Hobjs. apply list_elem_of_lookup_2, Hobjs in Ho.
    unfold update_state in Ha. inv_ok. destruct Ho as [Hf Hs]. split; [|exact Hs].
    simpl in *. unfold l_update_node_positions in *.
    destruct l; simpl in *. injection Hf as E1 E2. f_equal; assumption.
  - eapply (pass_Forall placed calculate_at); [|exact H1|exact Hall].
    intros objs objs' i Hi Hobjs. unfold calculate_at in Hi.
    destruct (objs !! i) as [[s|p|l]|] eqn:Ho; inv_ok; try exact Hobjs.
    apply Forall_insert; [exact Hobjs|].
    rewrite Forall_forall in Hobjs. apply list_elem_of_lookup_2, Hobjs in Ho.
    unfold calculate_output in Ha. inv_ok.
    eapply same_placing_placed; [exact Ho|]. repeat split; reflexivity.
Qed.

Lemma initial_world_placed (rnd1 rnd2 : nat -> float) (w : World) :
  initial_world rnd1 rnd2 = Ok w -> Forall placed (all_objects w).
Proof.
  intros H. vm_compute in H. inv_ok.
  repeat constructor; vm_compute; auto.
Qed.

Lemma reachable_placed (rnd1 rnd2 : nat -> float) (w : World) :
  reachable rnd1 rnd2 w -> Forall placed (all_objects w).
Proof.
  induction 1 as [w Hinit | u ev w w' _ IH Hev | w w' _ IH Ht].
  - eapply initial_world_placed. exact Hinit.
  - eapply process_event_placed; eauto.
  - eapply tick_placed; eauto.
Qed.

Lemma mapM_length {A B : Type} (f : A -> result B) (l : list A) (bs : list B) :
  mapM f l = Ok bs -> length bs = length l.
Proof.
  revert bs. induction l as [|a l IH]; simpl; intros bs H.
  - inv_ok. reflexivity.
  - inv_ok. simpl. f_equal. eauto.
Qed.

Lemma input_node_offsets_length (h : Z) (n : nat) (ks : list Z) :
  input_node_offsets h n = Ok ks -> length ks = n.
Proof.
  unfold input_node_offsets. intros H. apply bind_Ok in H as (sp & _ & H).
  apply mapM_length in H. rewrite length_seq in H. exact H.
Qed.

(** Where everything of a placed Perceptron is, from the corner (x, y) of
    its body. *)
Lemma placed_perceptron (p : Perceptron) :
  placed (OPerceptron p) ->
  let x := rect_x (rect (p_base p)) in
  let y := rect_y (rect (p_base p)) in
  rect (p_base p) = mkRect x y 60 80
  /\ p_plus_button_rect p = mkRect (x + 42) (y + 3) 15 15
  /\ p_minus_button_rect p = mkRect (x + 24) (y + 3) 15 15
  /\ p_output_node_pos p = (x + 66, y + 40)
  /\ p_output_node_rect p = mkRect (x + 60) (y + 34) 12 12
  /\ exists ks,
       input_node_offsets 80 (p_num_inputs p) = Ok ks
       /\ length ks = p_num_inputs p
       /\ p_input_nodes_pos p = map (fun k => (x - 5, y + k)) ks
       /\ p_input_node_rects p = map (fun k => mkRect (x - 10) (y + k - 5) 10 10) ks.
Proof.
  intros [Hf ((Hw & Hh) & (Hpw & Hph) & (Hmw & Hmh))] x y. simpl in *.
  rewrite p_update_node_positions_eq, Hh in Hf.
  apply bind_Ok in Hf as (ks & Hks & Hf). inversion Hf as [E]. clear Hf.
  destruct p as [[[rx ry rw rh] dr dx dy] n ws bi ov iv ics pl mi np op nr orr].
  unfold p_geometry_of, set_topright, rect_right, rect_left, rect_top, rect_centery,
    node_rect, input_node_radius, output_node_radius in E.
  simpl in *. subst rw rh x y. injection E as E1 E2 E3 E4 E5 E6.
  destruct pl as [plx ply plw plh], mi as [mix miy miw mih]. simpl in *. subst.
  injection E1 as E1x E1y. injection E2 as E2x E2y.
  unfold set_topright, rect_right, rect_centery, node_rect, input_node_radius,
    output_node_radius. simpl. change (Z.quot 80 2) with 40.
  split; [reflexivity|].
  split; [f_equal; lia|]. split; [f_equal; lia|].
  split; [f_equal; lia|]. split; [f_equal; lia|].
  exists ks. split; [exact Hks|]. split; [eapply input_node_offsets_length; exact Hks|].
  split; [reflexivity|].
  rewrite map_map. apply map_ext. intros k. simpl. f_equal; lia.
Qed.

Lemma placed_switch (s : Switch) :
  placed (OSwitch s) ->
  let x := rect_x (rect (s_base s)) in
  let y := rect_y (rect (s_base s)) in
  rect (s_base s) = mkRect x y 40 40
  /\ s_toggle_rect s = mkRect (x + 8) (y + 8) 24 24
  /\ s_output_node_pos s = (x + 46, y + 20)
  /\ s_output_node_rect s = mkRect (x + 40) (y + 14) 12 12.
Proof.
  intros [Hf ((Hw & Hh) & (Htw & Hth))] x y. simpl in *.
  destruct s as [[[rx ry rw rh] dr dx dy] v [tx ty tw th] op orr].
  unfold s_update_node_positions, set_topleft, rect_right, rect_left, rect_top,
    rect_centery, node_rect, output_node_radius in Hf.
  simpl in *. subst rw rh tw th x y. change (Z.quot 40 2) with 20 in Hf.
  injection Hf as E1 E2 E3 E4. subst.
  split; [reflexivity|]. split; [reflexivity|].
  split; [f_equal; lia | f_equal; lia].
Qed.

Lemma placed_light (l : Light) :
  placed (OLight l) ->
  let x := rect_x (rect (l_base l)) in
  let y := rect_y (rect (l_base l)) in
  rect (l_base l) = mkRect x y 40 40
  /\ l_input_nodes_pos l = [(x - 5, y + 20)]
  /\ l_input_node_rects l = [mkRect (x - 10) (y + 15) 10 10].
Proof.
  intros [Hf (Hw & Hh)] x y. simpl in *.
  destruct l as [[[rx ry rw rh] dr dx dy] v n ics np nr].
  unfold l_update_node_positions, rect_left, rect_centery, node_rect,
    input_node_radius in Hf.
  simpl in *. subst rw rh x y. change (Z.quot 40 2) with 20 in Hf.
  injection Hf as E1 E2. subst.
  split; [reflexivity|]. split; [reflexivity|]. do 2 f_equal; lia.
Qed.

(** X6: in every state of the program the nodes and buttons of every
    object are where its body is: they are never left behind by a drag or by
    a change of the count of inputs.  From the corner (x, y) of the body, a
    switch has its toggle area at (x+8, y+8) and its output node at
    (x+46, y+20); a light has its input node at (x-5, y+20); a Perceptron has
    its '+' button at (x+42, y+3), its '-' button at (x+24, y+3), its output
    node at (x+66, y+40) and its input nodes at x-5, at the heights
    [int(80 / (num_inputs + 1) * (i + 1))] below y. *)
Theorem nodes_follow_body (rnd1 rnd2 : nat -> float) (w : World) (t : nat) (o : Obj) :
  reachable rnd1 rnd2 w -> all_objects w !! t = Some o ->
  let x := rect_x (rect (obj_base o)) in
  let y := rect_y (rect (obj_base o)) in
  match o with
  | OSwitch s =>
      rect (s_base s) = mkRect x y 40 40
      /\ s_toggle_rect s = mkRect (x + 8) (y + 8) 24 24
      /\ s_output_node_pos s = (x + 46, y + 20)
      /\ s_output_node_rect s = mkRect (x + 40) (y + 14) 12 12
  | OLight l =>
      rect (l_base l) = mkRect x y 40 40
      /\ l_input_nodes_pos l = [(x - 5, y + 20)]
      /\ l_input_node_rects l = [mkRect (x - 10) (y + 15) 10 10]
  | OPerceptron p =>
      rect (p_base p) = mkRect x y 60 80
      /\ p_plus_button_rect p = mkRect (x + 42) (y + 3) 15 15
      /\ p_minus_button_rect p = mkRect (x + 24) (y + 3) 15 15
      /\ p_output_node_pos p = (x + 66, y + 40)
      /\ p_output_node_rect p = mkRect (x + 60) (y + 34) 12 12
      /\ exists ks,
           input_node_offsets 80 (p_num_inputs p) = Ok ks
           /\ length ks = p_num_inputs p
           /\ p_input_nodes_pos p = map (fun k => (x - 5, y + k)) ks
           /\ p_input_node_rects p = map (fun k => mkRect (x - 10) (y + k - 5) 10 10) ks
  end.
Proof.
  intros Hreach Ho. apply reachable_placed in Hreach.
  rewrite Forall_forall in Hreach. apply list_elem_of_lookup_2, Hreach in Ho.
  destruct o as [s|p|l].
  - apply placed_switch. exact Ho.
  - apply placed_perceptron. exact Ho.
  - apply placed_light. exact Ho.
Qed.

Lemma nodes_follow_body_witness :
  exists (w : World) (s : Switch),
    (w0 <- initial_world (fun _ => 0.5%float) (fun _ => 0.5%float) ;;
     process_events [(0%float, MOUSEBUTTONDOWN 1 (55, 55));
                     (0%float, MOUSEMOTION (155, 255))] w0) = Ok w
    /\ all_objects w !! 0%nat = Some (OSwitch s)
    /\ rect (s_base s) = mkRect 150 250 40 40
    /\ s_toggle_rect s = mkRect 158 258 24 24
    /\ s_output_node_pos s = (196, 270)
    /\ s_output_node_rect s = mkRect 190 264 12 12.
Proof.
  evar (w : World).
  assert (Hw : (w0 <- initial_world (fun _ => 0.5%float) (fun _ => 0.5%float) ;;
                process_events [(0%float, MOUSEBUTTONDOWN 1 (55, 55));
                                (0%float, MOUSEMOTION (155, 255))] w0) = Ok w).
  { vm_compute. subst w. reflexivity. }
  evar (s : Switch).
  assert (Hs : all_objects w !! 0%nat = Some (OSwitch s)).
  { vm_compute. subst s. reflexivity. }
  exists w, s. split; [exact Hw|]. split; [exact Hs|].
  exact (nodes_follow_body _ _ w 0 (OSwitch s) (reachable_run _ _ _ _ Hw) Hs).
Defined.

(** ** Hit regions *)

Lemma collidepoint_true (r : Rect) (pt : pos) :
  collidepoint r pt = true <->
  rect_x r <= fst pt < rect_x r + rect_w r /\ rect_y r <= snd pt < rect_y r + rect_h r.
Proof.
  unfold collidepoint. rewrite !andb_true_iff, !Z.leb_le, !Z.ltb_lt. lia.
Qed.

Lemma collidepoint_false (r : Rect) (pt : pos) :
  collidepoint r pt = false <->
  ~ (rect_x r <= fst pt < rect_x r + rect_w r /\ rect_y r <= snd pt < rect_y r + rect_h r).
Proof.
  rewrite <- collidepoint_true. destruct (collidepoint r pt); split; congruence.
Qed.

Ltac rects :=
  unfold rect_inside, rect_disjoint; intros;
  repeat match goal with
    | H : collidepoint _ _ = true |- _ => apply collidepoint_true in H; simpl in H
    end;
  first [apply collidepoint_true | apply collidepoint_false]; simpl; lia.

Lemma placed_ports_outside (o : Obj) :
  placed o ->
  match o with
  | OSwitch s =>
      rect_inside (s_toggle_rect s) (rect (s_base s))
      /\ rect_disjoint (s_output_node_rect s) (rect (s_base s))
  | OLight l =>
      forall r, r ∈ l_input_node_rects l -> rect_disjoint r (rect (l_base l))
  | OPerceptron p =>
      rect_inside (p_plus_button_rect p) (rect (p_base p))
      /\ rect_inside (p_minus_button_rect p) (rect (p_base p))
      /\ rect_disjoint (p_plus_button_rect p) (p_minus_button_rect p)
      /\ rect_disjoint (p_output_node_rect p) (rect (p_base p))
      /\ forall r, r ∈ p_input_node_rects p ->
           rect_disjoint r (rect (p_base p))
           /\ rect_disjoint r (p_output_node_rect p)
  end.
Proof.
  intros Ho. destruct o as [s|p|l].
  - destruct (placed_switch s Ho) as (-> & -> & _ & ->). split; rects.
  - destruct (placed_perceptron p Ho) as (-> & -> & -> & _ & -> & ks & _ & _ & _ & ->).
    repeat split; try rects.
    + apply list_elem_of_In, in_map_iff in H as (k & <- & _). rects.
    + apply list_elem_of_In, in_map_iff in H as (k & <- & _). rects.
  - destruct (placed_light l Ho) as (-> & _ & ->). intros r Hr.
    apply list_elem_of_singleton in Hr. subst r. rects.
Qed.

(** X7: in every state of the program the ports lie outside the bodies and
    the buttons inside: the toggle area of a switch is inside its body and
    its output node outside; the input node of a light is outside its body;
    the two buttons of a Perceptron are inside its body and apart from each
    other, its output node and its input nodes are outside the body and
    apart from each other.  So a position on a port is never a position on
    the body of the same object. *)
Theorem ports_outside_bodies (rnd1 rnd2 : nat -> float) (w : World) (t : nat) (o : Obj) :
  reachable rnd1 rnd2 w -> all_objects w !! t = Some o ->
  match o with
  | OSwitch s =>
      rect_inside (s_toggle_rect s) (rect (s_base s))
      /\ rect_disjoint (s_output_node_rect s) (rect (s_base s))
  | OLight l =>
      forall r, r ∈ l_input_node_rects l -> rect_disjoint r (rect (l_base l))
  | OPerceptron p =>
      rect_inside (p_plus_button_rect p) (rect (p_base p))
      /\ rect_inside (p_minus_button_rect p) (rect (p_base p))
      /\ rect_disjoint (p_plus_button_rect p) (p_minus_button_rect p)
      /\ rect_disjoint (p_output_node_rect p) (rect (p_base p))
      /\ forall r, r ∈ p_input_node_rects p ->
           rect_disjoint r (rect (p_base p))
           /\ rect_disjoint r (p_output_node_rect p)
  end.
Proof.
  intros Hreach Ho. apply placed_ports_outside.
  apply reachable_placed in Hreach. rewrite Forall_forall in Hreach.
  apply Hreach. eapply list_elem_of_lookup_2. exact Ho.
Qed.

Lemma ports_outside_bodies_witness :
  exists (w : World) (p : Perceptron),
    initial_world (fun _ => 0.5%float) (fun _ => 0.5%float) = Ok w
    /\ all_objects w !! 2%nat = Some (OPerceptron p)
    /\ collidepoint (p_plus_button_rect p) (245, 105) = true
    /\ collidepoint (rect (p_base p)) (245, 105) = true
    /\ collidepoint (p_minus_button_rect p) (245, 105) = false.
Proof.
  evar (w : World).
  assert (Hw : initial_world (fun _ => 0.5%float) (fun _ => 0.5%float) = Ok w).
  { vm_compute. subst w. reflexivity. }
  evar (p : Perceptron).
  assert (Hp : all_objects w !! 2%nat = Some (OPerceptron p)).
  { vm_compute. subst p. reflexivity. }
  destruct (ports_outside_bodies _ _ w 2 (OPerceptron p) (reach_init _ _ _ Hw) Hp)
    as (Hplus & _ & Hapart & _).
  assert (Hc : collidepoint (p_plus_button_rect p) (245, 105) = true) by reflexivity.
  exists w, p. split; [exact Hw|]. split; [exact Hp|]. split; [exact Hc|].
  split; [apply Hplus; exact Hc | apply Hapart; exact Hc].
Defined.

Lemma reachable_perceptron (rnd1 rnd2 : nat -> float) (w : World) (t : nat) (p : Perceptron) :
  reachable rnd1 rnd2 w -> all_objects w !! t = Some (OPerceptron p) ->
  p_ok p /\ placed (OPerceptron p).
Proof.
  intros Hreach Hp. split.
  - apply reachable_ok in Hreach. apply (world_ok_perceptron w t p Hreach Hp).
  - apply reachable_placed in Hreach. rewrite Forall_forall in Hreach.
    apply Hreach. eapply list_elem_of_lookup_2. exact Hp.
Qed.





(** ** An event for the object on top *)

Lemma existsb_first_hit (rects : list Rect) (pt : pos) :
  existsb (fun r => collidepoint r pt) rects = false -> first_hit rects pt = None.
Proof.
  induction rects as [|r rects IH]; simpl; [reflexivity|].
  intros H. apply orb_false_iff in H as [-> H]. rewrite (IH H). reflexivity.
Qed.

(** An object of the program leaves a pointer-down that does not touch
    it. *)
Lemma handle_event_untouched (self : nat) (u : float) (o : Obj) (b : Z) (pt : pos)
    (gs : GlobalState) (conns : list Connection) :
  placed o -> touches o pt = false ->
  handle_event self u o (MOUSEBUTTONDOWN b pt) gs conns = Ok (false, o, gs, conns).
Proof.
  intros Hpl Ht. unfold touches in Ht. apply orb_false_iff in Ht as [Hbody Hnodes].
  pose proof (placed_ports_outside _ Hpl) as Hports.
  destruct o as [s|p|l]; simpl in *.
  - destruct Hports as [Hin _]. apply orb_false_iff in Hnodes as [-> _].
    assert (Htog : collidepoint (s_toggle_rect s) pt = false).
    { destruct (collidepoint (s_toggle_rect s) pt) eqn:E; [|reflexivity].
      apply Hin in E. congruence. }
    rewrite Htog, Hbody. destruct (b =? 1); [reflexivity|].
    destruct (b =? 3); reflexivity.
  - destruct Hports as (Hplus & Hminus & _).
    apply orb_false_iff in Hnodes as [Hout Hin].
    assert (Hp : collidepoint (p_plus_button_rect p) pt = false).
    { destruct (collidepoint (p_plus_button_rect p) pt) eqn:E; [|reflexivity].
      apply Hplus in E. congruence. }
    assert (Hm : collidepoint (p_minus_button_rect p) pt = false).
    { destruct (collidepoint (p_minus_button_rect p) pt) eqn:E; [|reflexivity].
      apply Hminus in E. congruence. }
    rewrite Hp, Hm, Hout, Hbody, (existsb_first_hit _ _ Hin), !andb_false_r. simpl.
    destruct (b =? 3); [reflexivity|]. destruct (b =? 1); reflexivity.
  - unfold Light_handle_event, DraggableObject_handle_event. rewrite Hbody. simpl.
    unfold l_get_input_node_rect. destruct (l_input_node_rects l) as [|node nodes];
      [reflexivity|].
    simpl in Hnodes. apply orb_false_iff in Hnodes as [-> _].
    rewrite andb_false_r. reflexivity.
Qed.

Lemma handle_event_release (self : nat) (u : float) (o : Obj) (pt : pos)
    (gs : GlobalState) (conns : list Connection) :
  dragging o = true ->
  handle_event self u o (MOUSEBUTTONUP 1 pt) gs conns
  = Ok (true, obj_set_base o (stop_drag (obj_base o)), gs, conns).
Proof.
  unfold dragging. intros Hd. destruct o as [s|p|l]; simpl in *.
  - rewrite Hd. reflexivity.
  - rewrite Hd. reflexivity.
  - unfold Light_handle_event, DraggableObject_handle_event. rewrite Hd. reflexivity.
Qed.

Lemma handle_event_motion_idle (self : nat) (u : float) (o : Obj) (q : pos)
    (gs : GlobalState) (conns : list Connection) :
  dragging o = false ->
  handle_event self u o (MOUSEMOTION q) gs conns = Ok (false, o, gs, conns).
Proof.
  unfold dragging. intros Hd. destruct o as [s|p|l]; simpl in *.
  - rewrite Hd. reflexivity.
  - rewrite Hd. reflexivity.
  - unfold Light_handle_event, DraggableObject_handle_event. rewrite Hd. reflexivity.
Qed.

Lemma handle_event_up_idle (self : nat) (u : float) (o : Obj) (b : Z) (pt : pos)
    (gs : GlobalState) (conns : list Connection) :
  dragging o = false ->
  handle_event self u o (MOUSEBUTTONUP b pt) gs conns = Ok (false, o, gs, conns).
Proof.
  unfold dragging. intros Hd. destruct o as [s|p|l]; simpl in *.
  - rewrite Hd, andb_false_r. reflexivity.
  - rewrite Hd. reflexivity.
  - unfold Light_handle_event, DraggableObject_handle_event. rewrite Hd. reflexivity.
Qed.

(** The loop passes by the objects that leave the event. *)
Lemma dispatch_skip (k t : nat) (u : float) (ev : event) (w : World) :
  (t <= k)%nat ->
  (forall j o, (t <= j < k)%nat -> all_objects w !! j = Some o ->
     handle_event j u o ev (global_connection_state w) (connections w)
     = Ok (false, o, global_connection_state w, connections w)) ->
  dispatch k u ev w = dispatch t u ev w.
Proof.
  intros Hle Hall. induction k as [|k IH]; [replace t with 0%nat by lia; reflexivity|].
  destruct (decide (t = S k)) as [->|Hne]; [reflexivity|].
  simpl. destruct (all_objects w !! k) as [o|] eqn:Ho.
  - rewrite (Hall k o) by (try lia; exact Ho). simpl.
    rewrite list_insert_id, world_eta by exact Ho.
    apply IH; [lia|]. intros j o' Hj. apply Hall. lia.
  - apply IH; [lia|]. intros j o' Hj. apply Hall. lia.
Qed.

(** The event goes to the object at [t] when the objects after it leave
    it and it takes it. *)
Lemma dispatch_handled (u : float) (ev : event) (w : World) (t : nat) (o o' : Obj)
    (gs' : GlobalState) (conns' : list Connection) :
  all_objects w !! t = Some o ->
  (forall j o2, (t < j)%nat -> all_objects w !! j = Some o2 ->
     handle_event j u o2 ev (global_connection_state w) (connections w)
     = Ok (false, o2, global_connection_state w, connections w)) ->
  handle_event t u o ev (global_connection_state w) (connections w)
  = Ok (true, o', gs', conns') ->
  dispatch (length (all_objects w)) u ev w = Ok (world_with w t o' conns' gs').
Proof.
  intros Ho Habove Hh. apply lookup_lt_Some in Ho as Hlt.
  rewrite (dispatch_skip _ (S t)); [|lia|].
  - simpl. rewrite Ho, Hh. reflexivity.
  - intros j o2 Hj. apply Habove. lia.
Qed.

(** The objects that the loop does not reach are as they were. *)
Lemma dispatch_above (k : nat) (u : float) (ev : event) (w w' : World) (j : nat) :
  dispatch k u ev w = Ok w' -> (k <= j)%nat ->
  all_objects w' !! j = all_objects w !! j.
Proof.
  intros H Hj. destruct (dispatch_spec _ _ _ _ _ H)
    as [[-> _] | (j0 & o & o' & gs' & conns' & Hj0 & _ & _ & -> & _)]; [reflexivity|].
  simpl. apply list_lookup_insert_ne. lia.
Qed.

Lemma clear_above_insert (objs : list Obj) (t : nat) (o : Obj) (pt : pos) :
  clear_above objs t pt -> clear_above (<[t := o]> objs) t pt.
Proof.
  intros H j o' Hj Ho'. rewrite list_lookup_insert_ne in Ho' by lia. eauto.
Qed.

Lemma none_dragged_above_insert (objs : list Obj) (t : nat) (o : Obj) :
  none_dragged_above objs t -> none_dragged_above (<[t := o]> objs) t.
Proof.
  intros H j o' Hj Ho'. rewrite list_lookup_insert_ne in Ho' by lia. eauto.
Qed.

Lemma world_at_id (w : World) (t : nat) (o : Obj) :
  all_objects w !! t = Some o -> world_at w t o = w.
Proof.
  intros Ho. unfold world_at, world_with. rewrite list_insert_id by exact Ho.
  apply world_eta.
Qed.

Lemma world_at_twice (w : World) (t : nat) (o o' : Obj) :
  world_at (world_at w t o) t o' = world_at w t o'.
Proof. unfold world_at, world_with. simpl. rewrite list_insert_insert_eq. reflexivity. Qed.

(** A pointer-down that the object on top takes. *)
Lemma pointer_down_on_top (u : float) (b : Z) (pt : pos) (w : World) (t : nat)
    (o o' : Obj) (gs' : GlobalState) (conns' : list Connection) :
  Forall placed (all_objects w) ->
  all_objects w !! t = Some o ->
  clear_above (all_objects w) t pt ->
  handle_event t u o (MOUSEBUTTONDOWN b pt) (global_connection_state w) (connections w)
  = Ok (true, o', gs', conns') ->
  process_event u (MOUSEBUTTONDOWN b pt) w = Ok (world_with w t o' conns' gs').
Proof.
  intros Hpl Ho Hclear Hh. unfold process_event.
  eapply dispatch_handled; [exact Ho| |exact Hh].
  intros j o2 Hj Ho2. apply handle_event_untouched; [|eapply Hclear; eauto].
  rewrite Forall_forall in Hpl. apply Hpl. eapply list_elem_of_lookup_2. exact Ho2.
Qed.

(** A pointer motion that the topmost dragged object takes. *)
Lemma pointer_motion_on_top (u : float) (q : pos) (w : World) (t : nat)
    (o o' : Obj) (gs' : GlobalState) (conns' : list Connection) :
  all_objects w !! t = Some o ->
  none_dragged_above (all_objects w) t ->
  handle_event t u o (MOUSEMOTION q) (global_connection_state w) (connections w)
  = Ok (true, o', gs', conns') ->
  process_event u (MOUSEMOTION q) w = Ok (world_with w t o' conns' gs').
Proof.
  intros Ho Hnone Hh. unfold process_event.
  eapply dispatch_handled; [exact Ho| |exact Hh].
  intros j o2 Hj Ho2. apply handle_event_motion_idle. eapply Hnone; eauto.
Qed.

Lemma reachable_placed_insert (rnd1 rnd2 : nat -> float) (w : World) (t : nat) (o : Obj) :
  reachable rnd1 rnd2 w -> placed o -> Forall placed (<[t := o]> (all_objects w)).
Proof.
  intros Hreach Ho. apply Forall_insert; [|exact Ho]. apply reachable_placed in Hreach.
  exact Hreach.
Qed.

(** ** The '+' and '-' buttons *)

Lemma pop_snoc {A : Type} (l : list A) (a : A) : pop (l ++ [a]) = Ok (l, a).
Proof. unfold pop. rewrite last_snoc, removelast_last. reflexivity. Qed.

Lemma increment_then_decrement (self : nat) (u : float) (p : Perceptron)
    (conns : list Connection) :
  p_ok p -> p_update_node_positions p = Ok p -> (p_num_inputs p < 8)%nat ->
  exists p1, increment_inputs u p = Ok p1
             /\ p_num_inputs p1 = S (p_num_inputs p)
             /\ p_plus_button_rect p1 = p_plus_button_rect p
             /\ p_minus_button_rect p1 = p_minus_button_rect p
             /\ decrement_inputs self p1 conns = Ok (p, conns).
Proof.
  intros Hok Hfresh Hlt. unfold increment_inputs.
  set (q := p_set_inputs _ _ _ _ _).
  destruct (p_update_node_positions_ok q) as (ks1 & E1 & _).
  { simpl. destruct Hok. lia. } { apply Hok. }
  rewrite E1. eexists. split; [reflexivity|].
  rewrite p_update_node_positions_eq in Hfresh.
  apply bind_Ok in Hfresh as (ks0 & Hks0 & E). injection E as E0.
  assert (Hplus : p_plus_button_rect (p_geometry_of q ks1) = p_plus_button_rect p).
  { transitivity (p_plus_button_rect (p_geometry_of p ks0)); [reflexivity|].
    rewrite E0. reflexivity. }
  assert (Hminus : p_minus_button_rect (p_geometry_of q ks1) = p_minus_button_rect p).
  { transitivity (p_minus_button_rect (p_geometry_of p ks0)); [reflexivity|].
    rewrite E0. reflexivity. }
  split; [simpl; lia|]. split; [exact Hplus|]. split; [exact Hminus|].
  unfold decrement_inputs.
  change (p_weights (p_geometry_of q ks1)) with (p_weights p ++ [u]).
  change (p_input_connections (p_geometry_of q ks1)) with (p_input_connections p ++ [None]).
  change (p_input_values (p_geometry_of q ks1)) with (p_input_values p ++ [0]).
  rewrite !pop_snoc. simpl bind. cbv zeta.
  change (snd (p_input_connections p, @None nat)) with (@None nat). cbv iota.
  rewrite p_update_node_positions_eq.
  change (p_num_inputs (p_geometry_of q ks1)) with (p_num_inputs p + 1)%nat.
  simpl fst.
  set (q2 := p_set_inputs _ _ _ _ _).
  change (p_num_inputs q2) with (p_num_inputs p + 1 - 1)%nat.
  change (p_base q2) with (p_base p).
  rewrite Nat.add_sub, Hks0. simpl. f_equal. f_equal.
  etransitivity; [|exact E0]. unfold p_geometry_of.
  change (p_base q2) with (p_base p).
  change (p_plus_button_rect q2) with (p_plus_button_rect (p_geometry_of q ks1)).
  change (p_minus_button_rect q2) with (p_minus_button_rect (p_geometry_of q ks1)).
  rewrite Hplus, Hminus. cbv zeta. subst q2. simpl.
  rewrite Nat.add_sub. reflexivity.
Qed.

(** X9: in every state of the program, when no object later in the list is
    under the pointer at either click, a left click on the '+' button of a
    Perceptron with fewer than 8 inputs followed by a left click on its '-'
    button gives back the state of the program as it was: the first click
    changes that Perceptron only, to one more input, and the second gives
    back the Perceptron, weights, input slots, nodes and buttons included,
    the other objects, the list of connections and the drawing state. *)
Theorem plus_then_minus_restores (rnd1 rnd2 : nat -> float) (w : World) (t : nat)
    (p : Perceptron) (u u' : float) (pt pt' : pos) :
  reachable rnd1 rnd2 w -> all_objects w !! t = Some (OPerceptron p) ->
  (p_num_inputs p < 8)%nat ->
  collidepoint (p_plus_button_rect p) pt = true ->
  collidepoint (p_plus_button_rect p) pt' = false ->
  collidepoint (p_minus_button_rect p) pt' = true ->
  clear_above (all_objects w) t pt -> clear_above (all_objects w) t pt' ->
  exists p1,
    process_event u (MOUSEBUTTONDOWN 1 pt) w = Ok (world_at w t (OPerceptron p1))
    /\ p_num_inputs p1 = S (p_num_inputs p)
    /\ process_event u' (MOUSEBUTTONDOWN 1 pt') (world_at w t (OPerceptron p1)) = Ok w.
Proof.
  intros Hreach Hp Hlt Hplus Hnplus Hminus Hclear Hclear'.
  destruct (reachable_perceptron _ _ _ _ _ Hreach Hp) as [Hok Hpl].
  pose proof Hpl as [Hfresh _].
  destruct (increment_then_decrement t u p (connections w) Hok Hfresh Hlt)
    as (p1 & Hinc & Hn & Hpb & Hmb & Hdec).
  exists p1.
  assert (H1 : handle_event t u (OPerceptron p) (MOUSEBUTTONDOWN 1 pt)
                 (global_connection_state w) (connections w)
               = Ok (true, OPerceptron p1, global_connection_state w, connections w)).
  { unfold handle_event. rewrite (handle_plus t u p _ _ _ (ex_intro _ pt (conj eq_refl Hplus))).
    assert (Hb : (p_num_inputs p <? max_inputs)%nat = true)
      by (apply Nat.ltb_lt; exact Hlt).
    rewrite Hb, Hinc. reflexivity. }
  assert (H2 : handle_event t u' (OPerceptron p1) (MOUSEBUTTONDOWN 1 pt')
                 (global_connection_state w) (connections w)
               = Ok (true, OPerceptron p, global_connection_state w, connections w)).
  { unfold handle_event.
    assert (Hon : on_minus p1 (MOUSEBUTTONDOWN 1 pt')).
    { exists pt'. rewrite Hpb, Hmb. auto. }
    rewrite (handle_minus t u' p1 _ _ _ Hon).
    assert (Hb1 : (min_inputs <? p_num_inputs p1)%nat = true).
    { apply Nat.ltb_lt. rewrite Hn. destruct Hok. unfold min_inputs. lia. }
    rewrite Hb1, Hdec. reflexivity. }
  pose proof (handle_event_placed _ _ _ _ _ _ _ H1 Hpl) as Hpl1. simpl in Hpl1.
  split; [|split; [exact Hn|]].
  - apply (pointer_down_on_top u 1 pt w t _ _ _ _ (reachable_placed _ _ _ Hreach) Hp Hclear H1).
  - rewrite <- (world_at_id w t (OPerceptron p) Hp) at 2.
    rewrite <- (world_at_twice w t (OPerceptron p1) (OPerceptron p)).
    apply (pointer_down_on_top u' 1 pt' (world_at w t (OPerceptron p1)) t (OPerceptron p1)).
    + simpl. eapply reachable_placed_insert; eauto.
    + simpl. apply list_lookup_insert_eq. eapply lookup_lt_Some. exact Hp.
    + simpl. apply clear_above_insert. exact Hclear'.
    + exact H2.
Qed.

Lemma plus_then_minus_restores_witness :
  exists (w : World) (p p1 : Perceptron),
    (w0 <- initial_world (fun _ => 0.5%float) (fun _ => 0.5%float) ;;
     process_events [] w0) = Ok w
    /\ all_objects w !! 2%nat = Some (OPerceptron p)
    /\ process_event 0.25%float (MOUSEBUTTONDOWN 1 (245, 105)) w
       = Ok (world_at w 2 (OPerceptron p1))
    /\ p_num_inputs p1 = 3%nat
    /\ process_event 0.75%float (MOUSEBUTTONDOWN 1 (230, 105)) (world_at w 2 (OPerceptron p1))
       = Ok w.
Proof.
  evar (w : World).
  assert (Hw : (w0 <- initial_world (fun _ => 0.5%float) (fun _ => 0.5%float) ;;
                process_events [] w0) = Ok w).
  { vm_compute. subst w. reflexivity. }
  evar (p : Perceptron).
  assert (Hp : all_objects w !! 2%nat = Some (OPerceptron p)).
  { vm_compute. subst p. reflexivity. }
  assert (Hlt : (p_num_inputs p < 8)%nat) by (vm_compute; lia).
  assert (Hc : forall pt, (forall o, In o (skipn 3 (all_objects w)) -> touches o pt = false) ->
               clear_above (all_objects w) 2 pt).
  { intros pt H j o Hj Ho. apply H. apply list_elem_of_In.
    apply list_elem_of_lookup. exists (j - 3)%nat.
    rewrite lookup_drop. replace (3 + (j - 3))%nat with j by lia. exact Ho. }
  assert (Hc1 : clear_above (all_objects w) 2 (245, 105)).
  { apply Hc. intros o Ho. vm_compute in Ho.
    repeat destruct Ho as [<-|Ho]; try reflexivity. destruct Ho. }
  assert (Hc2 : clear_above (all_objects w) 2 (230, 105)).
  { apply Hc. intros o Ho. vm_compute in Ho.
    repeat destruct Ho as [<-|Ho]; try reflexivity. destruct Ho. }
  destruct (plus_then_minus_restores _ _ w 2 p 0.25%float 0.75%float (245, 105) (230, 105)
              (reachable_run _ _ _ _ Hw) Hp Hlt eq_refl eq_refl eq_refl Hc1 Hc2)
    as (p1 & H1 & H2 & H3).
  exists w, p, p1. repeat split; assumption.
Defined.

(** ** Dragging *)

Lemma same_data_trans (o1 o2 o3 : Obj) :
  same_data o1 o2 -> same_data o2 o3 -> same_data o1 o3.
Proof.
  destruct o1, o2, o3; simpl; try tauto; try congruence.
  - intros (? & ? & ? & ? & ? & ?) (? & ? & ? & ? & ? & ?). repeat split; congruence.
  - intros (? & ? & ?) (? & ? & ?). repeat split; congruence.
Qed.

Lemma same_data_sym (o1 o2 : Obj) : same_data o1 o2 -> same_data o2 o1.
Proof.
  destruct o1, o2; simpl; try tauto; try congruence.
  - intros (? & ? & ? & ? & ? & ?). repeat split; congruence.
  - intros (? & ? & ?). repeat split; congruence.
Qed.

(** Where the nodes and buttons of a placed object are is a function of
    where its body is. *)
Lemma placed_determined (o o' : Obj) :
  placed o -> placed o' -> obj_base o = obj_base o' -> same_data o o' -> o = o'.
Proof.
  intros Ho Ho' Hb Hd. destruct o as [s|p|l], o' as [s'|p'|l']; simpl in Hd; try tauto.
  - destruct (placed_switch s Ho) as (_ & H1 & H2 & H3).
    destruct (placed_switch s' Ho') as (_ & H1' & H2' & H3').
    simpl in Hb. rewrite <- Hb in H1', H2', H3'.
    destruct s, s'. simpl in *. subst. reflexivity.
  - destruct (placed_perceptron p Ho) as (_ & H1 & H2 & H3 & H4 & ks & Hks & _ & H5 & H6).
    destruct (placed_perceptron p' Ho') as (_ & H1' & H2' & H3' & H4' & ks' & Hks' & _ & H5' & H6').
    simpl in Hb. rewrite <- Hb in H1', H2', H3', H4', H5', H6'.
    destruct Hd as (Hn & Hw & Hbi & Hov & Hiv & Hic).
    rewrite <- Hn, Hks in Hks'. injection Hks' as <-.
    destruct p, p'. simpl in *. subst. reflexivity.
  - destruct (placed_light l Ho) as (_ & H1 & H2).
    destruct (placed_light l' Ho') as (_ & H1' & H2').
    simpl in Hb. rewrite <- Hb in H1', H2'.
    destruct Hd as (Hv & Hn & Hic).
    destruct l, l'. simpl in *. subst. reflexivity.
Qed.

Lemma drag_back (b : DraggableObject) (pt q : pos) :
  drag_to (drag_to (start_drag b pt) q) pt = start_drag b pt.
Proof.
  destruct b as [[x y w h] d ox oy]. unfold drag_to, start_drag, set_xy. simpl.
  f_equal. f_equal; lia.
Qed.

Lemma drag_rect (b : DraggableObject) (pt q : pos) :
  rect (drag_to (start_drag b pt) q) = moved (rect b) (fst q - fst pt) (snd q - snd pt).
Proof.
  destruct b as [[x y w h] d ox oy]. unfold drag_to, start_drag, set_xy, moved. simpl.
  f_equal; lia.
Qed.

Lemma handle_event_motion (self : nat) (u : float) (o : Obj) (q : pos)
    (gs : GlobalState) (conns : list Connection) :
  obj_ok o -> placed o -> dragging o = true ->
  exists o2, handle_event self u o (MOUSEMOTION q) gs conns = Ok (true, o2, gs, conns)
             /\ obj_base o2 = drag_to (obj_base o) q
             /\ same_data o o2 /\ placed o2 /\ obj_ok o2.
Proof.
  intros Hok Hpl Hd.
  destruct (handle_event_ok self u o (MOUSEMOTION q) gs conns Hok)
    as ([[[h o2] gs2] conns2] & E & Hok2 & _).
  pose proof (handle_event_placed _ _ _ _ _ _ _ E Hpl) as Hpl2. simpl in Hpl2, Hok2.
  exists o2. rewrite E. unfold dragging in Hd.
  assert (Hdone : forall x : Obj, same_data o x -> obj_base x = drag_to (obj_base o) q ->
            placed x -> obj_ok x ->
            Ok (true, x, gs, conns) = Ok (true, x, gs, conns)
            /\ obj_base x = drag_to (obj_base o) q
            /\ same_data o x /\ placed x /\ obj_ok x) by (intros; tauto).
  destruct o as [s|p|l]; simpl in E, Hd.
  - rewrite Hd in E. simpl in E. inv_ok. apply Hdone; try assumption; reflexivity.
  - rewrite Hd in E. inv_ok. simpl.
    rewrite p_update_node_positions_eq in Ha0. inv_ok.
    apply Hdone; try assumption; simpl; tauto.
  - unfold Light_handle_event, DraggableObject_handle_event in E.
    rewrite Hd in E. simpl in E. inv_ok. apply Hdone; try assumption; simpl; tauto.
Qed.

Lemma Switch_grab (self : nat) (s s1 : Switch) (b : Z) (pt : pos)
    (gs gs1 : GlobalState) (conns conns1 : list Connection) (h : bool) :
  placed (OSwitch s) ->
  Switch_handle_event self s (MOUSEBUTTONDOWN b pt) gs conns = Ok (h, s1, gs1, conns1) ->
  (grabs (OSwitch s) b pt = true
   /\ (h, s1, gs1, conns1) = (true, s_set_base s (start_drag (s_base s) pt), gs, conns))
  \/ (grabs (OSwitch s) b pt = false /\ s_base s1 = s_base s).
Proof.
  intros Hpl H. destruct (placed_ports_outside _ Hpl) as [_ Hout].
  simpl in H. unfold grabs.
  destruct (collidepoint (s_output_node_rect s) pt) eqn:Eo.
  - right. rewrite (Hout pt Eo), andb_false_r. simpl.
    destruct (b =? 1); inv_ok; auto.
  - destruct (b =? 1) eqn:Eb; simpl.
    + destruct (collidepoint (s_toggle_rect s) pt) eqn:Et.
      * right. rewrite andb_false_r.
        destruct (negb (is_drawing_connection gs)); inv_ok; auto.
      * destruct (collidepoint (rect (s_base s)) pt) eqn:Er; inv_ok; auto.
    + right. split; [reflexivity|].
      destruct (b =? 3); [destruct (collidepoint (rect (s_base s)) pt)|]; inv_ok; auto.
Qed.

Lemma Light_grab (self : nat) (l l1 : Light) (b : Z) (pt : pos)
    (gs gs1 : GlobalState) (conns conns1 : list Connection) (h : bool) :
  Light_handle_event self l (MOUSEBUTTONDOWN b pt) gs conns = Ok (h, l1, gs1, conns1) ->
  (grabs (OLight l) b pt = true
   /\ (h, l1, gs1, conns1) = (true, l_set_base l (start_drag (l_base l) pt), gs, conns))
  \/ (grabs (OLight l) b pt = false /\ l_base l1 = l_base l).
Proof.
  intros H. unfold Light_handle_event, DraggableObject_handle_event in H.
  unfold grabs. destruct (collidepoint (rect (l_base l)) pt) eqn:Er; simpl in H.
  - left. inv_ok. auto.
  - right. split; [reflexivity|].
    destruct (l_input_node_rects l) as [|node nodes]; [inv_ok; reflexivity|].
    destruct (rect_bool node && collidepoint node pt); [|inv_ok; reflexivity].
    destruct (b =? 3).
    + apply bind_Ok in H as (src & _ & H). destruct src; inv_ok; reflexivity.
    + destruct (b =? 1); [destruct (negb (is_drawing_connection gs))|];
        inv_ok; reflexivity.
Qed.

Lemma decrement_inputs_base (self : nat) (p p' : Perceptron)
    (conns conns' : list Connection) :
  decrement_inputs self p conns = Ok (p', conns') -> p_base p' = p_base p.
Proof.
  unfold decrement_inputs. intros H. inv_ok.
  match goal with
  | H : p_update_node_positions _ = Ok _ |- _ =>
      apply p_update_node_positions_base in H; exact H
  end.
Qed.

Lemma Perceptron_grab (self : nat) (u : float) (p p1 : Perceptron) (b : Z) (pt : pos)
    (gs gs1 : GlobalState) (conns conns1 : list Connection) (h : bool) :
  placed (OPerceptron p) ->
  Perceptron_handle_event self u p (MOUSEBUTTONDOWN b pt) gs conns
    = Ok (h, p1, gs1, conns1) ->
  (grabs (OPerceptron p) b pt = true
   /\ (h, p1, gs1, conns1) = (true, p_set_base p (start_drag (p_base p) pt), gs, conns))
  \/ (grabs (OPerceptron p) b pt = false /\ p_base p1 = p_base p).
Proof.
  intros Hpl H. destruct (placed_ports_outside _ Hpl) as (_ & _ & _ & Hout & Hin).
  simpl in H. unfold grabs.
  destruct (b =? 1) eqn:Eb; simpl in H |- *.
  - apply Z.eqb_eq in Eb. subst b.
    destruct (collidepoint (p_plus_button_rect p) pt) eqn:Ep.
    { right. rewrite andb_false_r. split; [reflexivity|].
      destruct (p_num_inputs p <? max_inputs)%nat; inv_ok; [|reflexivity].
      unfold increment_inputs in Ha. apply p_update_node_positions_base in Ha. exact Ha. }
    destruct (collidepoint (p_minus_button_rect p) pt) eqn:Em.
    { right. rewrite andb_false_r. split; [reflexivity|].
      destruct (min_inputs <? p_num_inputs p)%nat; inv_ok; [|reflexivity].
      destruct a as [p' c']. apply decrement_inputs_base in Ha. exact Ha. }
    simpl in H. rewrite !andb_true_r.
    destruct (collidepoint (rect (p_base p)) pt) eqn:Er.
    + left. split; [reflexivity|].
      destruct (collidepoint (p_output_node_rect p) pt) eqn:Eo.
      { apply Hout in Eo. congruence. }
      destruct (first_hit (p_input_node_rects p) pt) as [i|] eqn:Ei.
      { apply first_hit_Some in Ei as (r & Hr & Hc).
        apply list_elem_of_lookup_2, Hin in Hr as [Hr _]. apply Hr in Hc. congruence. }
      rewrite andb_false_r in H. inv_ok. reflexivity.
    + right. split; [reflexivity|].
      destruct (collidepoint (p_output_node_rect p) pt); [inv_ok; reflexivity|].
      destruct (negb (is_drawing_connection gs)
                && bool_decide (is_Some (first_hit (p_input_node_rects p) pt)));
        inv_ok; reflexivity.
  - right. split; [reflexivity|].
    destruct (b =? 3); [|inv_ok; reflexivity].
    destruct (first_hit (p_input_node_rects p) pt) as [i|]; [|inv_ok; reflexivity].
    apply bind_Ok in H as (src & _ & H). destruct src; inv_ok; reflexivity.
Qed.

Lemma handle_event_grab (self : nat) (u : float) (o o1 : Obj) (b : Z) (pt : pos)
    (gs gs1 : GlobalState) (conns conns1 : list Connection) (h : bool) :
  placed o ->
  handle_event self u o (MOUSEBUTTONDOWN b pt) gs conns = Ok (h, o1, gs1, conns1) ->
  (grabs o b pt = true
   /\ (h, o1, gs1, conns1) = (true, obj_set_base o (start_drag (obj_base o) pt), gs, conns))
  \/ (grabs o b pt = false /\ obj_base o1 = obj_base o).
Proof.
  intros Hpl H. destruct o as [s|p|l]; simpl in H;
    apply bind_Ok in H as ([[[h0 x] gs0] conns0] & Hx & H); inv_ok.
  - destruct (Switch_grab _ _ _ _ _ _ _ _ _ _ Hpl Hx) as [[Hg E]|[Hg E]];
      [left; inversion E; subst | right]; auto.
  - destruct (Perceptron_grab _ _ _ _ _ _ _ _ _ _ _ Hpl Hx) as [[Hg E]|[Hg E]];
      [left; inversion E; subst | right]; auto.
  - destruct (Light_grab _ _ _ _ _ _ _ _ _ _ Hx) as [[Hg E]|[Hg E]];
      [left; inversion E; subst | right]; auto.
Qed.

Lemma obj_base_set (o : Obj) (b : DraggableObject) : obj_base (obj_set_base o b) = b.
Proof. destruct o; reflexivity. Qed.

Lemma same_data_set_base (o : Obj) (b : DraggableObject) : same_data o (obj_set_base o b).
Proof. destruct o; simpl; tauto. Qed.

Lemma reachable_object (rnd1 rnd2 : nat -> float) (w : World) (t : nat) (o : Obj) :
  reachable rnd1 rnd2 w -> all_objects w !! t = Some o -> obj_ok o /\ placed o.
Proof.
  intros Hreach Ho. apply list_elem_of_lookup_2 in Ho. split.
  - apply reachable_ok in Hreach. destruct Hreach as [Hobjs _ _].
    rewrite Forall_forall in Hobjs. apply Hobjs. exact Ho.
  - apply reachable_placed in Hreach. rewrite Forall_forall in Hreach.
    apply Hreach. exact Ho.
Qed.

(** The objects after position [t] leave a pointer-down that touches none
    of them: the loop comes to the object at [t]. *)
Lemma pointer_down_reaches (u : float) (b : Z) (pt : pos) (w : World) (t : nat) :
  Forall placed (all_objects w) -> (t < length (all_objects w))%nat ->
  clear_above (all_objects w) t pt ->
  process_event u (MOUSEBUTTONDOWN b pt) w = dispatch (S t) u (MOUSEBUTTONDOWN b pt) w.
Proof.
  intros Hpl Hlt Hclear. unfold process_event. apply dispatch_skip; [lia|].
  intros j o2 Hj Ho2. apply handle_event_untouched; [|apply (Hclear j o2); [lia | exact Ho2]].
  rewrite Forall_forall in Hpl. apply Hpl. eapply list_elem_of_lookup_2. exact Ho2.
Qed.

(** X10: in every state of the program, a pointer-down at a place where no
    object later in the list than the one at position [t] is touched makes
    that object, when it is not dragged, a dragged one exactly when it is
    the left button on
    the body of a switch off its toggle area, the left button on the body of
    a Perceptron off its '+' and '-' buttons, or any button on the body of a
    light.  The event then changes that object only: it keeps the offsets of
    the body's corner from the pointer, and nothing else changes, not the
    values of the object, not the other objects, not the drawing state, not
    the connections. *)
Theorem drag_starts_on_body (rnd1 rnd2 : nat -> float) (w : World) (t : nat) (o : Obj)
    (u : float) (b : Z) (pt : pos) :
  reachable rnd1 rnd2 w -> all_objects w !! t = Some o ->
  dragging o = false ->
  clear_above (all_objects w) t pt ->
  exists w' o',
    process_event u (MOUSEBUTTONDOWN b pt) w = Ok w'
    /\ all_objects w' !! t = Some o'
    /\ (dragging o' = true <-> grabs o b pt = true)
    /\ (grabs o b pt = true ->
        w' = world_at w t (obj_set_base o (start_drag (obj_base o) pt))).
Proof.
  intros Hreach Ho Hd Hclear. destruct (reachable_object _ _ _ _ _ Hreach Ho) as [Hok Hpl].
  pose proof (reachable_placed _ _ _ Hreach) as Hall.
  apply lookup_lt_Some in Ho as Hlt.
  destruct (process_event_ok u (MOUSEBUTTONDOWN b pt) w (reachable_ok _ _ _ Hreach))
    as (w' & Hw' & _).
  exists w'.
  pose proof Hw' as Hdisp. rewrite (pointer_down_reaches u b pt w t Hall Hlt Hclear) in Hdisp.
  simpl in Hdisp. rewrite Ho in Hdisp.
  apply bind_Ok in Hdisp as ([[[h o1] gs1] conns1] & H & Hrest). simpl in Hrest.
  assert (Ht : all_objects w' !! t = Some o1).
  { destruct h.
    - inv_ok. simpl. apply list_lookup_insert_eq. exact Hlt.
    - rewrite (dispatch_above _ _ _ _ _ t Hrest) by lia.
      simpl. apply list_lookup_insert_eq. exact Hlt. }
  exists o1. split; [exact Hw'|]. split; [exact Ht|].
  destruct (handle_event_grab _ _ _ _ _ _ _ _ _ _ _ Hpl H) as [[Hg E]|[Hg E]].
  - inversion E; subst. split.
    + split; [intros _; exact Hg|]. intros _. unfold dragging.
      rewrite obj_base_set. reflexivity.
    + intros _. inv_ok. reflexivity.
  - split.
    + unfold dragging in *. rewrite E, Hd, Hg. tauto.
    + rewrite Hg. discriminate.
Qed.

Lemma drag_starts_on_body_witness :
  exists (w w' : World) (o o' : Obj),
    (w0 <- initial_world (fun _ => 0.5%float) (fun _ => 0.5%float) ;;
     process_events [] w0) = Ok w
    /\ all_objects w !! 4%nat = Some o
    /\ dragging o = false
    /\ process_event 0.5%float (MOUSEBUTTONDOWN 1 (582, 82)) w = Ok w'
    /\ all_objects w' !! 4%nat = Some o'
    /\ grabs o 1 (582, 82) = true
    /\ dragging o' = true
    /\ w' = world_at w 4 (obj_set_base o (start_drag (obj_base o) (582, 82))).
Proof.
  evar (w : World).
  assert (Hw : (w0 <- initial_world (fun _ => 0.5%float) (fun _ => 0.5%float) ;;
                process_events [] w0) = Ok w).
  { vm_compute. subst w. reflexivity. }
  evar (o : Obj).
  assert (Ho : all_objects w !! 4%nat = Some o).
  { vm_compute. subst o. reflexivity. }
  assert (Hd : dragging o = false) by reflexivity.
  assert (Hc : clear_above (all_objects w) 4 (582, 82)).
  { intros j o2 Hj Ho2. apply lookup_lt_Some in Ho2 as Hlt.
    change (length (all_objects w)) with 6%nat in Hlt.
    assert (Hj5 : j = 5%nat) by lia. subst j.
    vm_compute in Ho2. injection Ho2 as <-. reflexivity. }
  destruct (drag_starts_on_body _ _ w 4 o 0.5%float 1 (582, 82)
              (reachable_run _ _ _ _ Hw) Ho Hd Hc) as (w' & o' & H1 & H2 & [_ H3] & H4).
  exists w, w', o, o'. split; [exact Hw|]. split; [exact Ho|]. split; [exact Hd|].
  split; [exact H1|]. split; [exact H2|]. split; [reflexivity|].
  split; [apply H3; reflexivity | apply H4; reflexivity].
Defined.

(** What a pointer motion does to the world when the topmost dragged
    object is at position [t]. *)
Lemma motion_on_top (u : float) (q : pos) (w : World) (t : nat) (o : Obj) :
  obj_ok o -> placed o -> dragging o = true ->
  all_objects w !! t = Some o -> none_dragged_above (all_objects w) t ->
  exists o2, process_event u (MOUSEMOTION q) w = Ok (world_at w t o2)
             /\ obj_base o2 = drag_to (obj_base o) q
             /\ same_data o o2 /\ placed o2 /\ obj_ok o2.
Proof.
  intros Hok Hpl Hd Ho Hnone.
  destruct (handle_event_motion t u o q (global_connection_state w) (connections w)
              Hok Hpl Hd) as (o2 & E & Hrest).
  exists o2. split; [|exact Hrest].
  apply (pointer_motion_on_top u q w t o o2 _ _ Ho Hnone E).
Qed.

(** What a pointer-down that takes hold of the object on top does to the
    world. *)
Lemma grab_on_top (rnd1 rnd2 : nat -> float) (w : World) (t : nat) (o : Obj)
    (u : float) (b : Z) (pt : pos) :
  reachable rnd1 rnd2 w -> all_objects w !! t = Some o ->
  grabs o b pt = true -> clear_above (all_objects w) t pt ->
  let o1 := obj_set_base o (start_drag (obj_base o) pt) in
  process_event u (MOUSEBUTTONDOWN b pt) w = Ok (world_at w t o1)
  /\ obj_ok o1 /\ placed o1 /\ dragging o1 = true.
Proof.
  intros Hreach Ho Hg Hclear o1.
  destruct (reachable_object _ _ _ _ _ Hreach Ho) as [Hok Hpl].
  destruct (handle_event_ok t u o (MOUSEBUTTONDOWN b pt) (global_connection_state w)
              (connections w) Hok) as ([[[h x] gs1] conns1] & E & Hx & _).
  pose proof (handle_event_placed _ _ _ _ _ _ _ E Hpl) as Hplx. simpl in Hplx, Hx.
  destruct (handle_event_grab _ _ _ _ _ _ _ _ _ _ _ Hpl E) as [[_ E1]|[Hg' _]];
    [|congruence].
  inversion E1; subst h x gs1 conns1. fold o1 in E, Hx, Hplx.
  split; [|split; [exact Hx | split; [exact Hplx|]]].
  - apply (pointer_down_on_top u b pt w t o o1 _ _ (reachable_placed _ _ _ Hreach)
             Ho Hclear E).
  - unfold dragging, o1. rewrite obj_base_set. reflexivity.
Qed.

(** X11: in every state of the program, an object taken hold of at [pt],
    at a place where no object later in the list is touched and while no
    object later in the list is dragged, follows the pointer: a pointer
    motion to [q] changes that object only and puts its body at the old
    place shifted by [q - pt], with the size and the values of the object as
    they were; moving the pointer back to [pt] gives back the state of the
    program as it was when the object was taken hold of, nodes and buttons
    included. *)
Theorem drag_follows_pointer (rnd1 rnd2 : nat -> float) (w : World) (t : nat) (o : Obj)
    (u u' u'' : float) (b : Z) (pt q : pos) :
  reachable rnd1 rnd2 w -> all_objects w !! t = Some o ->
  grabs o b pt = true ->
  clear_above (all_objects w) t pt -> none_dragged_above (all_objects w) t ->
  exists o1 o2,
    process_event u (MOUSEBUTTONDOWN b pt) w = Ok (world_at w t o1)
    /\ process_event u' (MOUSEMOTION q) (world_at w t o1) = Ok (world_at w t o2)
    /\ rect (obj_base o2) = moved (rect (obj_base o)) (fst q - fst pt) (snd q - snd pt)
    /\ same_data o o2
    /\ process_event u'' (MOUSEMOTION pt) (world_at w t o2) = Ok (world_at w t o1).
Proof.
  intros Hreach Ho Hg Hclear Hnone. apply lookup_lt_Some in Ho as Hlt.
  destruct (grab_on_top _ _ w t o u b pt Hreach Ho Hg Hclear) as (E1 & Hok1 & Hpl1 & Hdr1).
  set (o1 := obj_set_base o (start_drag (obj_base o) pt)) in *.
  assert (Hb1 : obj_base o1 = start_drag (obj_base o) pt) by apply obj_base_set.
  assert (Hd1 : same_data o o1) by apply same_data_set_base.
  destruct (motion_on_top u' q (world_at w t o1) t o1 Hok1 Hpl1 Hdr1)
    as (o2 & E2 & Hb2 & Hd2 & Hpl2 & Hok2).
  { simpl. apply list_lookup_insert_eq. exact Hlt. }
  { simpl. apply none_dragged_above_insert. exact Hnone. }
  rewrite world_at_twice in E2.
  assert (Hdr2 : dragging o2 = true) by (unfold dragging; rewrite Hb2, Hb1; reflexivity).
  destruct (motion_on_top u'' pt (world_at w t o2) t o2 Hok2 Hpl2 Hdr2)
    as (o3 & E3 & Hb3 & Hd3 & Hpl3 & _).
  { simpl. apply list_lookup_insert_eq. exact Hlt. }
  { simpl. apply none_dragged_above_insert. exact Hnone. }
  rewrite world_at_twice in E3.
  exists o1, o2. split; [exact E1|]. split; [exact E2|].
  split; [rewrite Hb2, Hb1; apply drag_rect|].
  split; [eapply same_data_trans; eauto|].
  rewrite E3. do 2 f_equal. apply placed_determined; try assumption.
  - rewrite Hb3, Hb2, Hb1. apply drag_back.
  - apply same_data_sym. eapply same_data_trans; [exact Hd2 | exact Hd3].
Qed.

Lemma drag_follows_pointer_witness :
  exists (w : World) (o o1 o2 : Obj),
    (w0 <- initial_world (fun _ => 0.5%float) (fun _ => 0.5%float) ;;
     process_events [] w0) = Ok w
    /\ all_objects w !! 2%nat = Some o
    /\ grabs o 1 (210, 150) = true
    /\ process_event 0.5%float (MOUSEBUTTONDOWN 1 (210, 150)) w = Ok (world_at w 2 o1)
    /\ process_event 0.5%float (MOUSEMOTION (310, 130)) (world_at w 2 o1)
       = Ok (world_at w 2 o2)
    /\ rect (obj_base o2) = mkRect 300 80 60 80
    /\ process_event 0.5%float (MOUSEMOTION (210, 150)) (world_at w 2 o2)
       = Ok (world_at w 2 o1).
Proof.
  evar (w : World).
  assert (Hw : (w0 <- initial_world (fun _ => 0.5%float) (fun _ => 0.5%float) ;;
                process_events [] w0) = Ok w).
  { vm_compute. subst w. reflexivity. }
  evar (o : Obj).
  assert (Ho : all_objects w !! 2%nat = Some o).
  { vm_compute. subst o. reflexivity. }
  assert (Hg : grabs o 1 (210, 150) = true) by reflexivity.
  assert (Hall : forall (P : Obj -> Prop), Forall P (skipn 3 (all_objects w)) ->
                 forall j o2, (2 < j)%nat -> all_objects w !! j = Some o2 -> P o2).
  { intros P H j o2 Hj Ho2. rewrite Forall_forall in H. apply H.
    apply list_elem_of_lookup. exists (j - 3)%nat.
    rewrite lookup_drop. replace (3 + (j - 3))%nat with j by lia. exact Ho2. }
  assert (Hc : clear_above (all_objects w) 2 (210, 150)).
  { refine (Hall (fun o2 => touches o2 (210, 150) = false) _).
    vm_compute. repeat constructor. }
  assert (Hn : none_dragged_above (all_objects w) 2).
  { refine (Hall (fun o2 => dragging o2 = false) _). vm_compute. repeat constructor. }
  destruct (drag_follows_pointer _ _ w 2 o 0.5%float 0.5%float 0.5%float 1 (210, 150)
              (310, 130) (reachable_run _ _ _ _ Hw) Ho Hg Hc Hn)
    as (o1 & o2 & E1 & E2 & Hr & _ & E3).
  exists w, o, o1, o2. split; [exact Hw|]. split; [exact Ho|]. split; [exact Hg|].
  split; [exact E1|]. split; [exact E2|]. split; [exact Hr|]. exact E3.
Defined.

(** ** Where connections start and end *)

Lemma kinds_insert (objs : list Obj) (j : nat) (o o' : Obj) :
  objs !! j = Some o -> obj_kind o' = obj_kind o ->
  obj_kind <$> <[j := o']> objs = obj_kind <$> objs.
Proof.
  intros Ho Hk. rewrite list_fmap_insert. apply list_insert_id.
  rewrite list_lookup_fmap, Ho. simpl. congruence.
Qed.

Lemma is_source_kinds (objs objs' : list Obj) (s : nat) :
  obj_kind <$> objs' = obj_kind <$> objs -> is_source objs' s = is_source objs s.
Proof. unfold is_source. intros ->. reflexivity. Qed.

Lemma handle_event_kind (self : nat) (u : float) (o : Obj) (ev : event)
    (gs : GlobalState) (conns : list Connection)
    (r : bool * Obj * GlobalState * list Connection) :
  handle_event self u o ev gs conns = Ok r -> obj_kind (snd (fst (fst r))) = obj_kind o.
Proof. intros H. destruct o; simpl in H; inv_ok; reflexivity. Qed.

Lemma remove_connection_subseteq (t i : nat) (conns : list Connection) (c : Connection) :
  c ∈ remove_connection t i conns -> c ∈ conns.
Proof.
  destruct (remove_connection_cases t i conns)
    as [[_ ->] | (l1 & d & l2 & -> & _ & -> & _)]; [tauto|].
  rewrite !elem_of_app, elem_of_cons. tauto.
Qed.

Lemma update_connections_sources (s t i : nat) (conns : list Connection) (c : Connection) :
  c ∈ update_connections s t i conns -> c ∈ conns \/ source_obj c = s.
Proof.
  destruct (update_connections_cases s t i conns)
    as [[_ ->] | (l1 & d & l2 & -> & _ & _ & ->)].
  - rewrite elem_of_app, list_elem_of_singleton. intros [H| ->]; auto.
  - rewrite !elem_of_app, !elem_of_cons. intros [H|[->|H]]; auto.
Qed.

Lemma Light_handle_event_gs (self : nat) (l l' : Light) (ev : event)
    (gs gs' : GlobalState) (conns conns' : list Connection) (h : bool) :
  Light_handle_event self l ev gs conns = Ok (h, l', gs', conns') -> gs' = gs.
Proof.
  unfold Light_handle_event. intros H.
  destruct (fst (DraggableObject_handle_event l_base l_set_base
                   (Some l_update_node_positions) l ev)); [inv_ok; reflexivity|].
  set (l0 := snd _) in H. clearbody l0.
  destruct ev as [|b pt|b pt|pt|]; try (inv_ok; reflexivity).
  destruct (l_get_input_node_rect l0 0) as [node|]; [|inv_ok; reflexivity].
  destruct (rect_bool node && collidepoint node pt); [|inv_ok; reflexivity].
  destruct (b =? 3).
  - apply bind_Ok in H as (src & _ & H). destruct src; inv_ok; reflexivity.
  - destruct (b =? 1); [destruct (negb (is_drawing_connection gs))|];
      inv_ok; reflexivity.
Qed.

Lemma handle_event_wires (self : nat) (u : float) (o o' : Obj) (ev : event)
    (gs gs' : GlobalState) (conns conns' : list Connection) (h : bool) :
  obj_ok o ->
  handle_event self u o ev gs conns = Ok (h, o', gs', conns') ->
  (forall c, c ∈ conns' -> c ∈ conns)
  /\ (gs' = gs
      \/ (connection_start_obj gs' = Some self
          /\ (obj_kind o = KSwitch \/ obj_kind o = KPerceptron))).
Proof.
  intros Hok H.
  destruct (handle_event_ok self u o ev gs conns Hok) as (r & E & _ & Heff & Hgs).
  rewrite H in E. inversion E; subst r. clear E. simpl in Heff, Hgs. split.
  - intros c Hc. inversion Heff as [| i s Hi | | ics' src Hics]; subst;
      try exact Hc.
    + eapply remove_connection_subseteq. exact Hc.
    + destruct src; [|exact Hc]. eapply remove_connection_subseteq. exact Hc.
  - destruct o as [s|p|l].
    + destruct Hgs as [->|[q ->]]; [left; reflexivity | right; simpl; auto].
    + destruct Hgs as [->|[q ->]]; [left; reflexivity | right; simpl; auto].
    + left. simpl in H. apply bind_Ok in H as ([[[h0 x] gs0] conns0] & Hx & H).
      inv_ok. eapply Light_handle_event_gs. exact Hx.
Qed.

Lemma kinds_alter (f : Obj -> Obj) (t : nat) (objs : list Obj) :
  (forall o, obj_kind (f o) = obj_kind o) ->
  obj_kind <$> alter f t objs = obj_kind <$> objs.
Proof.
  intros Hf. revert t. induction objs as [|o objs IH]; intros [|t]; simpl;
    try reflexivity.
  - rewrite Hf. reflexivity.
  - f_equal. apply IH.
Qed.

Lemma set_input_connection_kind (o : Obj) (i s : nat) :
  obj_kind (set_input_connection o i s) = obj_kind o.
Proof.
  destruct o as [sw|p|l]; simpl; try reflexivity.
  - destruct (i <? length (p_input_connections p))%nat; reflexivity.
  - destruct (i <? length (l_input_connections l))%nat; reflexivity.
Qed.

Lemma dispatch_wired (k : nat) (u : float) (ev : event) (w w' : World) :
  world_ok w -> wired w -> dispatch k u ev w = Ok w' -> wired w'.
Proof.
  intros Hok [Hk Hs Hst] H.
  destruct (dispatch_spec _ _ _ _ _ H)
    as [[-> _] | (j & o & o' & gs' & conns' & Hj & Ho & Hh & -> & _)];
    [split; assumption|].
  assert (Hoko : obj_ok o).
  { destruct Hok as [Hobjs _ _]. rewrite Forall_forall in Hobjs.
    apply Hobjs. eapply list_elem_of_lookup_2. exact Ho. }
  destruct (handle_event_wires _ _ _ _ _ _ _ _ _ _ Hoko Hh) as [Hsub Hgs].
  assert (Hkinds : obj_kind <$> <[j := o']> (all_objects w) = obj_kind <$> all_objects w).
  { eapply kinds_insert; [exact Ho|]. exact (handle_event_kind _ _ _ _ _ _ _ Hh). }
  split; simpl.
  - rewrite Hkinds. exact Hk.
  - intros c Hc. rewrite (is_source_kinds _ _ _ Hkinds). auto.
  - intros s Hstart. rewrite (is_source_kinds _ _ _ Hkinds).
    destruct Hgs as [->|[Hself Hkind]]; [auto|].
    rewrite Hself in Hstart. inversion Hstart; subst s.
    unfold is_source. rewrite list_lookup_fmap, Ho. simpl.
    destruct Hkind as [-> | ->]; reflexivity.
Qed.

Lemma finalize_connection_wired (w w' : World) (pt : pos) :
  wired w -> finalize_connection w pt = Ok w' -> wired w'.
Proof.
  intros [Hk Hs Hst] H. unfold finalize_connection in H.
  destruct (find_target (all_objects w) pt) as [[t i]|].
  - destruct (connection_start_obj (global_connection_state w)) as [s|] eqn:Es;
      [|discriminate]. inv_ok.
    assert (Hkinds : obj_kind <$> alter (fun o => set_input_connection o i s) t (all_objects w)
                     = obj_kind <$> all_objects w).
    { apply kinds_alter. intros o. apply set_input_connection_kind. }
    split; simpl.
    + rewrite Hkinds. exact Hk.
    + intros c Hc. rewrite (is_source_kinds _ _ _ Hkinds).
      apply update_connections_sources in Hc as [Hc| ->]; auto.
    + discriminate.
  - inv_ok. split; simpl; [exact Hk | exact Hs | discriminate].
Qed.

Lemma pass_kinds (f : list Obj -> nat -> result (list Obj)) :
  (forall objs objs' i, f objs i = Ok objs' -> obj_kind <$> objs' = obj_kind <$> objs) ->
  forall idxs objs objs',
    pass f idxs objs = Ok objs' -> obj_kind <$> objs' = obj_kind <$> objs.
Proof.
  intros Hf idxs. induction idxs as [|i idxs IH]; simpl; intros objs objs' H.
  - inv_ok. reflexivity.
  - apply bind_Ok in H as (objs1 & H1 & H). rewrite (IH _ _ H). eapply Hf. exact H1.
Qed.

Lemma tick_kinds (w w' : World) :
  tick w = Ok w' -> obj_kind <$> all_objects w' = obj_kind <$> all_objects w.
Proof.
  unfold tick, perceptron_pass, light_pass. intros H.
  apply bind_Ok in H as (objs1 & H1 & H). apply bind_Ok in H as (objs2 & H2 & H).
  inv_ok. simpl.
  rewrite (pass_kinds update_at) with (2 := H2).
  - apply (pass_kinds calculate_at) with (2 := H1).
    intros objs objs' i Hi. unfold calculate_at in Hi.
    destruct (objs !! i) as [[s|p|l]|] eqn:Ho; inv_ok; try reflexivity.
    eapply kinds_insert; [exact Ho | reflexivity].
  - intros objs objs' i Hi. unfold update_at in Hi.
    destruct (objs !! i) as [[s|p|l]|] eqn:Ho; inv_ok; try reflexivity.
    eapply kinds_insert; [exact Ho | reflexivity].
Qed.

Lemma reachable_wired (rnd1 rnd2 : nat -> float) (w : World) :
  reachable rnd1 rnd2 w -> wired w.
Proof.
  induction 1 as [w Hinit | u ev w w' Hreach IH Hev | w w' Hreach IH Ht].
  - unfold initial_world in Hinit. inv_ok. split; simpl.
    + reflexivity.
    + intros c Hc. apply elem_of_nil in Hc. contradiction.
    + discriminate.
  - apply reachable_ok in Hreach. unfold process_event in Hev.
    destruct ev as [|b pt|b pt|pt|];
      try (eapply dispatch_wired; [exact Hreach | exact IH | exact Hev]).
    + eapply dispatch_wired; [| |exact Hev].
      * destruct Hreach. split; assumption.
      * destruct IH. split; assumption.
    + destruct (is_drawing_connection (global_connection_state w)).
      * eapply finalize_connection_wired; eauto.
      * eapply dispatch_wired; eauto.
  - pose proof (tick_kinds _ _ Ht) as Hkinds. destruct IH as [Hk Hs Hst].
    unfold tick in Ht. inv_ok. simpl in *. split; simpl.
    + rewrite Hkinds. exact Hk.
    + intros c Hc. rewrite (is_source_kinds _ _ _ Hkinds). auto.
    + intros s Hstart. rewrite (is_source_kinds _ _ _ Hkinds). auto.
Qed.

Lemma reachable_connection (rnd1 rnd2 : nat -> float) (w : World) (c : Connection) :
  reachable rnd1 rnd2 w -> c ∈ connections w ->
  exists src tgt,
    all_objects w !! source_obj c = Some src
    /\ (obj_kind src = KSwitch \/ obj_kind src = KPerceptron)
    /\ all_objects w !! target_obj c = Some tgt
    /\ (obj_kind tgt = KPerceptron \/ obj_kind tgt = KLight)
    /\ obj_ok tgt /\ placed tgt
    /\ (target_input_idx c < obj_num_inputs tgt)%nat
    /\ obj_input_connections tgt !! target_input_idx c = Some (Some (source_obj c)).
Proof.
  intros Hreach Hc.
  pose proof (reachable_wired _ _ _ Hreach) as [_ Hs _].
  pose proof (reachable_ok _ _ _ Hreach) as [_ [_ Hslots _] _].
  specialize (Hs c Hc). specialize (Hslots c Hc).
  unfold is_source in Hs. rewrite list_lookup_fmap in Hs.
  destruct (all_objects w !! source_obj c) as [src|] eqn:Esrc; [|discriminate].
  unfold slot in Hslots.
  destruct (all_objects w !! target_obj c) as [tgt|] eqn:Etgt; [|discriminate].
  destruct (obj_input_connections tgt !! target_input_idx c) as [sl|] eqn:Esl;
    [|discriminate].
  subst sl. destruct (reachable_object _ _ _ _ _ Hreach Etgt) as [Hok Hpl].
  exists src, tgt. split; [reflexivity|]. split.
  { destruct src; simpl in *; auto; discriminate. }
  split; [reflexivity|]. apply lookup_lt_Some in Esl as Hlt.
  destruct tgt as [sw|p|l]; simpl in *.
  - lia.
  - rewrite (p_ok_connections _ Hok) in Hlt. auto 10.
  - rewrite (l_ok_connections _ Hok), <- (l_ok_num _ Hok) in Hlt. auto 10.
Qed.

(** X12: in every state of the program the scene is two switches, two
    Perceptrons and two lights in their places in the list, with or without
    connections; and every entry of the list of connections leads from a
    switch or a Perceptron, never from a light, to an input of a Perceptron
    or of a light that exists and holds the source of the entry. *)
Theorem connections_join_outputs_to_inputs (rnd1 rnd2 : nat -> float) (w : World) :
  reachable rnd1 rnd2 w ->
  obj_kind <$> all_objects w = [KSwitch; KSwitch; KPerceptron; KPerceptron; KLight; KLight]
  /\ forall c, c ∈ connections w ->
       exists src tgt,
         all_objects w !! source_obj c = Some src
         /\ (obj_kind src = KSwitch \/ obj_kind src = KPerceptron)
         /\ all_objects w !! target_obj c = Some tgt
         /\ (obj_kind tgt = KPerceptron \/ obj_kind tgt = KLight)
         /\ (target_input_idx c < obj_num_inputs tgt)%nat
         /\ obj_input_connections tgt !! target_input_idx c = Some (Some (source_obj c)).
Proof.
  intros Hreach. split; [apply (reachable_wired _ _ _ Hreach)|]. intros c Hc.
  destruct (reachable_connection _ _ _ _ Hreach Hc)
    as (src & tgt & H1 & H2 & H3 & H4 & _ & _ & H5 & H6).
  exists src, tgt. auto 10.
Qed.

Lemma connections_join_outputs_to_inputs_witness :
  exists (w : World) (s : Switch) (p : Perceptron),
    (w0 <- initial_world (fun _ => 0.5%float) (fun _ => 0.5%float) ;;
     process_events [(0%float, MOUSEBUTTONDOWN 1 (96, 70));
                     (0%float, MOUSEBUTTONUP 1 (195, 126))] w0) = Ok w
    /\ obj_kind <$> all_objects w
       = [KSwitch; KSwitch; KPerceptron; KPerceptron; KLight; KLight]
    /\ mkConnection 0 2 0 ∈ connections w
    /\ all_objects w !! 0%nat = Some (OSwitch s)
    /\ all_objects w !! 2%nat = Some (OPerceptron p)
    /\ p_input_connections p !! 0%nat = Some (Some 0%nat).
Proof.
  evar (w : World).
  assert (Hw : (w0 <- initial_world (fun _ => 0.5%float) (fun _ => 0.5%float) ;;
                process_events [(0%float, MOUSEBUTTONDOWN 1 (96, 70));
                                (0%float, MOUSEBUTTONUP 1 (195, 126))] w0) = Ok w).
  { vm_compute. subst w. reflexivity. }
  assert (Hc : mkConnection 0 2 0 ∈ connections w) by (apply list_elem_of_here).
  destruct (connections_join_outputs_to_inputs _ _ w (reachable_run _ _ _ _ Hw))
    as [Hkinds Hconn].
  destruct (Hconn _ Hc) as (src & tgt & H1 & _ & H3 & _ & _ & H6).
  evar (s : Switch).
  assert (Hs : all_objects w !! 0%nat = Some (OSwitch s)).
  { vm_compute. subst s. reflexivity. }
  evar (p : Perceptron).
  assert (Hp : all_objects w !! 2%nat = Some (OPerceptron p)).
  { vm_compute. subst p. reflexivity. }
  exists w, s, p. split; [exact Hw|]. split; [exact Hkinds|]. split; [exact Hc|].
  split; [exact Hs|]. split; [exact Hp|].
  assert (Et : Some tgt = Some (OPerceptron p)) by (rewrite <- H3; exact Hp).
  inversion Et; subst tgt. exact H6.
Defined.

Lemma omap_total {A B : Type} (f : A -> option B) (P : A -> B -> Prop) (l : list A) :
  (forall x, x ∈ l -> exists y, f x = Some y /\ P x y) ->
  Forall2 P l (omap f l).
Proof.
  induction l as [|x l IH]; intros H; simpl; [constructor|].
  destruct (H x) as (y & Hy & HP); [apply list_elem_of_here|]. rewrite Hy.
  constructor; [exact HP|]. apply IH. intros z Hz. apply H.
  apply list_elem_of_further. exact Hz.
Qed.

Lemma reachable_connection_line (rnd1 rnd2 : nat -> float) (w : World) (c : Connection) :
  reachable rnd1 rnd2 w -> c ∈ connections w ->
  exists a b nodes,
    connection_line (all_objects w) c = Some (a, b)
    /\ getattr_output_node_pos (all_objects w) (source_obj c) = Some a
    /\ getattr_input_nodes_pos (all_objects w) (target_obj c) = Some nodes
    /\ nodes !! target_input_idx c = Some b.
Proof.
  intros Hreach Hc.
  destruct (reachable_connection _ _ _ _ Hreach Hc)
    as (src & tgt & Hsrc & Hks & Htgt & Hkt & Hok & Hpl & Hlt & _).
  assert (Ha : exists a, getattr_output_node_pos (all_objects w) (source_obj c) = Some a).
  { unfold getattr_output_node_pos. rewrite Hsrc.
    destruct src; simpl in Hks; eauto. destruct Hks; discriminate. }
  destruct Ha as [a Ha].
  assert (Hn : exists nodes,
             getattr_input_nodes_pos (all_objects w) (target_obj c) = Some nodes
             /\ length nodes = obj_num_inputs tgt).
  { unfold getattr_input_nodes_pos. rewrite Htgt. destruct tgt as [sw|p|l]; simpl in *.
    - destruct Hkt; discriminate.
    - destruct (placed_perceptron p Hpl) as (_ & _ & _ & _ & _ & ks & _ & Hlen & Hnodes & _).
      eexists. split; [reflexivity|]. rewrite Hnodes, length_map. exact Hlen.
    - destruct (placed_light l Hpl) as (_ & Hnodes & _).
      eexists. split; [reflexivity|]. rewrite Hnodes, (l_ok_num _ Hok). reflexivity. }
  destruct Hn as (nodes & Hnodes & Hlen).
  destruct (lookup_lt_is_Some_2 nodes (target_input_idx c)) as [b Hb]; [lia|].
  exists a, b, nodes. split; [|auto]. unfold connection_line. rewrite Ha, Hnodes.
  assert (E1 : Nat.eqb (length nodes) 0 = false) by (apply Nat.eqb_neq; lia).
  assert (E2 : (target_input_idx c <? length nodes)%nat = true)
    by (apply Nat.ltb_lt; lia).
  rewrite E1, E2. simpl. rewrite Hb. reflexivity.
Qed.

(** X13: in every state of the program the drawing loop draws one line for
    every entry of the list of connections, none is skipped: the line goes
    from the output node of the source of the entry to the input node of
    the target that the entry names. *)
Theorem every_connection_is_drawn (rnd1 rnd2 : nat -> float) (w : World) :
  reachable rnd1 rnd2 w ->
  Forall2 (fun c ln =>
             exists nodes,
               connection_line (all_objects w) c = Some ln
               /\ getattr_output_node_pos (all_objects w) (source_obj c) = Some (fst ln)
               /\ getattr_input_nodes_pos (all_objects w) (target_obj c) = Some nodes
               /\ nodes !! target_input_idx c = Some (snd ln))
    (connections w) (connection_lines w).
Proof.
  intros Hreach. unfold connection_lines. apply omap_total. intros c Hc.
  destruct (reachable_connection_line _ _ _ _ Hreach Hc) as (a & b & nodes & E & Ha & Hn & Hb).
  exists (a, b). split; [exact E|]. exists nodes. auto.
Qed.

Lemma every_connection_is_drawn_witness :
  exists w : World,
    (w0 <- initial_world (fun _ => 0.5%float) (fun _ => 0.5%float) ;;
     process_events [(0%float, MOUSEBUTTONDOWN 1 (96, 70));
                     (0%float, MOUSEBUTTONUP 1 (195, 126));
                     (0%float, MOUSEBUTTONDOWN 1 (210, 150));
                     (0%float, MOUSEMOTION (310, 130))] w0) = Ok w
    /\ connections w = [mkConnection 0 2 0]
    /\ connection_lines w = [((96, 70), (295, 106))].
Proof.
  evar (w : World).
  assert (Hw : (w0 <- initial_world (fun _ => 0.5%float) (fun _ => 0.5%float) ;;
                process_events [(0%float, MOUSEBUTTONDOWN 1 (96, 70));
                                (0%float, MOUSEBUTTONUP 1 (195, 126));
                                (0%float, MOUSEBUTTONDOWN 1 (210, 150));
                                (0%float, MOUSEMOTION (310, 130))] w0) = Ok w).
  { vm_compute. subst w. reflexivity. }
  pose proof (every_connection_is_drawn _ _ w (reachable_run _ _ _ _ Hw)) as H.
  exists w. split; [exact Hw|]. split; [reflexivity|].
  inversion H as [|c ln l lines (nodes & Hc & _) Hrest E1 E2].
  inversion Hrest. subst. vm_compute in Hc. inversion Hc. reflexivity.
Defined.

(** ** Clearing an input with the right button *)

Lemma find_seq_Some (f : nat -> bool) (a n i : nat) :
  find f (seq a n) = Some i ->
  (a <= i < a + n)%nat /\ f i = true /\ forall j, (a <= j < i)%nat -> f j = false.
Proof.
  revert a. induction n as [|n IH]; intros a H; simpl in H; [discriminate|].
  destruct (f a) eqn:Ea.
  - inversion H; subst. split; [lia|]. split; [exact Ea|]. intros j Hj. lia.
  - apply IH in H as (Hi & Hf & Hbelow). split; [lia|]. split; [exact Hf|].
    intros j Hj. destruct (decide (j = a)) as [->|Hne]; [exact Ea|].
    apply Hbelow. lia.
Qed.

Lemma first_hit_least (rects : list Rect) (pt : pos) (i : nat) (r : Rect) :
  rects !! i = Some r -> collidepoint r pt = true ->
  (forall j r', (j < i)%nat -> rects !! j = Some r' -> collidepoint r' pt = false) ->
  first_hit rects pt = Some i.
Proof.
  revert i. induction rects as [|r0 rects IH]; intros i Hr Hc Hbelow; [discriminate|].
  simpl. destruct i as [|i]; simpl in Hr.
  - inversion Hr; subst. rewrite Hc. reflexivity.
  - rewrite (Hbelow 0%nat r0 ltac:(lia) eq_refl).
    rewrite (IH i Hr Hc); [reflexivity|].
    intros j r' Hj Hr'. apply (Hbelow (S j) r'); [lia | exact Hr'].
Qed.

(** The input that the search at a pointer-up finds on a Perceptron is the
    one that its handler finds at a pointer-down. *)
Lemma hit_input_first_hit (p : Perceptron) (pt : pos) (i : nat) :
  placed (OPerceptron p) ->
  hit_input (OPerceptron p) pt = Some i ->
  first_hit (p_input_node_rects p) pt = Some i.
Proof.
  intros Hpl H. simpl in H. apply find_seq_Some in H as (_ & Hhit & Hbelow).
  destruct (placed_perceptron p Hpl) as (_ & _ & _ & _ & _ & ks & _ & _ & _ & Hrects).
  assert (Hbool : forall j r, p_input_node_rects p !! j = Some r -> rect_bool r = true).
  { intros j r Hr. rewrite Hrects, list_lookup_fmap in Hr.
    destruct (ks !! j); inversion Hr. reflexivity. }
  unfold input_hit in Hhit. simpl in Hhit. unfold p_get_input_node_rect in Hhit.
  destruct (p_input_node_rects p !! i) as [r|] eqn:Hr; [|discriminate].
  apply andb_true_iff in Hhit as [_ Hc].
  apply (first_hit_least _ _ _ r Hr Hc). intros j r' Hj Hr'.
  specialize (Hbelow j ltac:(lia)). unfold input_hit in Hbelow. simpl in Hbelow.
  unfold p_get_input_node_rect in Hbelow. rewrite Hr', (Hbool j r' Hr') in Hbelow.
  exact Hbelow.
Qed.

Lemma remove_connection_empty_slot (objs : list Obj) (conns : list Connection)
    (t i : nat) :
  registry_ok objs conns -> slot objs t i = None ->
  remove_connection t i conns = conns.
Proof.
  intros [_ Hslots _] Hnone.
  destruct (remove_connection_cases t i conns)
    as [[_ E] | (l1 & c & l2 & -> & Hc & _)]; [exact E|].
  specialize (Hslots c). rewrite elem_of_app, elem_of_cons in Hslots.
  unfold conn_key in Hc. inversion Hc as [[Ht Hi]]. rewrite Ht, Hi, Hnone in Hslots.
  discriminate Hslots. auto.
Qed.

(** The handler of the object whose input node is under the pointer, at a
    right button pointer-down. *)
Lemma handle_event_right_click (rnd1 rnd2 : nat -> float) (w : World) (t : nat)
    (o : Obj) (pt : pos) (i : nat) (u : float) (gs : GlobalState) :
  reachable rnd1 rnd2 w -> all_objects w !! t = Some o ->
  hit_input o pt = Some i ->
  handle_event t u o (MOUSEBUTTONDOWN 3 pt) gs (connections w)
  = Ok (true,
        obj_set_input_connections o (<[i := None]> (obj_input_connections o)),
        gs, remove_connection t i (connections w)).
Proof.
  intros Hreach Ho Hhit.
  destruct (reachable_object _ _ _ _ _ Hreach Ho) as [Hok Hpl].
  pose proof (reachable_ok _ _ _ Hreach) as [_ Hreg _].
  pose proof (hit_input_slot _ _ _ Hok Hhit) as Hlt.
  destruct (getitem_Ok (obj_input_connections o) i Hlt) as (src & Eget & Esrc).
  assert (Hempty : src = None ->
            <[i := None]> (obj_input_connections o) = obj_input_connections o
            /\ remove_connection t i (connections w) = connections w).
  { intros ->. split; [apply list_insert_id; exact Esrc|].
    eapply remove_connection_empty_slot; [exact Hreg|].
    unfold slot. rewrite Ho, Esrc. reflexivity. }
  destruct o as [s|p|l]; [discriminate Hhit| |].
  - apply (hit_input_first_hit p pt i Hpl) in Hhit. simpl in *.
    rewrite Hhit, Eget. simpl. destruct src as [s|]; [reflexivity|].
    destruct (Hempty eq_refl) as [-> ->]. destruct p; reflexivity.
  - apply hit_input_Some in Hhit as [Hi Hin]. simpl in Hi.
    rewrite (l_ok_num _ Hok) in Hi. assert (i = 0%nat) by lia. subst i.
    unfold input_hit, get_input_node_rect in Hin.
    destruct (l_get_input_node_rect l 0) as [node|] eqn:Enode; [|discriminate Hin].
    assert (Hbody : collidepoint (rect (l_base l)) pt = false).
    { pose proof (placed_ports_outside _ Hpl) as Hout. simpl in Hout.
      apply andb_true_iff in Hin as [_ Hc]. apply (Hout node); [|exact Hc].
      unfold l_get_input_node_rect in Enode.
      destruct (l_input_node_rects l); inversion Enode. left. }
    simpl in *. unfold Light_handle_event, DraggableObject_handle_event.
    rewrite Hbody. simpl. rewrite Enode, Hin. simpl. rewrite Eget. simpl.
    destruct src as [s|]; [reflexivity|].
    destruct (Hempty eq_refl) as [-> ->]. destruct l; reflexivity.
Qed.

(** X14: in every state of the program, a right button pointer-down on
    the input node that the search at a pointer-up would find, input [i] of
    the Perceptron or light at position [t], at a place where no object
    later in the list is touched, clears that input: afterwards the input is
    empty, the list of connections has lost its entry for that input, if it
    had one, and nothing else, and nothing else changes, neither the body of
    the object nor the other objects nor the drawing state. *)
Theorem right_click_clears_input (rnd1 rnd2 : nat -> float) (w : World) (t : nat)
    (o : Obj) (pt : pos) (i : nat) (u : float) :
  reachable rnd1 rnd2 w -> all_objects w !! t = Some o ->
  hit_input o pt = Some i ->
  clear_above (all_objects w) t pt ->
  process_event u (MOUSEBUTTONDOWN 3 pt) w
  = Ok (world_with w t
          (obj_set_input_connections o (<[i := None]> (obj_input_connections o)))
          (remove_connection t i (connections w)) (global_connection_state w))
  /\ forall c, c ∈ remove_connection t i (connections w)
               <-> c ∈ connections w /\ conn_key c <> (t, i).
Proof.
  intros Hreach Ho Hhit Hclear.
  pose proof (reachable_ok _ _ _ Hreach) as [_ Hreg _].
  split; [|intros c; apply remove_connection_elem; apply Hreg].
  apply (pointer_down_on_top u 3 pt w t o _ _ _ (reachable_placed _ _ _ Hreach) Ho Hclear).
  apply (handle_event_right_click rnd1 rnd2 w t o pt i u _ Hreach Ho Hhit).
Qed.

Lemma right_click_clears_input_witness :
  exists (w : World) (o o' : Obj),
    (w0 <- initial_world (fun _ => 0.5%float) (fun _ => 0.5%float) ;;
     process_events [(0%float, MOUSEBUTTONDOWN 1 (96, 70));
                     (0%float, MOUSEBUTTONUP 1 (195, 126))] w0) = Ok w
    /\ all_objects w !! 2%nat = Some o
    /\ hit_input o (195, 126) = Some 0%nat
    /\ connections w = [mkConnection 0 2 0]
    /\ obj_input_connections o = [Some 0%nat; None]
    /\ process_event 0.5%float (MOUSEBUTTONDOWN 3 (195, 126)) w
       = Ok (world_with w 2 o' [] reset_state)
    /\ obj_input_connections o' = [None; None].
Proof.
  evar (w : World).
  assert (Hw : (w0 <- initial_world (fun _ => 0.5%float) (fun _ => 0.5%float) ;;
                process_events [(0%float, MOUSEBUTTONDOWN 1 (96, 70));
                                (0%float, MOUSEBUTTONUP 1 (195, 126))] w0) = Ok w).
  { vm_compute. subst w. reflexivity. }
  evar (o : Obj).
  assert (Ho : all_objects w !! 2%nat = Some o).
  { vm_compute. subst o. reflexivity. }
  assert (Hhit : hit_input o (195, 126) = Some 0%nat) by reflexivity.
  assert (Hc : clear_above (all_objects w) 2 (195, 126)).
  { intros j o2 Hj Ho2.
    assert (Hin : o2 ∈ drop 3 (all_objects w)).
    { apply list_elem_of_lookup. exists (j - 3)%nat.
      rewrite lookup_drop. replace (3 + (j - 3))%nat with j by lia. exact Ho2. }
    clear Ho2. revert o2 Hin. apply Forall_forall. vm_compute. repeat constructor. }
  destruct (right_click_clears_input _ _ w 2 o (195, 126) 0 0.5%float
              (reachable_run _ _ _ _ Hw) Ho Hhit Hc) as [H _].
  exists w, o, (obj_set_input_connections o (<[0%nat := None]> (obj_input_connections o))).
  split; [exact Hw|]. split; [exact Ho|]. split; [exact Hhit|].
  split; [reflexivity|]. split; [reflexivity|]. split; [exact H|]. reflexivity.
Defined.

(** ** What the evaluation leaves alone *)

Lemma values_only_refl (o : Obj) : values_only o o.
Proof. destruct o as [s|p|l]; simpl; [reflexivity | destruct p | destruct l]; reflexivity. Qed.

Lemma values_only_trans (o1 o2 o3 : Obj) :
  values_only o1 o2 -> values_only o2 o3 -> values_only o1 o3.
Proof.
  destruct o1 as [s1|p1|l1], o2 as [s2|p2|l2], o3 as [s3|p3|l3]; simpl; try tauto.
  - congruence.
  - intros -> ->. reflexivity.
  - intros -> ->. reflexivity.
Qed.

Lemma frame_kept_refl (objs : list Obj) : frame_kept objs objs.
Proof.
  split; [reflexivity|]. intros t o Ho. exists o.
  split; [exact Ho | apply values_only_refl].
Qed.

Lemma frame_kept_insert (objs0 objs : list Obj) (i : nat) (o o' : Obj) :
  frame_kept objs0 objs -> objs !! i = Some o -> values_only o o' ->
  frame_kept objs0 (<[i := o']> objs).
Proof.
  intros [Hlen Hf] Ho HR. split; [rewrite length_insert; exact Hlen|].
  intros t o0 Ht. destruct (Hf t o0 Ht) as (o1 & Ho1 & HR1).
  destruct (decide (t = i)) as [->|Hne].
  - exists o'. split.
    + apply list_lookup_insert_eq. eapply lookup_lt_Some. exact Ho.
    + rewrite Ho in Ho1. inversion Ho1; subst o1.
      eapply values_only_trans; eauto.
  - exists o1. split; [|exact HR1]. rewrite list_lookup_insert_ne by congruence.
    exact Ho1.
Qed.

Lemma calculate_output_frame (objs : list Obj) (p p' : Perceptron) :
  calculate_output objs p = Ok p' ->
  length (p_weights p) = p_num_inputs p ->
  values_only (OPerceptron p) (OPerceptron p').
Proof.
  unfold calculate_output. rewrite current_inputs_eq. simpl. intros H Hlen.
  apply bind_Ok in H as (products & _ & H). inv_ok. simpl.
  unfold gather_inputs. rewrite length_map, length_seq, Hlen, Nat.eqb_refl.
  reflexivity.
Qed.

Lemma pass_frame (f : list Obj -> nat -> result (list Obj)) (objs0 : list Obj) :
  (forall objs objs' i, frame_kept objs0 objs -> f objs i = Ok objs' ->
                        frame_kept objs0 objs') ->
  forall idxs objs objs',
    pass f idxs objs = Ok objs' -> frame_kept objs0 objs -> frame_kept objs0 objs'.
Proof.
  intros Hf idxs. induction idxs as [|i idxs IH]; simpl; intros objs objs' H Hk.
  - inv_ok. exact Hk.
  - apply bind_Ok in H as (objs1 & H1 & H). eapply IH; [exact H|]. eapply Hf; eauto.
Qed.

Lemma frame_kept_weights (objs0 objs : list Obj) (i : nat) (p : Perceptron) :
  Forall obj_ok objs0 -> frame_kept objs0 objs ->
  objs !! i = Some (OPerceptron p) ->
  length (p_weights p) = p_num_inputs p.
Proof.
  intros Hok [Hlen Hf] Hp.
  destruct (lookup_lt_is_Some_2 objs0 i) as [o0 Ho0].
  { apply lookup_lt_Some in Hp. lia. }
  destruct (Hf i o0 Ho0) as (o & Ho & HR). rewrite Hp in Ho. inversion Ho; subst o.
  rewrite Forall_forall in Hok. apply list_elem_of_lookup_2, Hok in Ho0.
  destruct o0 as [s0|p0|l0]; simpl in HR; try contradiction.
  rewrite HR. simpl. apply Ho0.
Qed.

Lemma tick_frame (w w' : World) :
  Forall obj_ok (all_objects w) -> tick w = Ok w' ->
  frame_kept (all_objects w) (all_objects w').
Proof.
  unfold tick, perceptron_pass, light_pass. intros Hok H.
  apply bind_Ok in H as (objs1 & H1 & H). apply bind_Ok in H as (objs2 & H2 & H).
  inv_ok. simpl.
  eapply (pass_frame update_at); [|exact H2|].
  - intros objs objs' i Hk Hi. unfold update_at in Hi.
    destruct (objs !! i) as [[s|p|l]|] eqn:Ho; inv_ok; try exact Hk.
    eapply frame_kept_insert; [exact Hk | exact Ho|].
    unfold update_state in Ha. inv_ok. reflexivity.
  - eapply (pass_frame calculate_at); [|exact H1|apply frame_kept_refl].
    intros objs objs' i Hk Hi. unfold calculate_at in Hi.
    destruct (objs !! i) as [[s|p|l]|] eqn:Ho; inv_ok; try exact Hk.
    eapply frame_kept_insert; [exact Hk | exact Ho|].
    eapply calculate_output_frame; [exact Ha|].
    eapply frame_kept_weights; eauto.
Qed.

(** X15: in every state of the program the evaluation of a frame writes
    values only: the output value and the input values of the Perceptrons and
    the input value of the lights.  It changes no weight and no bias, moves
    nothing, leaves every input slot, the list of connections and the drawing
    state as they were, and leaves the switches alone. *)
Theorem evaluation_writes_values_only (rnd1 rnd2 : nat -> float) (w w' : World) :
  reachable rnd1 rnd2 w -> tick w = Ok w' ->
  running w' = running w
  /\ connections w' = connections w
  /\ global_connection_state w' = global_connection_state w
  /\ frame_kept (all_objects w) (all_objects w').
Proof.
  intros Hreach H. apply reachable_ok in Hreach as [Hok _ _].
  pose proof (tick_frame _ _ Hok H) as Hk.
  unfold tick in H. inv_ok. simpl in *. auto.
Qed.

Lemma evaluation_writes_values_only_witness :
  exists (w w' : World) (p p' : Perceptron),
    (w0 <- initial_world (fun _ => 0.5%float) (fun _ => (-0.5)%float) ;;
     process_events [(0%float, MOUSEBUTTONDOWN 1 (96, 70));
                     (0%float, MOUSEBUTTONUP 1 (395, 240))] w0) = Ok w
    /\ tick w = Ok w'
    /\ connections w' = connections w
    /\ all_objects w !! 3%nat = Some (OPerceptron p)
    /\ all_objects w' !! 3%nat = Some (OPerceptron p')
    /\ p_weights p' = p_weights p
    /\ p_output_value p = 0 /\ p_output_value p' = 0.
Proof.
  evar (w : World).
  assert (Hw : (w0 <- initial_world (fun _ => 0.5%float) (fun _ => (-0.5)%float) ;;
                process_events [(0%float, MOUSEBUTTONDOWN 1 (96, 70));
                                (0%float, MOUSEBUTTONUP 1 (395, 240))] w0) = Ok w).
  { vm_compute. subst w. reflexivity. }
  evar (w' : World).
  assert (Ht : tick w = Ok w').
  { vm_compute. subst w'. reflexivity. }
  destruct (evaluation_writes_values_only _ _ w w' (reachable_run _ _ _ _ Hw) Ht)
    as (_ & Hc & _ & _ & Hk).
  evar (p : Perceptron).
  assert (Hp : all_objects w !! 3%nat = Some (OPerceptron p)).
  { vm_compute. subst p. reflexivity. }
  destruct (Hk 3%nat _ Hp) as (o' & Ho' & HR).
  destruct o' as [s'|p'|l']; simpl in HR; try contradiction.
  exists w, w', p, p'. split; [exact Hw|]. split; [exact Ht|]. split; [exact Hc|].
  split; [exact Hp|]. split; [exact Ho'|]. split; [rewrite HR; reflexivity|].
  split; [reflexivity|].
  assert (E : Some (OPerceptron p') = all_objects w' !! 3%nat) by (symmetry; exact Ho').
  vm_compute in E. inversion E. reflexivity.
Defined.

Lemma pass_calculate_light (idxs : list nat) (objs objs' : list Obj) (t : nat) (l : Light) :
  pass calculate_at idxs objs = Ok objs' -> objs !! t = Some (OLight l) ->
  objs' !! t = Some (OLight l).
Proof.
  revert objs. induction idxs as [|k idxs IH]; simpl; intros objs H Hl.
  - inv_ok. exact Hl.
  - apply bind_Ok in H as (objs1 & H1 & H). apply (IH _ H).
    destruct (decide (t = k)) as [->|Hne].
    + unfold calculate_at in H1. rewrite Hl in H1. inv_ok. exact Hl.
    + rewrite (calculate_at_other _ _ _ _ H1 Hne). exact Hl.
Qed.

Lemma update_at_other (objs objs' : list Obj) (k t : nat) :
  update_at objs k = Ok objs' -> t <> k -> objs' !! t = objs !! t.
Proof.
  unfold update_at. intros H Hne.
  destruct (objs !! k) as [[s|p|l]|]; inv_ok; try reflexivity.
  apply list_lookup_insert_ne. congruence.
Qed.

Lemma pass_update_other (idxs : list nat) (objs objs' : list Obj) (t : nat) :
  pass update_at idxs objs = Ok objs' -> t ∉ idxs -> objs' !! t = objs !! t.
Proof.
  revert objs. induction idxs as [|k idxs IH]; simpl; intros objs H Ht.
  - inv_ok. reflexivity.
  - apply bind_Ok in H as (objs1 & H1 & H).
    rewrite (IH _ H) by (intros Hin; apply Ht; right; exact Hin).
    eapply update_at_other; [exact H1|]. intros ->. apply Ht. left.
Qed.

Lemma lights_only_read_source (objs objs' : list Obj) (src : option nat) :
  lights_only objs objs' -> read_source objs' src = read_source objs src.
Proof.
  intros H. destruct src as [s|]; [|reflexivity]. apply lights_only_output. exact H.
Qed.

(** X16: a light shows, after the evaluation of a frame, the output value
    that the source in its slot has after that same evaluation, and 0 when
    the slot is empty: between a source and a light there is no frame of
    delay, wherever the two are in the list. *)
Theorem light_shows_source_of_same_frame (w w' : World) (t : nat) (l : Light) :
  tick w = Ok w' -> all_objects w !! t = Some (OLight l) ->
  exists src,
    l_input_connections l !! 0%nat = Some src
    /\ all_objects w' !! t
       = Some (OLight (mkLight (l_base l) (read_source (all_objects w') src)
                         (l_num_inputs l) (l_input_connections l)
                         (l_input_nodes_pos l) (l_input_node_rects l))).
Proof.
  unfold tick, perceptron_pass, light_pass. intros H Hl.
  apply bind_Ok in H as (objs1 & H1 & H). apply bind_Ok in H as (objs2 & H2 & H).
  inv_ok. simpl.
  pose proof (pass_calculate_light _ _ _ _ _ H1 Hl) as Hl1.
  assert (Ht : (t < length objs1)%nat) by (eapply lookup_lt_Some; exact Hl1).
  assert (Hseq : seq 0 (length objs1)
                 = seq 0 t ++ t :: seq (S t) (length objs1 - S t)).
  { replace (length objs1) with (t + S (length objs1 - S t))%nat at 1 by lia.
    rewrite seq_app. reflexivity. }
  rewrite Hseq, pass_app in H2. apply bind_Ok in H2 as (A & HA & H2).
  pose proof (pass_update_lights_only _ _ _ H2) as Hlights.
  simpl in H2. apply bind_Ok in H2 as (B & HB & H2).
  assert (HAt : A !! t = Some (OLight l)).
  { rewrite (pass_update_other _ _ _ t HA); [exact Hl1|].
    rewrite list_elem_of_In, in_seq. lia. }
  unfold update_at in HB. rewrite HAt in HB.
  apply bind_Ok in HB as (l' & Hl' & HB). inv_ok.
  unfold update_state in Hl'. apply bind_Ok in Hl' as (src & Hsrc & Hl'). inv_ok.
  exists src. split.
  - unfold getitem in Hsrc. destruct (l_input_connections l !! 0%nat); inv_ok.
    reflexivity.
  - rewrite (pass_update_other _ _ _ t H2)
      by (rewrite list_elem_of_In, in_seq; lia).
    rewrite list_lookup_insert_eq by (eapply lookup_lt_Some; exact HAt).
    rewrite (lights_only_read_source _ _ src Hlights). reflexivity.
Qed.

Lemma light_shows_source_of_same_frame_witness :
  exists (w w' : World) (l l' : Light),
    (w0 <- initial_world (fun _ => 0.5%float) (fun _ => 0.5%float) ;;
     process_events [(0%float, MOUSEBUTTONDOWN 1 (466, 240));
                     (0%float, MOUSEBUTTONUP 1 (575, 100))] w0) = Ok w
    /\ tick w = Ok w'
    /\ all_objects w !! 4%nat = Some (OLight l)
    /\ l_input_connections l = [Some 3%nat]
    /\ l_input_value l = 0
    /\ all_objects w' !! 4%nat = Some (OLight l')
    /\ l_input_value l' = 1
    /\ getattr_output_value (all_objects w) 3 = 0
    /\ getattr_output_value (all_objects w') 3 = 1.
Proof.
  evar (w : World).
  assert (Hw : (w0 <- initial_world (fun _ => 0.5%float) (fun _ => 0.5%float) ;;
                process_events [(0%float, MOUSEBUTTONDOWN 1 (466, 240));
                                (0%float, MOUSEBUTTONUP 1 (575, 100))] w0) = Ok w).
  { vm_compute. subst w. reflexivity. }
  evar (w' : World).
  assert (Ht : tick w = Ok w').
  { vm_compute. subst w'. reflexivity. }
  evar (l : Light).
  assert (Hl : all_objects w !! 4%nat = Some (OLight l)).
  { vm_compute. subst l. reflexivity. }
  destruct (light_shows_source_of_same_frame w w' 4 l Ht Hl) as (src & Hsrc & Hl').
  eexists w, w', l, _. split; [exact Hw|]. split; [exact Ht|]. split; [exact Hl|].
  split; [reflexivity|]. split; [reflexivity|]. split; [exact Hl'|].
  assert (E : Some src = Some (Some 3%nat)) by (rewrite <- Hsrc; reflexivity).
  inversion E; subst src. repeat split; reflexivity.
Defined.

(** ** Where a connection starts *)

Ltac handler_cases H :=
  repeat match type of H with
    | context [if ?b then _ else _] => destruct b
    | context [match first_hit ?a ?b with _ => _ end] => destruct (first_hit a b)
    | bind _ _ = Ok _ =>
        let a := fresh "a" in
        let Ha := fresh "Ha" in
        apply bind_Ok in H as (a & Ha & H)
    | context [match ?x with Some _ => _ | None => _ end] => destruct x
    end; inv_ok.

Lemma Switch_handle_event_start (self : nat) (s s' : Switch) (ev : event)
    (gs gs' : GlobalState) (conns conns' : list Connection) (h : bool) :
  Switch_handle_event self s ev gs conns = Ok (h, s', gs', conns') ->
  gs' = gs
  \/ exists pt, ev = MOUSEBUTTONDOWN 1 pt
       /\ collidepoint (s_output_node_rect s) pt = true
       /\ (h, s', gs', conns') = (true, s, start_connection self (s_output_node_pos s), conns).
Proof.
  intros H. destruct ev as [|b pt|b pt|pt|]; simpl in H;
    try (left; handler_cases H; reflexivity).
  destruct (collidepoint (s_output_node_rect s) pt) eqn:Eo;
    [|left; handler_cases H; reflexivity].
  destruct (b =? 1) eqn:Eb; [|left; inv_ok; reflexivity].
  apply Z.eqb_eq in Eb. subst b. inv_ok. right. exists pt. auto.
Qed.

Lemma Perceptron_handle_event_start (self : nat) (u : float) (p p' : Perceptron)
    (ev : event) (gs gs' : GlobalState) (conns conns' : list Connection) (h : bool) :
  Perceptron_handle_event self u p ev gs conns = Ok (h, p', gs', conns') ->
  gs' = gs
  \/ exists pt, ev = MOUSEBUTTONDOWN 1 pt
       /\ collidepoint (p_output_node_rect p) pt = true
       /\ collidepoint (p_plus_button_rect p) pt = false
       /\ collidepoint (p_minus_button_rect p) pt = false
       /\ (h, p', gs', conns') = (true, p, start_connection self (p_output_node_pos p), conns).
Proof.
  intros H. destruct ev as [|b pt|b pt|pt|]; simpl in H;
    try (left; handler_cases H; reflexivity).
  destruct (b =? 1) eqn:Eb; simpl in H; [|left; handler_cases H; reflexivity].
  apply Z.eqb_eq in Eb. subst b.
  destruct (collidepoint (p_plus_button_rect p) pt) eqn:Ep;
    [left; handler_cases H; reflexivity|].
  destruct (collidepoint (p_minus_button_rect p) pt) eqn:Em;
    [left; handler_cases H; reflexivity|].
  simpl in H.
  destruct (collidepoint (p_output_node_rect p) pt) eqn:Eo;
    [|left; handler_cases H; reflexivity].
  inv_ok. right. exists pt. auto 10.
Qed.

(** X17: a handler changes the connection-drawing state only at a left
    button pointer-down on the output node of its object, a switch or a
    Perceptron: the state then says that a connection is being drawn from this
    object, from the place of its output node, and the handler reports the
    event as handled and changes neither the object nor the connections.  In
    every state of the program such a pointer-down does not take hold of the
    object. *)
Theorem connection_starts_at_output_node (rnd1 rnd2 : nat -> float) (w : World)
    (t : nat) (o o' : Obj) (u : float) (ev : event) (gs gs' : GlobalState)
    (conns conns' : list Connection) (h : bool) :
  reachable rnd1 rnd2 w -> all_objects w !! t = Some o ->
  handle_event t u o ev gs conns = Ok (h, o', gs', conns') ->
  gs' = gs
  \/ exists pt node_pos,
       ev = MOUSEBUTTONDOWN 1 pt
       /\ getattr_output_node_pos (all_objects w) t = Some node_pos
       /\ collidepoint (node_rect node_pos output_node_radius) pt = true
       /\ gs' = mkGlobalState true (Some t) (Some node_pos)
       /\ h = true /\ o' = o /\ conns' = conns
       /\ grabs o 1 pt = false.
Proof.
  intros Hreach Ho H. destruct (reachable_object _ _ _ _ _ Hreach Ho) as [Hok Hpl].
  pose proof (placed_ports_outside _ Hpl) as Hports.
  unfold getattr_output_node_pos. rewrite Ho.
  destruct o as [s|p|l]; simpl in H;
    apply bind_Ok in H as ([[[h0 x] gs0] conns0] & Hx & H); inv_ok.
  - destruct (Switch_handle_event_start _ _ _ _ _ _ _ _ _ Hx)
      as [->|(pt & -> & Hc & E)]; [left; reflexivity|].
    inversion E; subst. right. exists pt, (s_output_node_pos s).
    destruct (placed_switch s Hpl) as (_ & _ & Hpos & Hrect).
    destruct Hports as [_ Hout].
    split; [reflexivity|]. split; [reflexivity|].
    split.
    { pose proof Hc as Hc'. rewrite Hrect in Hc'. apply collidepoint_true in Hc'.
      apply collidepoint_true. rewrite Hpos. unfold output_node_radius.
      simpl in *. lia. }
    split; [reflexivity|]. split; [reflexivity|]. split; [reflexivity|].
    split; [reflexivity|]. simpl. rewrite (Hout pt Hc). reflexivity.
  - destruct (Perceptron_handle_event_start _ _ _ _ _ _ _ _ _ _ Hx)
      as [->|(pt & -> & Hc & _ & _ & E)]; [left; reflexivity|].
    inversion E; subst. right. exists pt, (p_output_node_pos p).
    destruct (placed_perceptron p Hpl) as (_ & _ & _ & Hpos & Hrect & _).
    destruct Hports as (_ & _ & _ & Hout & _).
    split; [reflexivity|]. split; [reflexivity|].
    split.
    { pose proof Hc as Hc'. rewrite Hrect in Hc'. apply collidepoint_true in Hc'.
      apply collidepoint_true. rewrite Hpos. unfold output_node_radius.
      simpl in *. lia. }
    split; [reflexivity|]. split; [reflexivity|]. split; [reflexivity|].
    split; [reflexivity|]. simpl. rewrite (Hout pt Hc). reflexivity.
  - left. eapply Light_handle_event_gs. exact Hx.
Qed.

Lemma connection_starts_at_output_node_witness :
  exists (w : World) (o : Obj),
    (w0 <- initial_world (fun _ => 0.5%float) (fun _ => 0.5%float) ;;
     process_events [] w0) = Ok w
    /\ all_objects w !! 3%nat = Some o
    /\ handle_event 3 0.5%float o (MOUSEBUTTONDOWN 1 (470, 245)) reset_state []
       = Ok (true, o, mkGlobalState true (Some 3%nat) (Some (466, 240)), [])
    /\ getattr_output_node_pos (all_objects w) 3 = Some (466, 240).
Proof.
  evar (w : World).
  assert (Hw : (w0 <- initial_world (fun _ => 0.5%float) (fun _ => 0.5%float) ;;
                process_events [] w0) = Ok w).
  { vm_compute. subst w. reflexivity. }
  evar (o : Obj).
  assert (Ho : all_objects w !! 3%nat = Some o).
  { vm_compute. subst o. reflexivity. }
  assert (H : handle_event 3 0.5%float o (MOUSEBUTTONDOWN 1 (470, 245)) reset_state []
              = Ok (true, o, mkGlobalState true (Some 3%nat) (Some (466, 240)), []))
    by reflexivity.
  destruct (connection_starts_at_output_node _ _ w 3 o o _ _ _ _ _ _ _
              (reachable_run _ _ _ _ Hw) Ho H)
    as [E | (pt & node_pos & _ & Hpos & _ & Hgs & _)]; [discriminate E|].
  exists w, o. split; [exact Hw|]. split; [exact Ho|]. split; [exact H|].
  inversion Hgs; subst node_pos. exact Hpos.
Defined.

(** ** The constructors *)

Lemma input_node_offsets_80_bounds (n : nat) (ks : list Z) :
  (1 <= n <= 8)%nat -> input_node_offsets 80 n = Ok ks ->
  Forall (fun k => 0 <= k <= 80) ks.
Proof.
  intros [H1 H8] H.
  do 9 (destruct n as [|n];
        [first [lia | vm_compute in H; injection H as <-; repeat constructor; lia]|]).
  lia.
Qed.

(** The Rects of an object of the program whose body is on the canvas, or
    less than its size off it, hold 32-bit integers. *)
Lemma placed_rects_fit (o : Obj) :
  placed o -> obj_ok o ->
  - 2 ^ 30 - 20 <= rect_x (rect (obj_base o)) <= 2 ^ 30 ->
  - 2 ^ 30 - 20 <= rect_y (rect (obj_base o)) <= 2 ^ 30 ->
  Forall rect_fits (obj_rects o).
Proof.
  intros Hpl Hok Hx Hy. change (2 ^ 30) with 1073741824 in Hx, Hy.
  assert (Hfit : forall a b c d,
            - 1073741900 <= a <= 1073741900 -> - 1073741900 <= b <= 1073741900 ->
            0 <= c <= 100 -> 0 <= d <= 100 -> rect_fits (mkRect a b c d)).
  { intros a b c d Ha Hb Hc Hd. unfold rect_fits, c_int, int_min, int_max. simpl. lia. }
  destruct o as [s|p|l]; simpl in *.
  - destruct (placed_switch s Hpl) as (E1 & E2 & _ & E3). rewrite E1, E2, E3.
    repeat (apply Forall_cons_2; [apply Hfit; lia|]). apply Forall_nil_2.
  - destruct (placed_perceptron p Hpl) as (E1 & E2 & E3 & _ & E4 & ks & Hks & _ & _ & E5).
    pose proof (input_node_offsets_80_bounds _ ks (conj (p_ok_min _ Hok) (p_ok_max _ Hok)) Hks)
      as Hb.
    rewrite E1, E2, E3, E4, E5.
    do 4 (apply Forall_cons_2; [apply Hfit; lia|]).
    rewrite Forall_fmap. eapply Forall_impl; [exact Hb|].
    intros k Hk. cbv beta in Hk. simpl. apply Hfit; lia.
  - destruct (placed_light l Hpl) as (E1 & _ & E2). rewrite E1, E2.
    repeat (apply Forall_cons_2; [apply Hfit; lia|]). apply Forall_nil_2.
Qed.

(** X18: an object built at a place on the canvas, both coordinates between
    -2^30 and 2^30, is like the objects of the program, its nodes and buttons
    where its body is, and every Rect that it holds has its corners within
    the 32-bit integers of a Rect.  [Switch(x, y)] is off, with the
    corner of its body at (x, y); [Light(x, y)] is dark, with one empty input
    and with (x, y) the centre of its body, so that its input node is at
    (x - 25, y); [Perceptron(x, y, n)] with n from 1 to 8 is built, with the
    corner of its body at (x, y), n empty inputs, the first n random numbers
    as weights and the next one as bias, and the output value 0. *)
Theorem constructors_place_objects (x y : Z) :
  on_canvas x y ->
  (placed (OSwitch (Switch_init x y))
   /\ s_base (Switch_init x y) = DraggableObject_init x y 40 40
   /\ s_output_value (Switch_init x y) = 0
   /\ Forall rect_fits (obj_rects (OSwitch (Switch_init x y))))
  /\ (placed (OLight (Light_init x y))
      /\ l_ok (Light_init x y)
      /\ l_base (Light_init x y) = DraggableObject_init (x - 20) (y - 20) 40 40
      /\ l_input_value (Light_init x y) = 0
      /\ l_input_connections (Light_init x y) = [None]
      /\ l_input_nodes_pos (Light_init x y) = [(x - 25, y)]
      /\ Forall rect_fits (obj_rects (OLight (Light_init x y))))
  /\ (forall (n : Z) (rnd : nat -> float),
        1 <= n <= 8 ->
        exists p, Perceptron_init x y n None None rnd = Ok p
                  /\ placed (OPerceptron p) /\ p_ok p
                  /\ p_base p = DraggableObject_init x y 60 80
                  /\ p_num_inputs p = Z.to_nat n
                  /\ p_weights p = map rnd (seq 0 (Z.to_nat n))
                  /\ p_bias p = rnd (Z.to_nat n)
                  /\ p_input_connections p = repeat None (Z.to_nat n)
                  /\ p_output_value p = 0
                  /\ Forall rect_fits (obj_rects (OPerceptron p))).
Proof.
  intros Hcanvas.
  assert (Hc : forall a, a = x \/ a = x - 20 \/ a = y \/ a = y - 20 ->
               - 2 ^ 30 - 20 <= a <= 2 ^ 30).
  { intros a Ha. destruct Hcanvas as [Hx Hy].
    change (2 ^ 30) with 1073741824 in *. lia. }
  assert (Hs : placed (OSwitch (Switch_init x y))).
  { split.
    + unfold fresh, Switch_init, s_update_node_positions. simpl. reflexivity.
    + simpl. unfold has_size. simpl. auto. }
  assert (Hl : placed (OLight (Light_init x y))).
  { split; [|simpl; unfold has_size; simpl; auto].
    unfold fresh, Light_init, l_update_node_positions. simpl. reflexivity. }
  split; [|split].
  - split; [exact Hs|]. split; [reflexivity|]. split; [reflexivity|].
    apply placed_rects_fit; [exact Hs | left; reflexivity | apply Hc; auto..].
  - split; [exact Hl|]. split; [split; reflexivity|]. split; [reflexivity|].
    split; [reflexivity|]. split; [reflexivity|]. split.
    + unfold Light_init, l_update_node_positions, rect_left, rect_centery,
        input_node_radius. simpl. change (Z.quot (20 * 2) 2) with 20.
      replace (x - 20 - 5) with (x - 25) by lia.
      replace (y - 20 + 20) with y by lia. reflexivity.
    + apply placed_rects_fit; [exact Hl | split; reflexivity | apply Hc; auto..].
  - intros n rnd Hn. unfold Perceptron_init.
    replace (Z.max 1 n) with n by lia. simpl bind.
    set (q := mkPerceptron _ _ _ _ _ _ _ _ _ _ _ _ _).
    destruct (p_update_node_positions_ok q) as (ks & Hq & Hks).
    { simpl. lia. } { reflexivity. }
    assert (Hpl : placed (OPerceptron (p_geometry_of q ks))).
    { eapply update_placed; [exact Hq|]. simpl. unfold has_size. simpl. auto. }
    assert (Hok : p_ok (p_geometry_of q ks)).
    { apply p_ok_geometry; simpl; auto; try lia.
      - rewrite length_map, length_seq. reflexivity.
      - apply repeat_length.
      - apply repeat_length. }
    exists (p_geometry_of q ks). split; [exact Hq|]. split; [exact Hpl|].
    split; [exact Hok|].
    do 6 (split; [reflexivity|]).
    apply placed_rects_fit; [exact Hpl | exact Hok | apply Hc; auto..].
Qed.

Lemma constructors_place_objects_witness :
  exists p,
    on_canvas 200 100
    /\ Perceptron_init 200 100 2 None None (fun _ => 0.5%float) = Ok p
    /\ placed (OPerceptron p)
    /\ obj_rects (OPerceptron p)
       = [mkRect 200 100 60 80; mkRect 242 103 15 15; mkRect 224 103 15 15;
          mkRect 260 134 12 12; mkRect 190 121 10 10; mkRect 190 148 10 10]
    /\ Forall rect_fits (obj_rects (OPerceptron p))
    /\ obj_rects (OSwitch (Switch_init 200 100))
       = [mkRect 200 100 40 40; mkRect 208 108 24 24; mkRect 240 114 12 12]
    /\ Forall rect_fits (obj_rects (OSwitch (Switch_init 200 100)))
    /\ obj_rects (OLight (Light_init 200 100))
       = [mkRect 180 80 40 40; mkRect 170 95 10 10]
    /\ Forall rect_fits (obj_rects (OLight (Light_init 200 100))).
Proof.
  assert (Hc : on_canvas 200 100) by (unfold on_canvas; simpl; lia).
  destruct (constructors_place_objects 200 100 Hc) as ((_ & _ & _ & Hs) & Hl & Hp).
  destruct Hl as (_ & _ & _ & _ & _ & _ & Hl).
  destruct (Hp 2 (fun _ => 0.5%float) ltac:(lia)) as (p & E & Hpl & _ & _ & _ & _ & _ & _ & _ & Hf).
  exists p. split; [exact Hc|]. split; [exact E|]. split; [exact Hpl|].
  split.
  { assert (Ep : Ok p = Perceptron_init 200 100 2 None None (fun _ => 0.5%float))
      by (symmetry; exact E).
    vm_compute in Ep. injection Ep as ->. reflexivity. }
  split; [exact Hf|]. split; [reflexivity|]. split; [exact Hs|].
  split; [reflexivity | exact Hl].
Defined.

(** ** The connection being drawn *)

Lemma reachable_drawing_whole (rnd1 rnd2 : nat -> float) (w : World) :
  reachable rnd1 rnd2 w -> drawing_whole (global_connection_state w).
Proof.
  induction 1 as [w Hinit | u ev w w' Hreach IH Hev | w w' Hreach IH Ht].
  - unfold initial_world in Hinit. inv_ok. left. reflexivity.
  - apply reachable_ok in Hreach.
    assert (Hdisp : forall w1, global_connection_state w1 = global_connection_state w ->
                      all_objects w1 = all_objects w ->
                      dispatch (length (all_objects w1)) u ev w1 = Ok w' ->
                      drawing_whole (global_connection_state w')).
    { intros w1 Hgs Hobjs Hd.
      destruct (dispatch_spec _ _ _ _ _ Hd)
        as [[-> _] | (j & o & o' & gs' & conns' & Hj & Ho & Hh & -> & _)].
      - rewrite Hgs. exact IH.
      - simpl. rewrite Hobjs in Ho.
        assert (Hoko : obj_ok o).
        { destruct Hreach as [Hall _ _]. rewrite Forall_forall in Hall.
          apply Hall. eapply list_elem_of_lookup_2. exact Ho. }
        destruct (handle_event_ok j u o ev (global_connection_state w1) (connections w1) Hoko)
          as (r & E & _ & _ & Hpost).
        rewrite Hh in E. inversion E; subst r. simpl in Hpost.
        destruct Hpost as [->|[q ->]]; [rewrite Hgs; exact IH|].
        right. exists j, q. reflexivity. }
    unfold process_event in Hev.
    destruct ev as [|b pt|b pt|pt|]; try (eapply Hdisp; [| |exact Hev]; reflexivity).
    destruct (is_drawing_connection (global_connection_state w)).
    + unfold finalize_connection in Hev.
      destruct (find_target (all_objects w) pt) as [[t i]|];
        [destruct (connection_start_obj (global_connection_state w))|];
        inv_ok; left; reflexivity.
    + eapply Hdisp; [| |exact Hev]; reflexivity.
  - unfold tick in Ht. inv_ok. exact IH.
Qed.

(** X19: in every state of the program the connection-drawing state is
    whole.  Either nothing is being drawn, the state holds no start object
    and no start position and no yellow line is drawn; or a connection is
    being drawn, the state holds a start object, a switch or a Perceptron,
    and a start position, and the yellow line is drawn from that position to
    the pointer. *)
Theorem drawing_state_is_whole (rnd1 rnd2 : nat -> float) (w : World) (mouse_pos : pos) :
  reachable rnd1 rnd2 w ->
  (global_connection_state w = mkGlobalState false None None
   /\ temporary_line w mouse_pos = None)
  \/ exists s q,
       global_connection_state w = mkGlobalState true (Some s) (Some q)
       /\ is_source (all_objects w) s = true
       /\ temporary_line w mouse_pos = Some (q, mouse_pos).
Proof.
  intros Hreach. pose proof (reachable_wired _ _ _ Hreach) as [_ _ Hstart].
  unfold temporary_line.
  destruct (reachable_drawing_whole _ _ _ Hreach) as [E | (s & q & E)];
    rewrite E in *.
  - left. split; reflexivity.
  - right. exists s, q. split; [reflexivity|]. split; [|reflexivity].
    apply Hstart. reflexivity.
Qed.

Lemma drawing_state_is_whole_witness :
  exists w : World,
    (w0 <- initial_world (fun _ => 0.5%float) (fun _ => 0.5%float) ;;
     process_events [(0%float, MOUSEBUTTONDOWN 1 (96, 70));
                     (0%float, MOUSEMOTION (150, 90))] w0) = Ok w
    /\ global_connection_state w = mkGlobalState true (Some 0%nat) (Some (96, 70))
    /\ temporary_line w (150, 90) = Some ((96, 70), (150, 90)).
Proof.
  evar (w : World).
  assert (Hw : (w0 <- initial_world (fun _ => 0.5%float) (fun _ => 0.5%float) ;;
                process_events [(0%float, MOUSEBUTTONDOWN 1 (96, 70));
                                (0%float, MOUSEMOTION (150, 90))] w0) = Ok w).
  { vm_compute. subst w. reflexivity. }
  destruct (drawing_state_is_whole _ _ w (150, 90) (reachable_run _ _ _ _ Hw))
    as [[E _] | (s & q & E & _ & Hline)]; [discriminate E|].
  exists w. split; [exact Hw|]. split; [reflexivity|].
  inversion E; subst q. exact Hline.
Defined.

(** ** Letting go *)

(** An object that leaves an event which the objects after it leave too
    is as it was after the event, whatever the objects before it do. *)
Lemma dispatch_declined_stays (u : float) (ev : event) (w w' : World) (t : nat) (o : Obj) :
  all_objects w !! t = Some o ->
  (forall j o2, (t <= j)%nat -> all_objects w !! j = Some o2 ->
     handle_event j u o2 ev (global_connection_state w) (connections w)
     = Ok (false, o2, global_connection_state w, connections w)) ->
  dispatch (length (all_objects w)) u ev w = Ok w' ->
  all_objects w' !! t = Some o.
Proof.
  intros Ho Hall H. apply lookup_lt_Some in Ho as Hlt.
  rewrite (dispatch_skip _ t) in H; [|lia|].
  - rewrite (dispatch_above _ _ _ _ _ t H) by lia. exact Ho.
  - intros j o2 Hj. apply Hall. lia.
Qed.

(** What a left button pointer-up does to the world when no connection is
    being drawn and the topmost dragged object is at position [t]. *)
Lemma release_on_top (u : float) (q : pos) (w : World) (t : nat) (o : Obj) :
  is_drawing_connection (global_connection_state w) = false ->
  dragging o = true ->
  all_objects w !! t = Some o -> none_dragged_above (all_objects w) t ->
  process_event u (MOUSEBUTTONUP 1 q) w
  = Ok (world_at w t (obj_set_base o (stop_drag (obj_base o)))).
Proof.
  intros Hidle Hd Ho Hnone. unfold process_event. rewrite Hidle.
  eapply dispatch_handled; [exact Ho| |apply handle_event_release; exact Hd].
  intros j o2 Hj Ho2. apply handle_event_up_idle. eapply Hnone; eauto.
Qed.

(** X20: in every state of the program in which no connection is being
    drawn, the gesture of dragging works on every object: the left button
    down at [pt] on a place that takes hold of the object and where no object
    later in the list is touched, the pointer moved to [q], the left button up,
    while no object later in the list is dragged.  Each of the three events
    changes that object only; afterwards its body is at the old place shifted
    by [q - pt], its nodes and buttons are where the body is, its values are
    as they were, it is not dragged any more, and a further motion of the
    pointer leaves it as it is.  The other objects, the drawing state and the
    connections are not touched. *)
Theorem drag_and_drop (rnd1 rnd2 : nat -> float) (w : World) (t : nat) (o : Obj)
    (u1 u2 u3 : float) (pt q : pos) :
  reachable rnd1 rnd2 w -> all_objects w !! t = Some o ->
  is_drawing_connection (global_connection_state w) = false ->
  grabs o 1 pt = true ->
  clear_above (all_objects w) t pt -> none_dragged_above (all_objects w) t ->
  exists o1 o2 o3,
    process_event u1 (MOUSEBUTTONDOWN 1 pt) w = Ok (world_at w t o1)
    /\ process_event u2 (MOUSEMOTION q) (world_at w t o1) = Ok (world_at w t o2)
    /\ process_event u3 (MOUSEBUTTONUP 1 q) (world_at w t o2) = Ok (world_at w t o3)
    /\ rect (obj_base o3) = moved (rect (obj_base o)) (fst q - fst pt) (snd q - snd pt)
    /\ dragging o3 = false
    /\ same_data o o3
    /\ placed o3
    /\ forall u4 q', exists w4,
         process_event u4 (MOUSEMOTION q') (world_at w t o3) = Ok w4
         /\ all_objects w4 !! t = Some o3.
Proof.
  intros Hreach Ho Hidle Hg Hclear Hnone. apply lookup_lt_Some in Ho as Hlt.
  destruct (grab_on_top _ _ w t o u1 1 pt Hreach Ho Hg Hclear) as (E1 & Hok1 & Hpl1 & Hdr1).
  set (o1 := obj_set_base o (start_drag (obj_base o) pt)) in *.
  assert (Hb1 : obj_base o1 = start_drag (obj_base o) pt) by apply obj_base_set.
  assert (Hd1 : same_data o o1) by apply same_data_set_base.
  assert (Hat : forall x, all_objects (world_at w t x) !! t = Some x).
  { intros x. simpl. apply list_lookup_insert_eq. exact Hlt. }
  assert (Hnone' : forall x, none_dragged_above (all_objects (world_at w t x)) t).
  { intros x. simpl. apply none_dragged_above_insert. exact Hnone. }
  destruct (motion_on_top u2 q (world_at w t o1) t o1 Hok1 Hpl1 Hdr1 (Hat o1) (Hnone' o1))
    as (o2 & E2 & Hb2 & Hd2 & Hpl2 & Hok2).
  rewrite world_at_twice in E2.
  assert (Hdr2 : dragging o2 = true) by (unfold dragging; rewrite Hb2, Hb1; reflexivity).
  pose proof (release_on_top u3 q (world_at w t o2) t o2 Hidle Hdr2 (Hat o2) (Hnone' o2))
    as E3.
  rewrite world_at_twice in E3.
  set (o3 := obj_set_base o2 (stop_drag (obj_base o2))) in *.
  assert (Hpl3 : placed o3).
  { exact (handle_event_placed _ _ _ _ _ _ _
             (handle_event_release t u3 o2 q reset_state [] Hdr2) Hpl2). }
  assert (Hdr3 : dragging o3 = false).
  { unfold dragging, o3. rewrite obj_base_set. reflexivity. }
  exists o1, o2, o3.
  split; [exact E1|]. split; [exact E2|]. split; [exact E3|].
  split.
  { unfold o3. rewrite obj_base_set. unfold stop_drag. simpl. rewrite Hb2, Hb1.
    apply drag_rect. }
  split; [exact Hdr3|]. split.
  { eapply same_data_trans; [exact Hd1|]. eapply same_data_trans; [exact Hd2|].
    apply same_data_set_base. }
  split; [exact Hpl3|].
  intros u4 q'.
  assert (Hreach3 : reachable rnd1 rnd2 (world_at w t o3)).
  { eapply reach_event; [|exact E3]. eapply reach_event; [|exact E2].
    eapply reach_event; [exact Hreach | exact E1]. }
  destruct (process_event_ok u4 (MOUSEMOTION q') _ (reachable_ok _ _ _ Hreach3))
    as (w4 & E4 & _).
  exists w4. split; [exact E4|].
  apply (dispatch_declined_stays u4 (MOUSEMOTION q') (world_at w t o3) w4 t o3 (Hat o3));
    [|exact E4].
  intros j o' Hj Ho'. apply handle_event_motion_idle.
  destruct (decide (j = t)) as [->|Hne].
  - rewrite Hat in Ho'. injection Ho' as <-. exact Hdr3.
  - apply (Hnone' o3 j o'); [lia | exact Ho'].
Qed.

Lemma drag_and_drop_witness :
  exists (w : World) (o o1 o2 o3 : Obj),
    (w0 <- initial_world (fun _ => 0.5%float) (fun _ => 0.5%float) ;;
     process_events [] w0) = Ok w
    /\ all_objects w !! 4%nat = Some o
    /\ grabs o 1 (590, 90) = true
    /\ rect (obj_base o) = mkRect 580 80 40 40
    /\ process_event 0.5%float (MOUSEBUTTONDOWN 1 (590, 90)) w = Ok (world_at w 4 o1)
    /\ process_event 0.5%float (MOUSEMOTION (490, 190)) (world_at w 4 o1)
       = Ok (world_at w 4 o2)
    /\ process_event 0.5%float (MOUSEBUTTONUP 1 (490, 190)) (world_at w 4 o2)
       = Ok (world_at w 4 o3)
    /\ rect (obj_base o3) = mkRect 480 180 40 40
    /\ dragging o3 = false.
Proof.
  evar (w : World).
  assert (Hw : (w0 <- initial_world (fun _ => 0.5%float) (fun _ => 0.5%float) ;;
                process_events [] w0) = Ok w).
  { vm_compute. subst w. reflexivity. }
  evar (o : Obj).
  assert (Ho : all_objects w !! 4%nat = Some o).
  { vm_compute. subst o. reflexivity. }
  assert (Hg : grabs o 1 (590, 90) = true) by reflexivity.
  assert (Hall : forall (P : Obj -> Prop), Forall P (drop 5 (all_objects w)) ->
                 forall j o2, (4 < j)%nat -> all_objects w !! j = Some o2 -> P o2).
  { intros P H j o2 Hj Ho2. rewrite Forall_forall in H. apply H.
    apply list_elem_of_lookup. exists (j - 5)%nat.
    rewrite lookup_drop. replace (5 + (j - 5))%nat with j by lia. exact Ho2. }
  assert (Hc : clear_above (all_objects w) 4 (590, 90)).
  { refine (Hall (fun o2 => touches o2 (590, 90) = false) _).
    vm_compute. repeat constructor. }
  assert (Hn : none_dragged_above (all_objects w) 4).
  { refine (Hall (fun o2 => dragging o2 = false) _). vm_compute. repeat constructor. }
  destruct (drag_and_drop _ _ w 4 o 0.5%float 0.5%float 0.5%float (590, 90) (490, 190)
              (reachable_run _ _ _ _ Hw) Ho eq_refl Hg Hc Hn)
    as (o1 & o2 & o3 & E1 & E2 & E3 & Hr & Hd & _).
  exists w, o, o1, o2, o3. split; [exact Hw|]. split; [exact Ho|]. split; [exact Hg|].
  split; [reflexivity|]. split; [exact E1|]. split; [exact E2|]. split; [exact E3|].
  split; [exact Hr | exact Hd].
Defined.
